(** * The IPLR delta-rule recurrence and the Gated Slot Attention wrapper

    A shallow embedding of
      - [src/fla/ops/generalized_delta_rule/iplr/fused_recurrent.py]
        (the Triton forward and backward kernels, the autograd function that
        allocates the buffers and launches them, and the user-facing
        [fused_recurrent_iplr_delta_rule]);
      - [GatedSlotAttention.forward] in [src/fla/layers/gsa.py], with the
        slot-gate computation written out and the layer's collaborators
        (projections, convolutions, cache, engines) as parameters.

    Modelling conventions.
      - Tensor elements are real numbers: [.to(tl.float32)] and
        [.to(p.dtype.element_ty)] are the identity, rounding is not modelled.
      - A tensor handed to a kernel is a [buffer]: its number of elements and
        its contents by flat offset.  A masked-in lane that addresses an
        offset outside the buffer makes the launch [Raise IllegalMemoryAccess].
      - Index arithmetic is done in [Z]; the machine width of Triton's index
        type is not modelled (all offsets are assumed to fit).
      - The programs of a launch grid touch disjoint output locations; the
        grid is run one program after the other.
      - Python's [assert] statements are taken as enabled. *)

From Stdlib Require Import Reals ZArith List Bool Lia Lra Psatz FinFun Zbitwise
  Permutation.
Import ListNotations.
Local Open Scope Z_scope.

(** ** Exceptions *)

Inductive exn : Type :=
| ValueError
| AssertionError
| ZeroDivisionError
| IndexError
| TypeError
| NotImplementedError
| IllegalMemoryAccess.

Inductive result (A : Type) : Type :=
| Ok (x : A)
| Raise (e : exn).
Arguments Ok {A} x.
Arguments Raise {A} e.

Definition bind {A B : Type} (m : result A) (f : A -> result B) : result B :=
  match m with
  | Ok x => f x
  | Raise e => Raise e
  end.

Notation "x <- m ;; f" := (bind m (fun x => f))
  (at level 61, m at next level, right associativity).
Notation "' pat <- m ;; f" := (bind m (fun x => match x with pat => f end))
  (at level 61, pat pattern, m at next level, right associativity).

(** ** Device memory *)

Record buffer : Type := mkbuffer { numel : Z; data : Z -> R }.

Definition in_bounds (m : buffer) (p : Z) : bool := (0 <=? p) && (p <? numel m).

Definition load1 (m : buffer) (p : Z) : result R :=
  if in_bounds m p then Ok (data m p) else Raise IllegalMemoryAccess.

Definition store1 (m : buffer) (p : Z) (x : R) : result buffer :=
  if in_bounds m p
  then Ok (mkbuffer (numel m) (fun i => if i =? p then x else data m i))
  else Raise IllegalMemoryAccess.

(** ** Block values and the [tl] primitives the kernels use

    A one-dimensional block is a list of lanes, a two-dimensional block a
    list of rows. *)

Definition tab {A : Type} (n : nat) (f : nat -> A) : list A := map f (seq 0 n).

Definition tl_arange (n : Z) : list Z := tab (Z.to_nat n) Z.of_nat.

Fixpoint zip_with {A B C : Type} (f : A -> B -> C) (x : list A) (y : list B) : list C :=
  match x, y with
  | a :: x', b :: y' => f a b :: zip_with f x' y'
  | _, _ => []
  end.

(** [x[:, None] op y[None, :]] *)
Definition outer2 {A B C : Type} (f : A -> B -> C) (col : list A) (row : list B)
  : list (list C) :=
  map (fun c => map (fun r => f c r) row) col.

(** [m op y[None, :]] *)
Definition with_row {A B C : Type} (f : A -> B -> C) (m : list (list A)) (row : list B)
  : list (list C) :=
  map (fun r => zip_with f r row) m.

(** [m op x[:, None]] *)
Definition with_col {A B C : Type} (f : A -> B -> C) (m : list (list A)) (col : list B)
  : list (list C) :=
  zip_with (fun r c => map (fun e => f e c) r) m col.

Definition add2 (m n : list (list R)) : list (list R) :=
  zip_with (zip_with Rplus) m n.

Definition tl_zeros (n : Z) : list R := tab (Z.to_nat n) (fun _ => 0%R).

Definition tl_zeros2 (r c : Z) : list (list R) :=
  tab (Z.to_nat r) (fun _ => tl_zeros c).

(** [tl.sum] of a one-dimensional block *)
Definition tl_sum (x : list R) : R := fold_right Rplus 0%R x.

Abbreviation sigma n f := (tl_sum (tab n f)).

(** [tl.sum(m, axis=1)]: one sum per row *)
Definition tl_sum_axis1 (m : list (list R)) : list R := map tl_sum m.

(** [tl.sum(m, axis=0)]: one sum per column, [c] columns *)
Definition tl_sum_axis0 (c : Z) (m : list (list R)) : list R :=
  fold_right (zip_with Rplus) (tl_zeros c) m.

(** [tl.load(p, mask=mask, other=0)] *)
Fixpoint tl_load (m : buffer) (p : list Z) (mask : list bool) : result (list R) :=
  match p, mask with
  | a :: p', c :: mask' =>
      x <- (if c then load1 m a else Ok 0%R) ;;
      xs <- tl_load m p' mask' ;;
      Ok (x :: xs)
  | _, _ => Ok []
  end.

(** [tl.store(p, x, mask=mask)] *)
Fixpoint tl_store (m : buffer) (p : list Z) (x : list R) (mask : list bool)
  : result buffer :=
  match p, x, mask with
  | a :: p', e :: x', c :: mask' =>
      m' <- (if c then store1 m a e else Ok m) ;;
      tl_store m' p' x' mask'
  | _, _, _ => Ok m
  end.

Fixpoint tl_load2 (m : buffer) (p : list (list Z)) (mask : list (list bool))
  : result (list (list R)) :=
  match p, mask with
  | r :: p', c :: mask' =>
      x <- tl_load m r c ;;
      xs <- tl_load2 m p' mask' ;;
      Ok (x :: xs)
  | _, _ => Ok []
  end.

Fixpoint tl_store2 (m : buffer) (p : list (list Z)) (x : list (list R))
  (mask : list (list bool)) : result buffer :=
  match p, x, mask with
  | r :: p', e :: x', c :: mask' =>
      m' <- tl_store m r e c ;;
      tl_store2 m' p' x' mask'
  | _, _, _ => Ok m
  end.

(** [tl.load(cu_seqlens + i)] on the integer tensor of segment boundaries *)
Definition load_int (m : list Z) (i : Z) : result Z :=
  if (0 <=? i) && (i <? Z.of_nat (length m))
  then Ok (nth (Z.to_nat i) m 0)
  else Raise IllegalMemoryAccess.

(** [for _ in range(n): body] on an explicit loop state *)
Fixpoint for_range {S : Type} (n : nat) (body : S -> result S) (s : S) : result S :=
  match n with
  | O => Ok s
  | Datatypes.S n' => s' <- body s ;; for_range n' body s'
  end.

(** A launch grid [(g0, g1)]: the program ids [(i_v, i_nh)], and the programs
    run one after the other on the shared output buffers. *)
Definition grid (g0 g1 : Z) : list (Z * Z) :=
  list_prod (tl_arange g0) (tl_arange g1).

Fixpoint run_grid {S : Type} (prog : Z -> Z -> S -> result S) (ids : list (Z * Z))
  (s : S) : result S :=
  match ids with
  | [] => Ok s
  | (i_v, i_nh) :: ids' => s' <- prog i_v i_nh s ;; run_grid prog ids' s'
  end.

(** The [IS_VARLEN] branch both kernels start with: the first token [bos] of
    the program's sequence and its length [T]. *)
Definition program_range (cu_seqlens : option (list Z)) (T i_n : Z) : result (Z * Z) :=
  match cu_seqlens with
  | Some cu =>
      bos <- load_int cu i_n ;;
      eos <- load_int cu (i_n + 1) ;;
      Ok (bos, eos - bos)
  | None => Ok (i_n * T, T)
  end.

Definition ptr (off : Z) (lanes : list Z) : list Z := map (fun i => off + i) lanes.

(** [p += step] on a block of pointers *)
Definition advance (p : list Z) (step : Z) : list Z := map (fun x => x + step) p.

(** ** The forward kernel *)

Module Fwd.

Record outputs : Type := mkoutputs {
  o : buffer;            (* output [B, T, H, V] *)
  ha : buffer;           (* cached (h * a[None, :]).sum(1), [B, T, H, V] *)
  ht : option buffer     (* final state [N, H, K, V], when stored *)
}.

Record loop_state : Type := mkloop {
  p_q : list Z; p_k : list Z; p_a : list Z; p_b : list Z;
  p_ha : list Z; p_v : list Z; p_o : list Z;
  b_h : list (list R);
  mem_o : buffer; mem_ha : buffer
}.

Section Kernel.

Variables q k v a b : buffer.
Variable h0 : option buffer.
Variable cu_seqlens : option (list Z).
Variable scale : R.
Variables H T K V BK BV : Z.

(** one iteration of [for _ in range(0, T)] *)
Definition step (mask_k mask_v : list bool) (s : loop_state) : result loop_state :=
  b_k <- tl_load k (p_k s) mask_k ;;
  b_v <- tl_load v (p_v s) mask_v ;;
  b_q0 <- tl_load q (p_q s) mask_k ;;
  let b_q := map (fun x => x * scale)%R b_q0 in
  b_a <- tl_load a (p_a s) mask_k ;;
  b_b <- tl_load b (p_b s) mask_k ;;
  let tmp := tl_sum_axis1 (with_row Rmult (b_h s) b_a) in
  let b_h' :=
    add2 (b_h s)
         (add2 (outer2 Rmult tmp b_b)
               (outer2 (fun x_v x_k => x_k * x_v)%R b_v b_k)) in
  let b_o := tl_sum_axis1 (with_row Rmult b_h' b_q) in
  mem_o' <- tl_store (mem_o s) (p_o s) b_o mask_v ;;
  mem_ha' <- tl_store (mem_ha s) (p_ha s) tmp mask_v ;;
  Ok {| p_q := advance (p_q s) (K * H);
        p_k := advance (p_k s) (K * H);
        p_o := advance (p_o s) (V * H);
        p_v := advance (p_v s) (V * H);
        p_ha := advance (p_ha s) (V * H);
        p_a := advance (p_a s) (K * H);
        p_b := advance (p_b s) (K * H);
        b_h := b_h';
        mem_o := mem_o';
        mem_ha := mem_ha' |}.

(** the program with ids [(i_v, i_nh)] *)
Definition fused_recurrent_fwd_kernel (i_v i_nh : Z) (out : outputs) : result outputs :=
  let i_n := i_nh / H in
  let i_h := i_nh mod H in
  '(bos, T') <- program_range cu_seqlens T i_n ;;
  let p_q := ptr ((bos * H + i_h) * K) (tl_arange BK) in
  let p_k := ptr ((bos * H + i_h) * K) (tl_arange BK) in
  let p_a := ptr ((bos * H + i_h) * K) (tl_arange BK) in
  let p_b := ptr ((bos * H + i_h) * K) (tl_arange BK) in
  let p_ha := ptr ((bos * H + i_h) * V + i_v * BV) (tl_arange BV) in
  let p_v := ptr ((bos * H + i_h) * V + i_v * BV) (tl_arange BV) in
  let p_o := ptr ((bos * H + i_h) * V + i_v * BV) (tl_arange BV) in
  let mask_k := map (fun i => i <? K) (tl_arange BK) in
  let mask_v := map (fun j => i_v * BV + j <? V) (tl_arange BV) in
  let mask_h := outer2 (fun m_v m_k => m_k && m_v) mask_v mask_k in
  let p_state :=
    outer2 (fun j i => i_nh * K * V + i * V + j)
           (map (fun j => i_v * BV + j) (tl_arange BV)) (tl_arange BK) in
  let b_h := tl_zeros2 BV BK in
  b_h <-
    match h0 with
    | Some m => x <- tl_load2 m p_state mask_h ;; Ok (add2 b_h x)
    | None => Ok b_h
    end ;;
  s <- for_range (Z.to_nat T') (step mask_k mask_v)
         {| p_q := p_q; p_k := p_k; p_a := p_a; p_b := p_b;
            p_ha := p_ha; p_v := p_v; p_o := p_o;
            b_h := b_h; mem_o := o out; mem_ha := ha out |} ;;
  ht' <-
    match ht out with
    | Some m => m' <- tl_store2 m p_state (Fwd.b_h s) mask_h ;; Ok (Some m')
    | None => Ok None
    end ;;
  Ok {| o := mem_o s; ha := mem_ha s; ht := ht' |}.

End Kernel.

End Fwd.

(** ** The backward kernel *)

Module Bwd.

Record outputs : Type := mkoutputs {
  dq : buffer;           (* [NV, B, T, H, K] *)
  dk : buffer;           (* [NV, B, T, H, K] *)
  dv : buffer;           (* [B, T, H, V] *)
  da : buffer;           (* [NV, B, T, H, K] *)
  db : buffer;           (* [NV, B, T, H, K] *)
  dha : buffer;          (* [B, T, H, V] *)
  dh0 : option buffer    (* [N, H, K, V], when requested *)
}.

(** state of the first loop (descending time) *)
Record loop1_state : Type := mkloop1 {
  p_q : list Z; p_k : list Z; p_v : list Z; p_ha : list Z;
  p_a : list Z; p_b : list Z; p_do : list Z;
  p_dk : list Z; p_dv : list Z; p_dha : list Z; p_db : list Z;
  b_dh : list (list R);
  mem_dk : buffer; mem_dv : buffer; mem_dha : buffer; mem_db : buffer
}.

(** state of the second loop (ascending time) *)
Record loop2_state : Type := mkloop2 {
  r_k : list Z; r_v : list Z; r_ha : list Z; r_do : list Z;
  r_dha : list Z; r_da : list Z; r_dq : list Z; r_b : list Z;
  b_h : list (list R);
  mem_da : buffer; mem_dq : buffer
}.

Section Kernel.

Variables q k v a b ha : buffer.
Variable dht : option buffer.
Variable do : buffer.
Variable h0 : option buffer.
Variable scale : R.
Variable cu_seqlens : option (list Z).
Variables B H T K V BK BV : Z.

(** one iteration of the first [for _ in range(T)] *)
Definition step1 (mask_k mask_v : list bool) (s : loop1_state) : result loop1_state :=
  b_q0 <- tl_load q (p_q s) mask_k ;;
  let b_q := map (fun x => x * scale)%R b_q0 in
  b_k <- tl_load k (p_k s) mask_k ;;
  b_v <- tl_load v (p_v s) mask_v ;;
  b_do <- tl_load do (p_do s) mask_v ;;
  b_b <- tl_load b (p_b s) mask_k ;;
  b_a <- tl_load a (p_a s) mask_k ;;
  b_ha <- tl_load ha (p_ha s) mask_v ;;
  let b_dh1 := add2 (b_dh s) (outer2 Rmult b_q b_do) in
  let d_k := tl_sum_axis1 (with_row Rmult b_dh1 b_v) in
  let d_v := tl_sum_axis0 BV (with_col Rmult b_dh1 b_k) in
  mem_dk' <- tl_store (mem_dk s) (p_dk s) d_k mask_k ;;
  mem_dv' <- tl_store (mem_dv s) (p_dv s) d_v mask_v ;;
  let b_dha := tl_sum_axis0 BV (with_col Rmult b_dh1 b_b) in
  mem_dha' <- tl_store (mem_dha s) (p_dha s) b_dha mask_v ;;
  let b_db := tl_sum_axis1 (with_row Rmult b_dh1 b_ha) in
  mem_db' <- tl_store (mem_db s) (p_db s) b_db mask_k ;;
  let b_dh2 := add2 b_dh1 (outer2 (fun x_a x_dha => x_dha * x_a)%R b_a b_dha) in
  Ok {| p_do := advance (p_do s) (- (H * V));
        p_q := advance (p_q s) (- (H * K));
        p_k := advance (p_k s) (- (H * K));
        p_v := advance (p_v s) (- (H * V));
        p_dk := advance (p_dk s) (- (H * K));
        p_dv := advance (p_dv s) (- (H * V));
        p_b := advance (p_b s) (- (H * K));
        p_db := advance (p_db s) (- (H * K));
        p_a := advance (p_a s) (- (H * K));
        p_dha := advance (p_dha s) (- (H * V));
        p_ha := advance (p_ha s) (- (H * V));
        b_dh := b_dh2;
        mem_dk := mem_dk'; mem_dv := mem_dv'; mem_dha := mem_dha'; mem_db := mem_db' |}.

(** one iteration of the second [for i in range(0, T)]; [dha] is the buffer
    the first loop has filled *)
Definition step2 (dha : buffer) (mask_k mask_v : list bool) (s : loop2_state)
  : result loop2_state :=
  b_dha <- tl_load dha (r_dha s) mask_v ;;
  let d_a := tl_sum_axis1 (with_row (fun x_h x_dha => x_dha * x_h)%R (b_h s) b_dha) in
  mem_da' <- tl_store (mem_da s) (r_da s) d_a mask_k ;;
  b_k <- tl_load k (r_k s) mask_k ;;
  b_v <- tl_load v (r_v s) mask_v ;;
  b_do <- tl_load do (r_do s) mask_v ;;
  b_b <- tl_load b (r_b s) mask_k ;;
  b_ha <- tl_load ha (r_ha s) mask_v ;;
  let b_h' := add2 (b_h s) (add2 (outer2 Rmult b_k b_v) (outer2 Rmult b_b b_ha)) in
  let d_q := map (fun x => x * scale)%R (tl_sum_axis1 (with_row Rmult b_h' b_do)) in
  mem_dq' <- tl_store (mem_dq s) (r_dq s) d_q mask_k ;;
  Ok {| r_k := advance (r_k s) (H * K);
        r_do := advance (r_do s) (H * V);
        r_v := advance (r_v s) (H * V);
        r_da := advance (r_da s) (H * K);
        r_dha := advance (r_dha s) (H * V);
        r_ha := advance (r_ha s) (H * V);
        r_dq := advance (r_dq s) (H * K);
        r_b := advance (r_b s) (H * K);
        b_h := b_h';
        mem_da := mem_da'; mem_dq := mem_dq' |}.

(** the program with ids [(i_v, i_nh)] *)
Definition fused_recurrent_bwd_kernel (i_v i_nh : Z) (out : outputs) : result outputs :=
  let i_n := i_nh / H in
  let i_h := i_nh mod H in
  let dk_0 := i_v * B * H * K * T in
  let db_0 := i_v * B * H * K * T in
  let dq_0 := i_v * B * H * K * T in
  let da_0 := i_v * B * H * K * T in
  '(bos, T') <- program_range cu_seqlens T i_n ;;
  let mask_k := map (fun i => i <? K) (tl_arange BK) in
  let mask_v := map (fun j => j + i_v * BV <? V) (tl_arange BV) in
  let q_0 := (bos * H + i_h) * K in
  let k_0 := (bos * H + i_h) * K in
  let v_0 := (bos * H + i_h) * V + i_v * BV in
  let ha_0 := (bos * H + i_h) * V + i_v * BV in
  let a_0 := (bos * H + i_h) * K in
  let b_0 := (bos * H + i_h) * K in
  let do_0 := (bos * H + i_h) * V + i_v * BV in
  let dq_0 := dq_0 + (bos * H + i_h) * K in
  let dk_0 := dk_0 + (bos * H + i_h) * K in
  let dv_0 := (bos * H + i_h) * V + i_v * BV in
  let da_0 := da_0 + (bos * H + i_h) * K in
  let db_0 := db_0 + (bos * H + i_h) * K in
  let dha_0 := (bos * H + i_h) * V + i_v * BV in
  let last (base : Z) (n stride : Z) := ptr (base + (T' - 1) * stride) (tl_arange n) in
  let mask_kv := outer2 andb mask_k mask_v in
  let p_state :=
    outer2 (fun i j => i_nh * K * V + i * V + j)
           (tl_arange BK) (map (fun j => i_v * BV + j) (tl_arange BV)) in
  let b_dh := tl_zeros2 BK BV in
  b_dh <-
    match dht with
    | Some m => x <- tl_load2 m p_state mask_kv ;; Ok (add2 b_dh x)
    | None => Ok b_dh
    end ;;
  s1 <- for_range (Z.to_nat T') (step1 mask_k mask_v)
          {| p_q := last q_0 BK (H * K); p_k := last k_0 BK (H * K);
             p_v := last v_0 BV (H * V); p_ha := last ha_0 BV (H * V);
             p_a := last a_0 BK (H * K); p_b := last b_0 BK (H * K);
             p_do := last do_0 BV (H * V);
             p_dk := last dk_0 BK (H * K); p_dv := last dv_0 BV (H * V);
             p_dha := last dha_0 BV (H * V); p_db := last db_0 BK (H * K);
             b_dh := b_dh;
             mem_dk := dk out; mem_dv := dv out;
             mem_dha := dha out; mem_db := db out |} ;;
  dh0' <-
    match dh0 out with
    | Some m => m' <- tl_store2 m p_state (Bwd.b_dh s1) mask_kv ;; Ok (Some m')
    | None => Ok None
    end ;;
  (* tl.debug_barrier() *)
  let b_h := tl_zeros2 BK BV in
  b_h <-
    match h0 with
    | Some m => x <- tl_load2 m p_state mask_kv ;; Ok (add2 b_h x)
    | None => Ok b_h
    end ;;
  s2 <- for_range (Z.to_nat T') (step2 (mem_dha s1) mask_k mask_v)
          {| r_k := ptr k_0 (tl_arange BK); r_v := ptr v_0 (tl_arange BV);
             r_ha := ptr ha_0 (tl_arange BV); r_do := ptr do_0 (tl_arange BV);
             r_dha := ptr dha_0 (tl_arange BV); r_da := ptr da_0 (tl_arange BK);
             r_dq := ptr dq_0 (tl_arange BK); r_b := ptr b_0 (tl_arange BK);
             b_h := b_h;
             mem_da := da out; mem_dq := dq out |} ;;
  Ok {| dq := mem_dq s2; dk := mem_dk s1; dv := mem_dv s1;
        da := mem_da s2; db := mem_db s1; dha := mem_dha s1; dh0 := dh0' |}.

End Kernel.

End Bwd.

(** ** Host side: tensors, allocation, the autograd function *)

(** A contiguous tensor: its shape and its elements by flat offset. *)
Record tensor : Type := mktensor { shape : list Z; elems : Z -> R }.

Definition size (s : list Z) : Z := fold_right Z.mul 1 s.

Definition as_buffer (x : tensor) : buffer := mkbuffer (size (shape x)) (elems x).

Definition as_tensor (s : list Z) (m : buffer) : tensor := mktensor s (data m).

(** [torch.empty]: the elements are whatever the allocator hands out *)
Definition new_empty (junk : Z -> R) (s : list Z) : tensor := mktensor s junk.

(** [x[:, t0:t1]], made contiguous (as [input_guard] does), of a tensor of
    shape [[B, T, H, W]] *)
Definition slice_time (t0 t1 : Z) (x : tensor) : tensor :=
  match shape x with
  | [B; T; H; W] =>
      mktensor [B; t1 - t0; H; W]
        (fun p => let n := p / ((t1 - t0) * (H * W)) in
                  let r := p mod ((t1 - t0) * (H * W)) in
                  elems x ((n * T + t0) * (H * W) + r))
  | _ => x
  end.

(** [x[n0:n1]] of a tensor whose slices along the first axis have [W]
    elements *)
Definition slice_first (n0 n1 : Z) (x : tensor) : tensor :=
  match shape x with
  | N :: s => mktensor ((n1 - n0) :: s) (fun p => elems x (n0 * size s + p))
  | [] => x
  end.

(** [triton.cdiv] *)
Definition cdiv (x y : Z) : Z := (x + y - 1) / y.

(** [triton.next_power_of_2] *)
Definition next_power_of_2 (n : Z) : Z :=
  let n := n - 1 in
  let n := Z.lor n (Z.shiftr n 1) in
  let n := Z.lor n (Z.shiftr n 2) in
  let n := Z.lor n (Z.shiftr n 4) in
  let n := Z.lor n (Z.shiftr n 8) in
  let n := Z.lor n (Z.shiftr n 16) in
  let n := Z.lor n (Z.shiftr n 32) in
  n + 1.

(** [x.sum(0)] of a tensor whose leading dimension is [NV] and whose slices
    have [n] elements *)
Definition sum0 (NV n : Z) (m : buffer) : buffer :=
  mkbuffer n (fun x => sigma (Z.to_nat NV) (fun i_v => data m (Z.of_nat i_v * n + x))).

(** Host code runs with a count of the kernel launches made so far. *)
Definition host (A : Type) : Type := nat -> nat * result A.

Definition ret {A : Type} (x : A) : host A := fun c => (c, Ok x).

Definition raise {A : Type} (e : exn) : host A := fun c => (c, Raise e).

Definition hbind {A B : Type} (m : host A) (f : A -> host B) : host B :=
  fun c => match m c with
           | (c', Ok x) => f x c'
           | (c', Raise e) => (c', Raise e)
           end.

(** [kernel[grid](...)] *)
Definition launch {A : Type} (r : result A) : host A := fun c => (S c, r).

Notation "x <~ m ;; f" := (hbind m (fun x => f))
  (at level 61, m at next level, right associativity).

(** what [ctx] keeps for the backward pass *)
Record context : Type := mkcontext {
  saved_q : tensor; saved_k : tensor; saved_v : tensor;
  saved_a : tensor; saved_b : tensor; saved_ha : tensor;
  saved_initial_state : option tensor;
  ctx_scale : R;
  ctx_cu_seqlens : option (list Z)
}.

Definition num_sequences (B : Z) (cu_seqlens : option (list Z)) : Z :=
  match cu_seqlens with
  | None => B
  | Some cu => Z.of_nat (length cu) - 1
  end.

(** [FusedRecurrentIPLRDeltaRuleFunction.forward]; [config_BV] is the block
    width the autotuner picks among 32 and 64 *)
Definition forward (config_BV : Z) (junk : Z -> R)
  (q k v a b : tensor) (scale : R) (initial_state : option tensor)
  (output_final_state : bool) (cu_seqlens : option (list Z))
  : host (context * (tensor * option tensor)) :=
  match shape k, rev (shape v) with
  | [B; T; H; K], V :: _ =>
      let N := num_sequences B cu_seqlens in
      let BK := next_power_of_2 K in
      let final_state :=
        if output_final_state then Some (new_empty junk [B; H; K; V]) else None in
      let ha := new_empty junk (shape v) in
      let o := new_empty junk (shape v) in
      out <~ launch
               (run_grid
                  (Fwd.fused_recurrent_fwd_kernel
                     (as_buffer q) (as_buffer k) (as_buffer v) (as_buffer a)
                     (as_buffer b) (option_map as_buffer initial_state)
                     cu_seqlens scale H T K V BK config_BV)
                  (grid (cdiv V config_BV) (N * H))
                  {| Fwd.o := as_buffer o; Fwd.ha := as_buffer ha;
                     Fwd.ht := option_map as_buffer final_state |}) ;;
      let ha := as_tensor (shape v) (Fwd.ha out) in
      ret ({| saved_q := q; saved_k := k; saved_v := v; saved_a := a;
              saved_b := b; saved_ha := ha;
              saved_initial_state := initial_state;
              ctx_scale := scale; ctx_cu_seqlens := cu_seqlens |},
           (as_tensor (shape v) (Fwd.o out),
            option_map (as_tensor [B; H; K; V]) (Fwd.ht out)))
  | _, _ => raise ValueError
  end.

(** [FusedRecurrentIPLRDeltaRuleFunction.backward]: the gradients of
    q, k, v, a, b and of the initial state (the three [None] that close the
    returned tuple are left out); [requires_grad] is the flag of the saved
    initial state; [triton.cdiv] divides by [BV] *)
Definition backward (junk : Z -> R) (ctx : context) (requires_grad : bool)
  (do : tensor) (dht : option tensor)
  : host (tensor * tensor * tensor * tensor * tensor * option tensor) :=
  let q := saved_q ctx in
  let k := saved_k ctx in
  let v := saved_v ctx in
  let a := saved_a ctx in
  let b := saved_b ctx in
  let ha := saved_ha ctx in
  let initial_state := saved_initial_state ctx in
  match shape q, rev (shape v) with
  | [B; T; H; K], V :: _ =>
      let N := num_sequences B (ctx_cu_seqlens ctx) in
      let BK := next_power_of_2 K in
      let BV := Z.min (next_power_of_2 V) 64 in
      NV <~ (if BV =? 0 then raise ZeroDivisionError else ret (cdiv V BV)) ;;
      let scale := ctx_scale ctx in
      let dq := new_empty junk (NV :: shape q) in
      let dk := new_empty junk (NV :: shape k) in
      let da := new_empty junk (NV :: shape a) in
      let db := new_empty junk (NV :: shape b) in
      let dv := new_empty junk (shape v) in
      let dha := new_empty junk (shape ha) in
      let dh0 :=
        match initial_state with
        | Some s0 => if requires_grad then Some (new_empty junk (shape s0)) else None
        | None => None
        end in
      out <~ launch
               (run_grid
                  (Bwd.fused_recurrent_bwd_kernel
                     (as_buffer q) (as_buffer k) (as_buffer v) (as_buffer a)
                     (as_buffer b) (as_buffer ha) (option_map as_buffer dht)
                     (as_buffer do) (option_map as_buffer initial_state)
                     scale (ctx_cu_seqlens ctx) B H T K V BK BV)
                  (grid NV (N * H))
                  {| Bwd.dq := as_buffer dq; Bwd.dk := as_buffer dk;
                     Bwd.dv := as_buffer dv; Bwd.da := as_buffer da;
                     Bwd.db := as_buffer db; Bwd.dha := as_buffer dha;
                     Bwd.dh0 := option_map as_buffer dh0 |}) ;;
      let dq := as_tensor (shape q) (sum0 NV (size (shape q)) (Bwd.dq out)) in
      let dk := as_tensor (shape k) (sum0 NV (size (shape k)) (Bwd.dk out)) in
      let da := as_tensor (shape a) (sum0 NV (size (shape a)) (Bwd.da out)) in
      let db := as_tensor (shape b) (sum0 NV (size (shape b)) (Bwd.db out)) in
      ret (dq, dk, as_tensor (shape v) (Bwd.dv out), da, db,
           match initial_state, Bwd.dh0 out with
           | Some s0, Some m => Some (as_tensor (shape s0) m)
           | _, _ => None
           end)
  | _, _ => raise ValueError
  end.

(** [q.shape[-1] ** -0.5] *)
Definition pow_neg_half (K : Z) : result R :=
  if K =? 0 then Raise ZeroDivisionError else Ok (Rpower (IZR K) (- / 2)).

Definition lift {A : Type} (r : result A) : host A := fun c => (c, r).

(** the checks on [cu_seqlens] that open [fused_recurrent_iplr_delta_rule] *)
Definition check_cu_seqlens (q : tensor) (initial_state : option tensor)
  (cu_seqlens : option (list Z)) : host unit :=
  match cu_seqlens with
  | Some cu =>
      match shape q with
      | B :: _ =>
          if negb (B =? 1) then raise ValueError
          else
            match initial_state with
            | Some s0 =>
                match shape s0 with
                | n_states :: _ =>
                    if negb (n_states =? Z.of_nat (length cu) - 1)
                    then raise ValueError
                    else ret tt
                | [] => raise IndexError
                end
            | None => ret tt
            end
      | [] => raise IndexError
      end
  | None => ret tt
  end.

(** [if scale is None: scale = q.shape[-1] ** -0.5]
    [else: assert scale > 0] *)
Definition effective_scale (q : tensor) (scale : option R) : host R :=
  match scale with
  | None =>
      match rev (shape q) with
      | K :: _ => lift (pow_neg_half K)
      | [] => raise IndexError
      end
  | Some s => if Rlt_dec 0 s then ret s else raise AssertionError
  end.

(** [fused_recurrent_iplr_delta_rule] *)
Definition fused_recurrent_iplr_delta_rule (config_BV : Z) (junk : Z -> R)
  (q k v a b : tensor) (scale : option R) (initial_state : option tensor)
  (output_final_state : bool) (cu_seqlens : option (list Z))
  : host (tensor * option tensor) :=
  _ <~ check_cu_seqlens q initial_state cu_seqlens ;;
  scale <~ effective_scale q scale ;;
  r <~ forward config_BV junk q k v a b scale initial_state output_final_state
         cu_seqlens ;;
  ret (snd r).

(** ** The Gated Slot Attention layer *)

Module GSA.

Inductive mode : Type := fused_recurrent | chunk | other_mode.

(** [F.logsigmoid] *)
Definition logsigmoid (x : R) : R := (- ln (1 + exp (- x)))%R.

(** an elementwise function applied to a tensor *)
Definition map_elems (g : R -> R) (x : tensor) : tensor :=
  mktensor (shape x) (fun p => g (elems x p)).

(** [f = F.logsigmoid(f) / self.gate_logit_normalizer]
    [s = (1 - f.exp()).to(f.dtype)] *)
Definition gates (gate_logit_normalizer : Z) (f : tensor) : tensor * tensor :=
  let f := map_elems (fun x => logsigmoid x / IZR gate_logit_normalizer)%R f in
  let s := map_elems (fun y => 1 - exp y)%R f in
  (f, s).

Record last_state (State ConvState : Type) : Type := mklast {
  recurrent_state : State;
  conv_state : option (option ConvState * option ConvState * option ConvState)
}.

Arguments mklast {State ConvState} _ _.
Arguments recurrent_state {State ConvState} _.
Arguments conv_state {State ConvState} _.

(** The collaborators of the layer that live outside this file: the cache,
    the projections and convolutions, the two engines, and the tensor
    plumbing. *)
Class Collaborators (Cache State ConvState Indices : Type) : Type := {
  cache_len : Cache -> Z;
  cache_get : Cache -> Z -> last_state State ConvState;
  cache_update :
    Cache -> State
    -> option (option ConvState * option ConvState * option ConvState)
    -> Z -> Z -> Cache;
  q_proj : tensor -> tensor;
  k_proj : tensor -> tensor;
  v_proj : tensor -> tensor;
  f_proj : tensor -> tensor;
  q_conv1d :
    tensor -> option ConvState -> bool -> option (list Z)
    -> tensor * option ConvState;
  k_conv1d :
    tensor -> option ConvState -> bool -> option (list Z)
    -> tensor * option ConvState;
  v_conv1d :
    tensor -> option ConvState -> bool -> option (list Z)
    -> tensor * option ConvState;
  silu : tensor -> tensor;
  split_heads : Z -> tensor -> tensor;
  merge_heads : tensor -> tensor;
  repeat_groups : Z -> tensor -> tensor;
  last_columns : Z -> tensor -> tensor;
  get_unpad_data : tensor -> Indices * list Z * Z;
  index_first_axis : tensor -> Indices -> tensor;
  flatten_batch : tensor -> tensor;
  unsqueeze0 : tensor -> tensor;
  squeeze0 : tensor -> tensor;
  pad_input : tensor -> Indices -> Z -> Z -> tensor;
  rms_norm_linear : tensor -> tensor;
  fused_recurrent_gsa :
    tensor -> tensor -> tensor -> tensor -> tensor -> option State -> bool -> R
    -> option (list Z) -> tensor * State;
  chunk_gsa :
    tensor -> tensor -> tensor -> tensor -> tensor -> option State -> bool -> R
    -> option (list Z) -> tensor * State
}.

(** the fields of [self] that [forward] reads *)
Record config : Type := mkconfig {
  cfg_mode : mode;
  use_short_conv : bool;
  num_kv_groups : Z;
  head_k_dim : Z;
  head_v_dim : Z;
  num_slots : Z;
  gate_logit_normalizer : Z;
  feature_map : option (tensor -> tensor);
  layer_idx : option Z;
  scale : R
}.

Section Layer.

Context {Cache State ConvState Indices : Type}.
Context {collaborators : Collaborators Cache State ConvState Indices}.

Variable self : config.

(** [GatedSlotAttention.forward]; [cu_seqlens] is [kwargs.get('cu_seqlens')] *)
Definition forward (hidden_states : tensor) (attention_mask : option tensor)
  (past_key_values : option Cache) (use_cache : bool) (output_attentions : bool)
  (cu_seqlens : option (list Z))
  : result (tensor * option tensor * option Cache) :=
  _ <- match attention_mask with
       | Some m =>
           if (Z.of_nat (length (shape m)) =? 2) then Ok tt else Raise AssertionError
       | None => Ok tt
       end ;;
  '(batch_size, q_len) <-
     match shape hidden_states with
     | [B; L; _] => Ok (B, L)
     | _ => Raise ValueError
     end ;;
  let mode := if q_len <=? 64 then fused_recurrent else cfg_mode self in
  last <-
    match past_key_values with
    | Some cache =>
        match layer_idx self with
        | Some idx =>
            if cache_len cache >? idx then Ok (Some (cache_get cache idx)) else Ok None
        | None => Raise TypeError
        end
    | None => Ok None
    end ;;
  let '(indices, cu_seqlens, hidden_states) :=
    match attention_mask with
    | Some m =>
        let '(indices, cu, _) := get_unpad_data (last_columns q_len m) in
        (Some indices, Some cu,
         unsqueeze0 (index_first_axis (flatten_batch hidden_states) indices))
    | None => (None, cu_seqlens, hidden_states)
    end in
  '(q, k, v, convs) <-
    (if use_short_conv self then
       '(conv_state_q, conv_state_k, conv_state_v) <-
         match last with
         | Some l =>
             match conv_state l with
             | Some states => Ok states
             | None => Raise TypeError
             end
         | None => Ok (None, None, None)
         end ;;
       let '(q, conv_state_q) :=
         q_conv1d (q_proj hidden_states) conv_state_q use_cache cu_seqlens in
       let '(k, conv_state_k) :=
         k_conv1d (k_proj hidden_states) conv_state_k use_cache cu_seqlens in
       let '(v, conv_state_v) :=
         v_conv1d (v_proj hidden_states) conv_state_v use_cache cu_seqlens in
       Ok (q, k, v, Some (conv_state_q, conv_state_k, conv_state_v))
     else
       Ok (q_proj hidden_states, k_proj hidden_states, v_proj hidden_states, None)) ;;
  let f := f_proj hidden_states in
  let q := split_heads (head_k_dim self) q in
  let k := split_heads (head_k_dim self) k in
  let v := split_heads (head_v_dim self) v in
  let f := split_heads (num_slots self) f in
  let '(q, k) :=
    match feature_map self with
    | Some phi => (phi q, phi k)
    | None => (q, k)
    end in
  let v := silu v in
  let '(f, s) := gates (gate_logit_normalizer self) f in
  let '(k, v, f, s) :=
    if num_kv_groups self >? 1
    then (repeat_groups (num_kv_groups self) k, repeat_groups (num_kv_groups self) v,
          repeat_groups (num_kv_groups self) f, repeat_groups (num_kv_groups self) s)
    else (k, v, f, s) in
  let recurrent_state := option_map recurrent_state last in
  '(o, recurrent_state) <-
     match mode with
     | fused_recurrent =>
         Ok (fused_recurrent_gsa q k v s f recurrent_state use_cache (scale self)
               cu_seqlens)
     | chunk =>
         Ok (chunk_gsa q k v s f recurrent_state use_cache (scale self) cu_seqlens)
     | other_mode => Raise NotImplementedError
     end ;;
  past_key_values <-
    match past_key_values with
    | Some cache =>
        match layer_idx self with
        | Some idx => Ok (Some (cache_update cache recurrent_state convs idx q_len))
        | None => Raise TypeError
        end
    | None => Ok None
    end ;;
  let o := merge_heads o in
  let o := rms_norm_linear (silu o) in
  let o :=
    match attention_mask, indices with
    | Some _, Some indices => pad_input (squeeze0 o) indices batch_size q_len
    | _, _ => o
    end in
  Ok (o, None, past_key_values).

End Layer.

End GSA.

(** ** The recurrences of the specification

    Written from the specification's equations, per sequence [n] and head [h],
    on whole rows of the tensors (no blocks, no masks).  [S] is indexed
    [(value j, key i)], the adjoint [dS] and the rebuilt state [(key i, value j)]. *)

(** first token and length of sequence [n] *)
Definition seq_start (cu_seqlens : option (list Z)) (T n : Z) : Z :=
  match cu_seqlens with
  | Some cu => nth (Z.to_nat n) cu 0
  | None => n * T
  end.

Definition seq_len (cu_seqlens : option (list Z)) (T n : Z) : Z :=
  match cu_seqlens with
  | Some cu => nth (Z.to_nat (n + 1)) cu 0 - nth (Z.to_nat n) cu 0
  | None => T
  end.

(** entry [i] of the row of width [W] at (sequence-relative token [t], head [h]) *)
Definition at_ (x : buffer) (bos H W h : Z) (t : nat) (i : Z) : R :=
  data x (((bos + Z.of_nat t) * H + h) * W + i).

(** entry [(i, j)] of the [K x V] state of sequence [n], head [h] *)
Definition state_at (x : option buffer) (H K V n h i j : Z) : R :=
  match x with
  | Some m => data m ((n * H + h) * K * V + i * V + j)
  | None => 0%R
  end.

Module Recurrence.

Section Forward.

Variables q k v a b : buffer.
Variable h0 : option buffer.
Variable scale : R.
Variables H K V : Z.
Variable bos : Z.
Variables n h : Z.

(** [S t]: the state after [t] timesteps, [S 0] the initial state or zero:
    [S_t = S_{t-1} + outer(tmp_t, b_t) + outer(v_t, k_t)] with
    [tmp_t = S_{t-1} . a_t] *)
Fixpoint S (t : nat) (j i : Z) : R :=
  match t with
  | O => state_at h0 H K V n h i j
  | Datatypes.S t' =>
      (S t' j i
       + sigma (Z.to_nat K) (fun i' => S t' j (Z.of_nat i') * at_ a bos H K h t' (Z.of_nat i'))
         * at_ b bos H K h t' i
       + at_ v bos H V h t' j * at_ k bos H K h t' i)%R
  end.

(** [tmp_t = S_{t-1} . a_t], the value cached as [ha_t] *)
Definition tmp (t : nat) (j : Z) : R :=
  sigma (Z.to_nat K) (fun i => S t j (Z.of_nat i) * at_ a bos H K h t (Z.of_nat i))%R.

(** [o_t = S_t . (q_t * scale)] *)
Definition out (t : nat) (j : Z) : R :=
  sigma (Z.to_nat K)
    (fun i => S (Datatypes.S t) j (Z.of_nat i) * (at_ q bos H K h t (Z.of_nat i) * scale))%R.

(** entry [(j, i)] of [S_{t-1} (I + a_t b_t^T) + v_t k_t^T] *)
Definition delta_rule (t : nat) (j i : Z) : R :=
  (sigma (Z.to_nat K)
     (fun i' => S t j (Z.of_nat i')
                * ((if Z.of_nat i' =? i then 1 else 0)
                   + at_ a bos H K h t (Z.of_nat i') * at_ b bos H K h t i))
   + at_ v bos H V h t j * at_ k bos H K h t i)%R.

End Forward.

Section Backward.

Variables q k v a b ha do : buffer.
Variables dht h0 : option buffer.
Variable scale : R.
Variables H K V : Z.
Variable bos : Z.
Variables n h : Z.
Variable L : nat.

(** [dS += outer(q_t * scale, do_t)] on an incoming adjoint [D] *)
Definition add_q (D : Z -> Z -> R) (t : nat) (i j : Z) : R :=
  (D i j + at_ q bos H K h t i * scale * at_ do bos H V h t j)%R.

(** [dha_t = dS^T . b_t], from the adjoint before the a-term is folded in *)
Definition dha_of (D : Z -> Z -> R) (t : nat) (j : Z) : R :=
  sigma (Z.to_nat K) (fun i => add_q D t (Z.of_nat i) j * at_ b bos H K h t (Z.of_nat i))%R.

(** [dS += outer(a_t, dha_t)] *)
Definition fold_a (D : Z -> Z -> R) (t : nat) (i j : Z) : R :=
  (add_q D t i j + at_ a bos H K h t i * dha_of D t j)%R.

(** the adjoint after the last [r] timesteps, [L-1] down to [L-r], have been
    processed; [adjoint 0] is [dht] or zero *)
Fixpoint adjoint (r : nat) : Z -> Z -> R :=
  match r with
  | O => state_at dht H K V n h
  | Datatypes.S r' => fold_a (adjoint r') (L - 1 - r')
  end.

(** the adjoint at timestep [t], after [outer(q_t * scale, do_t)] has been
    added and before [outer(a_t, dha_t)] is *)
Definition dS (t : nat) : Z -> Z -> R := add_q (adjoint (L - 1 - t)) t.

Definition dk_ (t : nat) (i : Z) : R :=
  sigma (Z.to_nat V) (fun j => dS t i (Z.of_nat j) * at_ v bos H V h t (Z.of_nat j))%R.

Definition dv_ (t : nat) (j : Z) : R :=
  sigma (Z.to_nat K) (fun i => dS t (Z.of_nat i) j * at_ k bos H K h t (Z.of_nat i))%R.

Definition dha_ (t : nat) (j : Z) : R :=
  sigma (Z.to_nat K) (fun i => dS t (Z.of_nat i) j * at_ b bos H K h t (Z.of_nat i))%R.

Definition db_ (t : nat) (i : Z) : R :=
  sigma (Z.to_nat V) (fun j => dS t i (Z.of_nat j) * at_ ha bos H V h t (Z.of_nat j))%R.

(** the forward state rebuilt by the second pass, [rebuilt 0] the initial
    state or zero: [S += outer(k_t, v_t) + outer(b_t, ha_t)] *)
Fixpoint rebuilt (t : nat) (i j : Z) : R :=
  match t with
  | O => state_at h0 H K V n h i j
  | Datatypes.S t' =>
      (rebuilt t' i j
       + (at_ k bos H K h t' i * at_ v bos H V h t' j
          + at_ b bos H K h t' i * at_ ha bos H V h t' j))%R
  end.

(** [da_t = S . dha_t], from the state before the update of step [t] *)
Definition da_ (t : nat) (i : Z) : R :=
  sigma (Z.to_nat V) (fun j => dha_ t (Z.of_nat j) * rebuilt t i (Z.of_nat j))%R.

(** [dq_t = (S . do_t) * scale], from the state after the update of step [t] *)
Definition dq_ (t : nat) (i : Z) : R :=
  (sigma (Z.to_nat V)
     (fun j => rebuilt (Datatypes.S t) i (Z.of_nat j) * at_ do bos H V h t (Z.of_nat j))
   * scale)%R.

End Backward.

End Recurrence.

(** ** Facts about blocks *)


Lemma tab_length {A : Type} (n : nat) (f : nat -> A) : length (tab n f) = n.
Proof. unfold tab. now rewrite length_map, length_seq. Qed.

Lemma tab_ext {A : Type} (n : nat) (f g : nat -> A) :
  (forall i, (i < n)%nat -> f i = g i) -> tab n f = tab n g.
Proof.
  intros E. unfold tab. apply map_ext_in. intros i Hi.
  apply in_seq in Hi. apply E. lia.
Qed.

Lemma map_tab {A B : Type} (g : A -> B) (n : nat) (f : nat -> A) :
  map g (tab n f) = tab n (fun i => g (f i)).
Proof. unfold tab. now rewrite map_map. Qed.

Lemma nth_tab {A : Type} (n : nat) (f : nat -> A) (i : nat) (d : A) :
  (i < n)%nat -> nth i (tab n f) d = f i.
Proof.
  intros Hi. unfold tab.
  rewrite nth_indep with (d' := f 0%nat) by (rewrite length_map, length_seq; lia).
  rewrite map_nth, seq_nth; auto.
Qed.

Lemma zip_with_map {A B C I : Type} (f : A -> B -> C) (g : I -> A) (h : I -> B)
  (l : list I) :
  zip_with f (map g l) (map h l) = map (fun i => f (g i) (h i)) l.
Proof. induction l as [|x l IH]; simpl; [reflexivity | now rewrite IH]. Qed.

Lemma zip_with_tab {A B C : Type} (f : A -> B -> C) (n : nat) (g : nat -> A)
  (h : nat -> B) :
  zip_with f (tab n g) (tab n h) = tab n (fun i => f (g i) (h i)).
Proof. apply zip_with_map. Qed.

Lemma outer2_tab {A B C : Type} (f : A -> B -> C) (n c : nat) (g : nat -> A)
  (h : nat -> B) :
  outer2 f (tab n g) (tab c h) = tab n (fun j => tab c (fun i => f (g j) (h i))).
Proof.
  unfold outer2. rewrite map_tab. apply tab_ext. intros j _. apply map_tab.
Qed.

Lemma with_row_tab {A B C : Type} (f : A -> B -> C) (n c : nat)
  (m : nat -> nat -> A) (r : nat -> B) :
  with_row f (tab n (fun j => tab c (m j))) (tab c r)
  = tab n (fun j => tab c (fun i => f (m j i) (r i))).
Proof.
  unfold with_row. rewrite map_tab. apply tab_ext. intros j _. apply zip_with_tab.
Qed.

Lemma with_col_tab {A B C : Type} (f : A -> B -> C) (n c : nat)
  (m : nat -> nat -> A) (r : nat -> B) :
  with_col f (tab n (fun j => tab c (m j))) (tab n r)
  = tab n (fun j => tab c (fun i => f (m j i) (r j))).
Proof.
  unfold with_col. rewrite zip_with_tab. apply tab_ext. intros j _. apply map_tab.
Qed.

Lemma add2_tab (n c : nat) (m m' : nat -> nat -> R) :
  add2 (tab n (fun j => tab c (m j))) (tab n (fun j => tab c (m' j)))
  = tab n (fun j => tab c (fun i => m j i + m' j i)%R).
Proof.
  unfold add2. rewrite zip_with_tab. apply tab_ext. intros j _. apply zip_with_tab.
Qed.

Lemma tl_sum_axis1_tab (n c : nat) (m : nat -> nat -> R) :
  tl_sum_axis1 (tab n (fun j => tab c (m j))) = tab n (fun j => sigma c (m j)).
Proof. unfold tl_sum_axis1. apply map_tab. Qed.

Lemma tl_zeros2_tab (r c : Z) :
  tl_zeros2 r c = tab (Z.to_nat r) (fun _ => tab (Z.to_nat c) (fun _ => 0%R)).
Proof. reflexivity. Qed.

(** *** Finite sums *)

Lemma sigma_ext (n : nat) (f g : nat -> R) :
  (forall i, (i < n)%nat -> f i = g i) -> sigma n f = sigma n g.
Proof. intros E. f_equal. now apply tab_ext. Qed.

Lemma tab_S {A : Type} (n : nat) (f : nat -> A) :
  tab (S n) f = tab n f ++ [f n].
Proof. unfold tab. rewrite seq_S, map_app. reflexivity. Qed.

Lemma tl_sum_app (x y : list R) : tl_sum (x ++ y) = (tl_sum x + tl_sum y)%R.
Proof.
  induction x as [|e x IH]; simpl.
  - lra.
  - rewrite IH. lra.
Qed.

Lemma sigma_S (n : nat) (f : nat -> R) :
  sigma (S n) f = (sigma n f + f n)%R.
Proof. rewrite tab_S, tl_sum_app. simpl. lra. Qed.

Lemma sigma_zero (n : nat) (f : nat -> R) :
  (forall i, (i < n)%nat -> f i = 0%R) -> sigma n f = 0%R.
Proof.
  induction n as [|n IH]; intros E.
  - reflexivity.
  - rewrite sigma_S, IH, E by auto. lra.
Qed.

Lemma sigma_plus (n : nat) (f g : nat -> R) :
  sigma n (fun i => f i + g i)%R = (sigma n f + sigma n g)%R.
Proof.
  induction n as [|n IH].
  - simpl. lra.
  - rewrite !sigma_S, IH. lra.
Qed.

Lemma sigma_scal (n : nat) (c : R) (f : nat -> R) :
  sigma n (fun i => c * f i)%R = (c * sigma n f)%R.
Proof.
  induction n as [|n IH].
  - simpl. lra.
  - rewrite !sigma_S, IH. lra.
Qed.

(** lanes beyond the logical extent contribute nothing *)
Lemma sigma_pad (n c : nat) (f : nat -> R) :
  (n <= c)%nat -> (forall i, (n <= i < c)%nat -> f i = 0%R) ->
  sigma c f = sigma n f.
Proof.
  intros Hle. induction c as [|c IH]; intros Z0.
  - now replace n with 0%nat by lia.
  - destruct (Nat.eq_dec n (S c)) as [->|Hne]; [reflexivity|].
    rewrite sigma_S, IH by (try lia; intros; apply Z0; lia).
    rewrite Z0 by lia. lra.
Qed.

Lemma sigma_swap (n c : nat) (f : nat -> nat -> R) :
  sigma n (fun j => sigma c (fun i => f j i))
  = sigma c (fun i => sigma n (fun j => f j i)).
Proof.
  induction n as [|n IH].
  - simpl. symmetry. now apply sigma_zero.
  - rewrite sigma_S, IH, <- sigma_plus. apply sigma_ext. intros i _.
    now rewrite sigma_S.
Qed.

Lemma tl_sum_axis0_map {I : Type} (c : nat) (m : I -> nat -> R) (l : list I) :
  fold_right (zip_with Rplus) (tab c (fun _ => 0%R)) (map (fun j => tab c (m j)) l)
  = tab c (fun i => tl_sum (map (fun j => m j i) l)).
Proof.
  induction l as [|x l IH]; simpl.
  - reflexivity.
  - rewrite IH. apply zip_with_tab.
Qed.

Lemma tl_sum_axis0_tab (n : nat) (c : Z) (m : nat -> nat -> R) :
  tl_sum_axis0 c (tab n (fun j => tab (Z.to_nat c) (m j)))
  = tab (Z.to_nat c) (fun i => sigma n (fun j => m j i)).
Proof. apply tl_sum_axis0_map. Qed.

(** *** Results *)

Lemma bind_Ok {A B : Type} (x : A) (f : A -> result B) : bind (Ok x) f = f x.
Proof. reflexivity. Qed.

(** *** Masked loads and stores *)

Lemma tl_load_map {I : Type} (m : buffer) (pf : I -> Z) (mf : I -> bool) (l : list I) :
  (forall i, In i l -> mf i = true -> in_bounds m (pf i) = true) ->
  tl_load m (map pf l) (map mf l)
  = Ok (map (fun i => if mf i then data m (pf i) else 0%R) l).
Proof.
  induction l as [|x l IH]; intros B; simpl.
  - reflexivity.
  - rewrite IH by (intros; apply B; simpl; auto).
    destruct (mf x) eqn:E; simpl.
    + unfold load1. rewrite B by (simpl; auto). reflexivity.
    + reflexivity.
Qed.

Lemma tl_load_tab (m : buffer) (n : nat) (pf : nat -> Z) (mf : nat -> bool) :
  (forall i, (i < n)%nat -> mf i = true -> in_bounds m (pf i) = true) ->
  tl_load m (tab n pf) (tab n mf)
  = Ok (tab n (fun i => if mf i then data m (pf i) else 0%R)).
Proof.
  intros B. apply tl_load_map. intros i Hi. apply in_seq in Hi. apply B. lia.
Qed.

Lemma tl_load2_map {I J : Type} (m : buffer) (pf : J -> I -> Z) (mf : J -> I -> bool)
  (lj : list J) (l : list I) :
  (forall j i, In j lj -> In i l -> mf j i = true -> in_bounds m (pf j i) = true) ->
  tl_load2 m (map (fun j => map (pf j) l) lj) (map (fun j => map (mf j) l) lj)
  = Ok (map (fun j => map (fun i => if mf j i then data m (pf j i) else 0%R) l) lj).
Proof.
  induction lj as [|x lj IH]; intros B; simpl.
  - reflexivity.
  - rewrite tl_load_map by (intros; apply B; simpl; auto).
    rewrite IH by (intros; apply B; simpl; auto). reflexivity.
Qed.

Lemma tl_load2_tab (m : buffer) (n c : nat) (pf : nat -> nat -> Z)
  (mf : nat -> nat -> bool) :
  (forall j i, (j < n)%nat -> (i < c)%nat -> mf j i = true ->
               in_bounds m (pf j i) = true) ->
  tl_load2 m (tab n (fun j => tab c (pf j))) (tab n (fun j => tab c (mf j)))
  = Ok (tab n (fun j => tab c (fun i => if mf j i then data m (pf j i) else 0%R))).
Proof.
  intros B. apply tl_load2_map. intros j i Hj Hi.
  apply in_seq in Hj, Hi. apply B; lia.
Qed.

(** what a store leaves behind: the masked-in lanes hold the stored values,
    every other offset is untouched *)
Definition stored {I : Type} (m m' : buffer) (dom : I -> Prop) (pf : I -> Z)
  (xf : I -> R) : Prop :=
  numel m' = numel m
  /\ (forall i, dom i -> data m' (pf i) = xf i)
  /\ (forall x, (forall i, dom i -> pf i <> x) -> data m' x = data m x).

Lemma tl_store_map {I : Type} (pf : I -> Z) (xf : I -> R) (mf : I -> bool)
  (l : list I) :
  NoDup l ->
  (forall i i', In i l -> In i' l -> mf i = true -> mf i' = true ->
                pf i = pf i' -> i = i') ->
  forall m,
  (forall i, In i l -> mf i = true -> in_bounds m (pf i) = true) ->
  exists m',
    tl_store m (map pf l) (map xf l) (map mf l) = Ok m'
    /\ stored m m' (fun i => In i l /\ mf i = true) pf xf.
Proof.
  induction l as [|x l IH]; intros ND Inj m B; simpl.
  - exists m. split; [reflexivity|]. repeat split; try tauto.
  - inversion ND as [|? ? Hx ND']; subst.
    assert (Inj' : forall i i', In i l -> In i' l -> mf i = true -> mf i' = true ->
                                pf i = pf i' -> i = i')
      by (intros; apply Inj; simpl; auto).
    destruct (mf x) eqn:E.
    + unfold store1. rewrite B by (simpl; auto). rewrite bind_Ok.
      set (m1 := mkbuffer _ _).
      destruct (IH ND' Inj' m1) as (m' & R & N & W & F).
      { intros i Hi Hm. unfold in_bounds, m1; simpl.
        apply (B i); simpl; auto. }
      exists m'. split; [exact R|]. split; [exact N|]. split.
      * intros i [[->|Hi] Hm].
        -- rewrite F.
           ++ unfold m1; simpl. now rewrite Z.eqb_refl.
           ++ intros i' [Hi' Hm'] Heq. apply Inj in Heq; simpl; auto.
              subst. contradiction.
        -- apply W. auto.
      * intros y Hy. rewrite F by (intros i [Hi Hm]; apply Hy; simpl; auto).
        unfold m1; simpl.
        destruct (Z.eqb_spec y (pf x)) as [->|]; [|reflexivity].
        exfalso. apply (Hy x); simpl; auto.
    + rewrite bind_Ok.
      destruct (IH ND' Inj' m) as (m' & R & N & W & F).
      { intros; apply B; simpl; auto. }
      exists m'. split; [exact R|]. split; [exact N|]. split.
      * intros i [[->|Hi] Hm]; [congruence|]. apply W. auto.
      * intros y Hy. apply F. intros i [Hi Hm]. apply Hy. simpl; auto.
Qed.

Lemma tl_store_tab (m : buffer) (n : nat) (pf : nat -> Z) (xf : nat -> R)
  (mf : nat -> bool) :
  (forall i i', (i < n)%nat -> (i' < n)%nat -> mf i = true -> mf i' = true ->
                pf i = pf i' -> i = i') ->
  (forall i, (i < n)%nat -> mf i = true -> in_bounds m (pf i) = true) ->
  exists m',
    tl_store m (tab n pf) (tab n xf) (tab n mf) = Ok m'
    /\ stored m m' (fun i => (i < n)%nat /\ mf i = true) pf xf.
Proof.
  intros Inj B.
  destruct (tl_store_map pf xf mf (seq 0 n) (seq_NoDup n 0)) with (m := m)
    as (m' & R & N & W & F).
  - intros i i' Hi Hi'. apply in_seq in Hi, Hi'. apply Inj; lia.
  - intros i Hi. apply in_seq in Hi. apply B; lia.
  - exists m'. split; [exact R|]. split; [exact N|]. split.
    + intros i [Hi Hm]. apply W. split; [apply in_seq; lia | exact Hm].
    + intros x Hx. apply F. intros i [Hi Hm]. apply in_seq in Hi.
      apply Hx. split; [lia | exact Hm].
Qed.

Lemma tl_store2_map {I J : Type} (pf : J -> I -> Z) (xf : J -> I -> R)
  (mf : J -> I -> bool) (l : list I) (lj : list J) :
  NoDup l -> NoDup lj ->
  (forall j i j' i', In j lj -> In i l -> In j' lj -> In i' l ->
                     mf j i = true -> mf j' i' = true ->
                     pf j i = pf j' i' -> j = j' /\ i = i') ->
  forall m,
  (forall j i, In j lj -> In i l -> mf j i = true -> in_bounds m (pf j i) = true) ->
  exists m',
    tl_store2 m (map (fun j => map (pf j) l) lj) (map (fun j => map (xf j) l) lj)
              (map (fun j => map (mf j) l) lj) = Ok m'
    /\ stored m m' (fun ji => In (fst ji) lj /\ In (snd ji) l
                              /\ mf (fst ji) (snd ji) = true)
              (fun ji => pf (fst ji) (snd ji)) (fun ji => xf (fst ji) (snd ji)).
Proof.
  intros NDl. induction lj as [|y lj IH]; intros ND Inj m B; simpl.
  - exists m. split; [reflexivity|]. repeat split; try tauto.
  - inversion ND as [|? ? Hy ND']; subst.
    destruct (tl_store_map (pf y) (xf y) (mf y) l NDl) with (m := m)
      as (m1 & R1 & N1 & W1 & F1).
    { intros i i' Hi Hi' Hm Hm' E. now destruct (Inj y i y i'); simpl; auto. }
    { intros; apply B; simpl; auto. }
    rewrite R1, bind_Ok.
    destruct IH with (m := m1) as (m' & R & N & W & F); auto.
    { intros; apply Inj; simpl; auto. }
    { intros j i Hj Hi Hm. unfold in_bounds. rewrite N1.
      apply (B j i); simpl; auto. }
    exists m'. split; [exact R|]. split; [congruence|]. split.
    + intros [j i]; simpl. intros [[->|Hj] [Hi Hm]].
      * rewrite F; [apply W1; auto|].
        intros [j' i']; simpl. intros (Hj' & Hi' & Hm') E.
        destruct (Inj j' i' j i); simpl; auto. subst. contradiction.
      * apply (W (j, i)); simpl; auto.
    + intros x Hx. rewrite F.
      * apply F1. intros i [Hi Hm]. apply (Hx (y, i)); simpl; auto.
      * intros [j i]; simpl. intros (Hj & Hi & Hm). apply (Hx (j, i)); simpl; auto.
Qed.

Lemma tl_store2_tab (m : buffer) (n c : nat) (pf : nat -> nat -> Z)
  (xf : nat -> nat -> R) (mf : nat -> nat -> bool) :
  (forall j i j' i', (j < n)%nat -> (i < c)%nat -> (j' < n)%nat -> (i' < c)%nat ->
                     mf j i = true -> mf j' i' = true ->
                     pf j i = pf j' i' -> j = j' /\ i = i') ->
  (forall j i, (j < n)%nat -> (i < c)%nat -> mf j i = true ->
               in_bounds m (pf j i) = true) ->
  exists m',
    tl_store2 m (tab n (fun j => tab c (pf j))) (tab n (fun j => tab c (xf j)))
              (tab n (fun j => tab c (mf j))) = Ok m'
    /\ stored m m' (fun ji => (fst ji < n)%nat /\ (snd ji < c)%nat
                              /\ mf (fst ji) (snd ji) = true)
              (fun ji => pf (fst ji) (snd ji)) (fun ji => xf (fst ji) (snd ji)).
Proof.
  intros Inj B.
  destruct (tl_store2_map pf xf mf (seq 0 c) (seq 0 n) (seq_NoDup c 0) (seq_NoDup n 0))
    with (m := m) as (m' & R & N & W & F).
  - intros j i j' i' Hj Hi Hj' Hi'. apply in_seq in Hj, Hi, Hj', Hi'. apply Inj; lia.
  - intros j i Hj Hi. apply in_seq in Hj, Hi. apply B; lia.
  - exists m'. split; [exact R|]. split; [exact N|]. split.
    + intros ji (Hj & Hi & Hm). apply W. rewrite !in_seq. repeat split; auto; lia.
    + intros x Hx. apply F. intros ji (Hj & Hi & Hm). apply in_seq in Hj, Hi.
      apply Hx. repeat split; auto; lia.
Qed.

(** *** Flat offsets *)

Lemma flat_bound (r R W i : Z) :
  0 <= r < R -> 0 <= i < W -> 0 <= r * W + i < R * W.
Proof. intros. nia. Qed.

Lemma flat_inj (r r' W i i' : Z) :
  0 <= i < W -> 0 <= i' < W -> r * W + i = r' * W + i' -> r = r' /\ i = i'.
Proof.
  intros Hi Hi' E.
  assert (r = r') as ->.
  { destruct (Z.lt_trichotomy r r') as [L|[L|L]]; [|exact L|].
    - assert ((r + 1) * W <= r' * W) by (apply Z.mul_le_mono_nonneg_r; lia). lia.
    - assert ((r' + 1) * W <= r * W) by (apply Z.mul_le_mono_nonneg_r; lia). lia. }
  split; [reflexivity | lia].
Qed.

Lemma in_bounds_flat (m : buffer) (r R W i : Z) :
  numel m = R * W -> 0 <= r < R -> 0 <= i < W -> in_bounds m (r * W + i) = true.
Proof.
  intros N Hr Hi. unfold in_bounds. rewrite N.
  pose proof (flat_bound r R W i Hr Hi). apply andb_true_iff. split.
  - apply Z.leb_le. lia.
  - apply Z.ltb_lt. lia.
Qed.

(** *** Buffers filled one timestep at a time *)

Definition upto (s : nat) (lane : nat -> Prop) (tj : nat * nat) : Prop :=
  (fst tj < s)%nat /\ lane (snd tj).

Definition stored_upto (m0 m : buffer) (s : nat) (lane : nat -> Prop)
  (pf : nat -> nat -> Z) (xf : nat -> nat -> R) : Prop :=
  stored m0 m (upto s lane) (fun tj => pf (fst tj) (snd tj))
         (fun tj => xf (fst tj) (snd tj)).

Lemma stored_refl {I : Type} (m : buffer) (pf : I -> Z) (xf : I -> R) :
  stored m m (fun _ => False) pf xf.
Proof. repeat split; tauto. Qed.

Lemma stored_ext {I : Type} (m m' : buffer) (dom dom' : I -> Prop) (pf : I -> Z)
  (xf xf' : I -> R) :
  (forall i, dom i <-> dom' i) ->
  (forall i, dom i -> xf i = xf' i) ->
  stored m m' dom pf xf -> stored m m' dom' pf xf'.
Proof.
  intros D E (N & W & F). split; [exact N|]. split.
  - intros i Hi. apply D in Hi. rewrite <- E by exact Hi. now apply W.
  - intros x Hx. apply F. intros i Hi. apply Hx. now apply D.
Qed.

Lemma stored_upto_0 (m : buffer) (lane : nat -> Prop) (pf : nat -> nat -> Z)
  (xf : nat -> nat -> R) :
  stored_upto m m 0%nat lane pf xf.
Proof.
  unfold stored_upto. split; [reflexivity|]. split.
  - intros tj [Hlt _]. lia.
  - reflexivity.
Qed.

Lemma stored_next (m0 m m' : buffer) (s : nat) (lane : nat -> Prop)
  (pf : nat -> nat -> Z) (xf : nat -> nat -> R) :
  stored_upto m0 m s lane pf xf ->
  stored m m' lane (pf s) (xf s) ->
  (forall t j j', (t < s)%nat -> lane j -> lane j' -> pf t j <> pf s j') ->
  stored_upto m0 m' (S s) lane pf xf.
Proof.
  unfold stored_upto.
  intros (N & W & F) (N' & W' & F') Dis. split; [congruence|]. split.
  - intros [t j] [Ht Hj]; simpl in *.
    destruct (Nat.eq_dec t s) as [->|Hne].
    + now apply W'.
    + rewrite F' by (intros j' Hj'; apply not_eq_sym, Dis; auto; lia).
      apply (W (t, j)). split; simpl; auto; lia.
  - intros x Hx. rewrite F'.
    + apply F. intros [t j] [Ht Hj]; simpl in *.
      apply (Hx (t, j)). split; simpl; auto.
    + intros j Hj. apply (Hx (s, j)). split; simpl; auto.
Qed.

(** a buffer filled from the last timestep down to the first *)
Lemma stored_upto_rev (m0 m : buffer) (len : nat) (lane : nat -> Prop)
  (pf : nat -> nat -> Z) (xf : nat -> nat -> R) :
  stored_upto m0 m len lane (fun r i => pf (len - 1 - r)%nat i)
              (fun r i => xf (len - 1 - r)%nat i) ->
  stored_upto m0 m len lane pf xf.
Proof.
  unfold stored_upto. intros (N & W & F). split; [exact N|]. split.
  - intros [t i] [Ht Hi]; simpl in *.
    pose proof (W ((len - 1 - t)%nat, i)) as Wt. simpl in Wt.
    replace (len - 1 - (len - 1 - t))%nat with t in Wt by lia.
    apply Wt. split; simpl; auto; lia.
  - intros x Hx. apply F. intros [r i] [Hr Hi]; simpl in *.
    apply (Hx ((len - 1 - r)%nat, i)). split; simpl; auto; lia.
Qed.

Lemma stored_upto_ext (m0 m : buffer) (s : nat) (lane : nat -> Prop)
  (pf : nat -> nat -> Z) (xf xf' : nat -> nat -> R) :
  (forall t i, (t < s)%nat -> lane i -> xf t i = xf' t i) ->
  stored_upto m0 m s lane pf xf -> stored_upto m0 m s lane pf xf'.
Proof.
  intros E. unfold stored_upto. apply stored_ext.
  - intros tj; reflexivity.
  - intros [t i] [Ht Hi]. simpl in *. now apply E.
Qed.

Lemma advance_tab (n : nat) (f : nat -> Z) (c : Z) :
  advance (tab n f) c = tab n (fun i => f i + c).
Proof. apply map_tab. Qed.

Lemma ptr_arange (off n : Z) :
  ptr off (tl_arange n) = tab (Z.to_nat n) (fun i => off + Z.of_nat i).
Proof. apply map_tab. Qed.

Lemma in_bounds_flat3 (m : buffer) (r R W c j : Z) :
  numel m = R * W -> 0 <= r < R -> 0 <= c + j < W ->
  in_bounds m (r * W + c + j) = true.
Proof.
  intros N Hr Hj. rewrite <- Z.add_assoc. now apply in_bounds_flat with (R := R).
Qed.

Lemma ltb_lane (x W : Z) : (x <? W) = true -> x < W.
Proof. apply Z.ltb_lt. Qed.

(** ** One program of the forward kernel *)

Section FwdProgram.

Variables q k v a b : buffer.
Variable h0 : option buffer.
Variable scale : R.
Variables H K V BK BV : Z.
Variable rows : Z.
Variables i_v n h bos : Z.
Variable len : nat.

Hypothesis Hh : 0 <= h < H.
Hypothesis HK : 0 <= K <= BK.
Hypothesis Hiv : 0 <= i_v * BV.
Hypothesis Hseg : 0 <= bos /\ bos + Z.of_nat len <= rows.
Hypothesis Nq : numel q = rows * H * K.
Hypothesis Nk : numel k = rows * H * K.
Hypothesis Na : numel a = rows * H * K.
Hypothesis Nb : numel b = rows * H * K.
Hypothesis Nv : numel v = rows * H * V.

Local Abbreviation BKn := (Z.to_nat BK).
Local Abbreviation BVn := (Z.to_nat BV).
Local Abbreviation row t := ((bos + Z.of_nat t) * H + h).
Local Abbreviation jg j := (i_v * BV + Z.of_nat j).
Local Abbreviation mk := (fun i : nat => Z.of_nat i <? K).
Local Abbreviation mv := (fun j : nat => i_v * BV + Z.of_nat j <? V).
Local Abbreviation lane_v := (fun j : nat => (j < BVn)%nat /\ mv j = true).
Local Abbreviation S := (Recurrence.S k v a b h0 H K V bos n h).
Local Abbreviation tmp := (Recurrence.tmp k v a b h0 H K V bos n h).
Local Abbreviation out := (Recurrence.out q k v a b h0 scale H K V bos n h).
Local Abbreviation kptr s := (tab BKn (fun i => row s * K + Z.of_nat i)).
Local Abbreviation vptr s := (tab BVn (fun j => row s * V + i_v * BV + Z.of_nat j)).
Local Abbreviation addr_v := (fun t j : nat => row t * V + i_v * BV + Z.of_nat j).
Local Abbreviation block s :=
  (tab BVn (fun j => tab BKn (fun i =>
     if mk i && mv j then S s (jg j) (Z.of_nat i) else 0%R))).

Definition fwd_inv (o0 ha0 : buffer) (s : nat) (st : Fwd.loop_state) : Prop :=
  Fwd.p_q st = kptr s /\ Fwd.p_k st = kptr s /\ Fwd.p_a st = kptr s
  /\ Fwd.p_b st = kptr s /\ Fwd.p_ha st = vptr s /\ Fwd.p_v st = vptr s
  /\ Fwd.p_o st = vptr s
  /\ Fwd.b_h st = block s
  /\ stored_upto o0 (Fwd.mem_o st) s lane_v
       (fun t j => row t * V + i_v * BV + Z.of_nat j) (fun t j => out t (jg j))
  /\ stored_upto ha0 (Fwd.mem_ha st) s lane_v
       (fun t j => row t * V + i_v * BV + Z.of_nat j) (fun t j => tmp t (jg j)).

Lemma row_bound (t : nat) : (t < len)%nat -> 0 <= row t < rows * H.
Proof. intros Ht. nia. Qed.

Lemma row_inj (t t' : nat) : row t = row t' -> t = t'.
Proof. intros E. nia. Qed.

Lemma lane_k_pad (g : nat -> R) :
  (forall i, mk i = false -> g i = 0%R) ->
  sigma BKn g = sigma (Z.to_nat K) g.
Proof.
  intros G. apply sigma_pad; [lia|]. intros i Hi. apply G.
  apply Z.ltb_ge. lia.
Qed.

(** the row sums of the block are the sums over the [K] keys *)
Lemma tmp_lane (s j : nat) :
  sigma BKn (fun i =>
    (if mk i && mv j then S s (jg j) (Z.of_nat i) else 0)
    * (if mk i then data a (row s * K + Z.of_nat i) else 0))%R
  = if mv j then tmp s (jg j) else 0%R.
Proof.
  rewrite lane_k_pad by (intros i ->; simpl; lra).
  destruct (mv j) eqn:Ej.
  - unfold Recurrence.tmp. apply sigma_ext. intros i Hi.
    replace (mk i) with true by (symmetry; apply Z.ltb_lt; lia).
    reflexivity.
  - apply sigma_zero. intros i _. rewrite andb_false_r. lra.
Qed.

Lemma block_next (s j i : nat) :
  ((if mk i && mv j then S s (jg j) (Z.of_nat i) else 0)
   + ((if mv j then tmp s (jg j) else 0)
      * (if mk i then data b (row s * K + Z.of_nat i) else 0)
      + (if mk i then data k (row s * K + Z.of_nat i) else 0)
        * (if mv j then data v (row s * V + i_v * BV + Z.of_nat j) else 0)))%R
  = if mk i && mv j then S (Datatypes.S s) (jg j) (Z.of_nat i) else 0%R.
Proof.
  destruct (mk i), (mv j); simpl; try lra.
  unfold Recurrence.tmp, at_. rewrite <- !Z.add_assoc. lra.
Qed.

Lemma out_lane (s j : nat) :
  sigma BKn (fun i =>
    (if mk i && mv j then S (Datatypes.S s) (jg j) (Z.of_nat i) else 0)
    * ((if mk i then data q (row s * K + Z.of_nat i) else 0) * scale))%R
  = if mv j then out s (jg j) else 0%R.
Proof.
  rewrite lane_k_pad by (intros i ->; simpl; lra).
  destruct (mv j) eqn:Ej.
  - unfold Recurrence.out. apply sigma_ext. intros i Hi.
    replace (mk i) with true by (symmetry; apply Z.ltb_lt; lia).
    reflexivity.
  - apply sigma_zero. intros i _. rewrite andb_false_r. lra.
Qed.

Lemma lane_k_in_bounds (m : buffer) (s i : nat) :
  numel m = rows * H * K -> (s < len)%nat -> mk i = true ->
  in_bounds m (row s * K + Z.of_nat i) = true.
Proof.
  intros N Hs Hi. apply ltb_lane in Hi.
  apply in_bounds_flat with (R := rows * H); auto using row_bound. lia.
Qed.

Lemma lane_v_in_bounds (m : buffer) (s j : nat) :
  numel m = rows * H * V -> (s < len)%nat -> mv j = true ->
  in_bounds m (row s * V + i_v * BV + Z.of_nat j) = true.
Proof.
  intros N Hs Hj. apply ltb_lane in Hj.
  apply in_bounds_flat3 with (R := rows * H); auto using row_bound. lia.
Qed.

Lemma lane_v_disjoint (t s j j' : nat) :
  (t < s)%nat -> mv j = true -> mv j' = true ->
  row t * V + i_v * BV + Z.of_nat j <> row s * V + i_v * BV + Z.of_nat j'.
Proof.
  intros Ht Hj Hj' E. apply ltb_lane in Hj, Hj'.
  rewrite <- !Z.add_assoc in E. apply flat_inj in E; try lia.
  destruct E as [E _]. apply row_inj in E. lia.
Qed.

Lemma fwd_step_ok (o0 ha0 : buffer) (s : nat) (st : Fwd.loop_state) :
  numel o0 = rows * H * V -> numel ha0 = rows * H * V ->
  (s < len)%nat -> fwd_inv o0 ha0 s st ->
  exists st',
    Fwd.step q k v a b scale H K V (tab BKn mk) (tab BVn mv) st = Ok st'
    /\ fwd_inv o0 ha0 (Datatypes.S s) st'.
Proof.
  intros No Nha Hs (Pq & Pk & Pa & Pb & Pha & Pv & Po & Bh & So & Sha).
  unfold Fwd.step. rewrite Pq, Pk, Pa, Pb, Pha, Pv, Po, Bh.
  rewrite (tl_load_tab k) by (intros; now apply lane_k_in_bounds).
  rewrite (tl_load_tab v) by (intros; now apply lane_v_in_bounds).
  rewrite (tl_load_tab q) by (intros; now apply lane_k_in_bounds).
  rewrite (tl_load_tab a) by (intros; now apply lane_k_in_bounds).
  rewrite (tl_load_tab b) by (intros; now apply lane_k_in_bounds).
  rewrite !bind_Ok. cbv zeta.
  rewrite map_tab, with_row_tab, tl_sum_axis1_tab, !outer2_tab, !add2_tab,
    with_row_tab, tl_sum_axis1_tab.
  match goal with
  | |- context [tl_store ?m (tab ?c ?pf) (tab ?c ?xf) (tab ?c ?mf)] =>
      destruct (tl_store_tab m c pf xf mf) as (mo & Ro & Wo)
  end.
  { intros j j' _ _ _ _ E. lia. }
  { intros j _ Hj. destruct So as (N & _). unfold in_bounds. rewrite N.
    apply (lane_v_in_bounds o0); auto. }
  rewrite Ro, bind_Ok.
  match goal with
  | |- context [tl_store ?m (tab ?c ?pf) (tab ?c ?xf) (tab ?c ?mf)] =>
      destruct (tl_store_tab m c pf xf mf) as (mh & Rh & Wh)
  end.
  { intros j j' _ _ _ _ E. lia. }
  { intros j _ Hj. destruct Sha as (N & _). unfold in_bounds. rewrite N.
    apply (lane_v_in_bounds ha0); auto. }
  rewrite Rh, bind_Ok.
  eexists. split; [reflexivity|].
  unfold fwd_inv; cbn [Fwd.p_q Fwd.p_k Fwd.p_a Fwd.p_b Fwd.p_ha Fwd.p_v Fwd.p_o
                       Fwd.b_h Fwd.mem_o Fwd.mem_ha].
  rewrite !advance_tab.
  assert (Ek : tab BKn (fun i => row s * K + Z.of_nat i + K * H) = kptr (Datatypes.S s)).
  { apply tab_ext. intros i _. lia. }
  assert (Ev : tab BVn (fun j => row s * V + i_v * BV + Z.of_nat j + V * H)
               = vptr (Datatypes.S s)).
  { apply tab_ext. intros j _. lia. }
  rewrite Ek, Ev. repeat (split; [reflexivity|]). split; [|split].
  - apply tab_ext. intros j _. apply tab_ext. intros i _.
    rewrite tmp_lane. apply block_next.
  - apply stored_next with (m := Fwd.mem_o st); auto.
    + eapply stored_ext; [| |exact Wo].
      * intros j; reflexivity.
      * intros j [_ Hj]. simpl.
        erewrite sigma_ext;
          [|intros i _; rewrite tmp_lane, block_next; reflexivity].
        rewrite out_lane. now rewrite Hj.
    + intros t j j' Ht [_ Hj] [_ Hj']. now apply lane_v_disjoint.
  - apply stored_next with (m := Fwd.mem_ha st); auto.
    + eapply stored_ext; [| |exact Wh].
      * intros j; reflexivity.
      * intros j [_ Hj]. simpl. rewrite tmp_lane. now rewrite Hj.
    + intros t j j' Ht [_ Hj] [_ Hj']. now apply lane_v_disjoint.
Qed.


Lemma fwd_loop_ok (o0 ha0 : buffer) :
  numel o0 = rows * H * V -> numel ha0 = rows * H * V ->
  forall (r s : nat) (st : Fwd.loop_state),
  (s + r <= len)%nat -> fwd_inv o0 ha0 s st ->
  exists st',
    for_range r (Fwd.step q k v a b scale H K V (tab BKn mk) (tab BVn mv)) st = Ok st'
    /\ fwd_inv o0 ha0 (s + r) st'.
Proof.
  intros No Nha. induction r as [|r IH]; intros s st Hle I.
  - exists st. rewrite Nat.add_0_r. split; [reflexivity | exact I].
  - destruct (fwd_step_ok o0 ha0 s st) as (st1 & E1 & I1); auto; try lia.
    destruct (IH (Datatypes.S s) st1) as (st' & E' & I'); auto; try lia.
    exists st'. cbn [for_range]. rewrite E1, bind_Ok.
    split; [exact E'|]. now rewrite Nat.add_succ_r.
Qed.

Local Abbreviation i_nh := (n * H + h).
Local Abbreviation addr_h :=
  (fun ji : nat * nat => i_nh * K * V + Z.of_nat (snd ji) * V + jg (fst ji)).
Local Abbreviation lane_h :=
  (fun ji : nat * nat => (fst ji < BVn)%nat /\ (snd ji < BKn)%nat
                         /\ mk (snd ji) && mv (fst ji) = true).

Lemma program_id : i_nh / H = n /\ i_nh mod H = h.
Proof.
  split.
  - rewrite Z.div_add_l by lia. rewrite Z.div_small by lia. lia.
  - rewrite Z.add_comm, Z.mod_add by lia. apply Z.mod_small. lia.
Qed.

Lemma state_in_bounds (m : buffer) (NH : Z) (j i : nat) :
  numel m = NH * K * V -> 0 <= i_nh < NH -> mk i && mv j = true ->
  in_bounds m (i_nh * K * V + Z.of_nat i * V + jg j) = true.
Proof.
  intros N Hnh Hm. apply andb_true_iff in Hm. destruct Hm as [Hi Hj].
  apply ltb_lane in Hi, Hj.
  replace (i_nh * K * V + Z.of_nat i * V) with ((i_nh * K + Z.of_nat i) * V) by ring.
  apply in_bounds_flat with (R := NH * K); auto; try lia.
  apply flat_bound; lia.
Qed.

Lemma state_inj (j i j' i' : nat) :
  mk i && mv j = true -> mk i' && mv j' = true ->
  i_nh * K * V + Z.of_nat i * V + jg j = i_nh * K * V + Z.of_nat i' * V + jg j' ->
  j = j' /\ i = i'.
Proof.
  intros Hm Hm' E. apply andb_true_iff in Hm, Hm'.
  destruct Hm as [_ Hj], Hm' as [_ Hj']. apply ltb_lane in Hj, Hj'.
  rewrite <- !Z.add_assoc in E. apply Z.add_reg_l in E.
  apply flat_inj in E; lia.
Qed.

Lemma initial_block (m : option buffer) (NH : Z) :
  (forall x, m = Some x -> numel x = NH * K * V) -> 0 <= i_nh < NH ->
  h0 = m ->
  let mask_k := map (fun i => i <? K) (tl_arange BK) in
  let mask_v := map (fun j => i_v * BV + j <? V) (tl_arange BV) in
  let mask_h := outer2 (fun m_v m_k => m_k && m_v) mask_v mask_k in
  let p_state :=
    outer2 (fun j i => i_nh * K * V + i * V + j)
           (map (fun j => i_v * BV + j) (tl_arange BV)) (tl_arange BK) in
  match m with
  | Some x => y <- tl_load2 x p_state mask_h ;; Ok (add2 (tl_zeros2 BV BK) y)
  | None => Ok (tl_zeros2 BV BK)
  end = Ok (block 0%nat).
Proof.
  intros N Hnh E. cbv zeta. unfold tl_arange.
  rewrite !map_tab, !outer2_tab, tl_zeros2_tab.
  destruct m as [x|].
  - rewrite tl_load2_tab by (intros; apply state_in_bounds with (NH := NH); auto).
    rewrite bind_Ok, add2_tab. f_equal.
    apply tab_ext. intros j _. apply tab_ext. intros i _.
    cbn [Recurrence.S]. rewrite E. unfold state_at.
    destruct (mk i && mv j); lra.
  - f_equal. apply tab_ext. intros j _. apply tab_ext. intros i _.
    cbn [Recurrence.S]. rewrite E. unfold state_at.
    now destruct (mk i && mv j).
Qed.

Lemma fwd_program_ok (cu_seqlens : option (list Z)) (T T' NH : Z)
  (out0 : Fwd.outputs) :
  program_range cu_seqlens T n = Ok (bos, T') -> Z.to_nat T' = len ->
  0 <= i_nh < NH ->
  (forall m, h0 = Some m -> numel m = NH * K * V) ->
  (forall m, Fwd.ht out0 = Some m -> numel m = NH * K * V) ->
  numel (Fwd.o out0) = rows * H * V -> numel (Fwd.ha out0) = rows * H * V ->
  exists out',
    Fwd.fused_recurrent_fwd_kernel q k v a b h0 cu_seqlens scale H T K V BK BV
      i_v i_nh out0 = Ok out'
    /\ stored_upto (Fwd.o out0) (Fwd.o out') len lane_v addr_v
         (fun t j => out t (jg j))
    /\ stored_upto (Fwd.ha out0) (Fwd.ha out') len lane_v addr_v
         (fun t j => tmp t (jg j))
    /\ match Fwd.ht out0 with
       | Some m =>
           exists m', Fwd.ht out' = Some m'
             /\ stored m m' lane_h addr_h
                  (fun ji => S len (jg (fst ji)) (Z.of_nat (snd ji)))
       | None => Fwd.ht out' = None
       end.
Proof.
  intros PR HT Hnh Nh0 Nht No Nha.
  unfold Fwd.fused_recurrent_fwd_kernel.
  destruct program_id as [-> ->]. rewrite PR, bind_Ok.
  rewrite (initial_block h0 NH) by auto. rewrite bind_Ok.
  rewrite !ptr_arange, HT.
  destruct (fwd_loop_ok (Fwd.o out0) (Fwd.ha out0) No Nha len 0%nat
              {| Fwd.p_q := tab BKn (fun i => (bos * H + h) * K + Z.of_nat i);
                 Fwd.p_k := tab BKn (fun i => (bos * H + h) * K + Z.of_nat i);
                 Fwd.p_a := tab BKn (fun i => (bos * H + h) * K + Z.of_nat i);
                 Fwd.p_b := tab BKn (fun i => (bos * H + h) * K + Z.of_nat i);
                 Fwd.p_ha := tab BVn (fun j => (bos * H + h) * V + i_v * BV + Z.of_nat j);
                 Fwd.p_v := tab BVn (fun j => (bos * H + h) * V + i_v * BV + Z.of_nat j);
                 Fwd.p_o := tab BVn (fun j => (bos * H + h) * V + i_v * BV + Z.of_nat j);
                 Fwd.b_h := block 0%nat;
                 Fwd.mem_o := Fwd.o out0; Fwd.mem_ha := Fwd.ha out0 |})
    as (st & E & I).
  { lia. }
  { unfold fwd_inv; cbn [Fwd.p_q Fwd.p_k Fwd.p_a Fwd.p_b Fwd.p_ha Fwd.p_v Fwd.p_o
                          Fwd.b_h Fwd.mem_o Fwd.mem_ha].
    assert (Ek : tab BKn (fun i => (bos * H + h) * K + Z.of_nat i) = kptr 0%nat).
    { apply tab_ext. intros i _. simpl. lia. }
    assert (Ev : tab BVn (fun j => (bos * H + h) * V + i_v * BV + Z.of_nat j)
                 = vptr 0%nat).
    { apply tab_ext. intros j _. simpl. lia. }
    rewrite Ek, Ev. repeat (split; [reflexivity|]).
    split; apply stored_upto_0. }
  unfold tl_arange. rewrite !map_tab. rewrite E, bind_Ok.
  destruct I as (_ & _ & _ & _ & _ & _ & _ & Bh & So & Sha).
  cbn [Nat.add] in *. rewrite Bh.
  destruct (Fwd.ht out0) as [m|] eqn:Eht.
  - rewrite !outer2_tab.
    match goal with
    | |- context [tl_store2 ?m (tab ?r (fun j1 => tab ?c (@?pf j1)))
                            (tab ?r (fun j2 => tab ?c (@?xf j2)))
                            (tab ?r (fun j3 => tab ?c (@?mf j3)))] =>
        destruct (tl_store2_tab m r c pf xf mf) as (m' & Rm & Wm)
    end.
    { intros j i j' i' _ _ _ _. apply state_inj. }
    { intros j i _ _. apply state_in_bounds with (NH := NH). auto. lia. }
    rewrite Rm, !bind_Ok. eexists. split; [reflexivity|].
    cbn [Fwd.o Fwd.ha Fwd.ht]. split; [exact So|]. split; [exact Sha|].
    exists m'. split; [reflexivity|].
    eapply stored_ext; [| |exact Wm].
    + intros ji; reflexivity.
    + intros [j i] (_ & _ & Hm); simpl in *. now rewrite Hm.
  - rewrite !bind_Ok. eexists. split; [reflexivity|].
    cbn [Fwd.o Fwd.ha Fwd.ht]. auto.
Qed.

End FwdProgram.

(** ** Sequences of a launch *)

(** [cu_seqlens] (or the fixed length [T]) cuts the [rows] tokens into [N]
    consecutive sequences *)
Definition segments_ok (cu_seqlens : option (list Z)) (T N rows : Z) : Prop :=
  0 <= N
  /\ match cu_seqlens with
     | None => 0 <= T /\ N * T <= rows
     | Some cu =>
         Z.of_nat (length cu) = N + 1
         /\ 0 <= nth 0 cu 0
         /\ nth (Z.to_nat N) cu 0 <= rows
         /\ forall i, (S i < length cu)%nat -> nth i cu 0 <= nth (S i) cu 0
     end.

Lemma nondecreasing_nth (cu : list Z) :
  (forall i, (S i < length cu)%nat -> nth i cu 0 <= nth (S i) cu 0) ->
  forall i j, (i <= j < length cu)%nat -> nth i cu 0 <= nth j cu 0.
Proof.
  intros M i j [Hij Hj]. induction j as [|j IH].
  - replace i with 0%nat by lia. lia.
  - destruct (Nat.eq_dec i (S j)) as [->|Hne]; [lia|].
    etransitivity; [apply IH; lia | apply M; lia].
Qed.

Section Segments.

Variable cu_seqlens : option (list Z).
Variables T N rows : Z.
Hypothesis Hseg : segments_ok cu_seqlens T N rows.

Local Abbreviation bos := (seq_start cu_seqlens T).
Local Abbreviation len := (seq_len cu_seqlens T).

Lemma segment_range (n : Z) :
  0 <= n < N ->
  program_range cu_seqlens T n = Ok (bos n, len n)
  /\ 0 <= bos n /\ 0 <= len n /\ bos n + len n <= rows.
Proof.
  intros Hn. destruct Hseg as [HN Hc]. unfold program_range, seq_start, seq_len.
  destruct cu_seqlens as [cu|].
  - destruct Hc as (L & H0 & Hl & M).
    pose proof (nondecreasing_nth cu M) as Mon.
    unfold load_int.
    replace ((0 <=? n) && (n <? Z.of_nat (length cu))) with true
      by (symmetry; apply andb_true_iff; split; [apply Z.leb_le|apply Z.ltb_lt]; lia).
    replace ((0 <=? n + 1) && (n + 1 <? Z.of_nat (length cu))) with true
      by (symmetry; apply andb_true_iff; split; [apply Z.leb_le|apply Z.ltb_lt]; lia).
    rewrite !bind_Ok. split; [reflexivity|].
    assert (nth 0 cu 0 <= nth (Z.to_nat n) cu 0) by (apply Mon; lia).
    assert (nth (Z.to_nat n) cu 0 <= nth (Z.to_nat (n + 1)) cu 0) by (apply Mon; lia).
    assert (nth (Z.to_nat (n + 1)) cu 0 <= nth (Z.to_nat N) cu 0) by (apply Mon; lia).
    lia.
  - destruct Hc as [HT Hr]. split; [reflexivity|]. nia.
Qed.

Lemma segment_disjoint (n n' : Z) :
  0 <= n -> n < n' -> n' < N -> bos n + len n <= bos n'.
Proof.
  intros Hn Hlt Hn'. destruct Hseg as [HN Hc]. unfold seq_start, seq_len.
  destruct cu_seqlens as [cu|].
  - destruct Hc as (L & H0 & Hl & M).
    pose proof (nondecreasing_nth cu M (Z.to_nat (n + 1)) (Z.to_nat n')). lia.
  - destruct Hc as [HT Hr]. nia.
Qed.

(** a (token, head) row belongs to one sequence, head and timestep *)
Lemma segment_row_inj (H n h n' h' : Z) (t t' : nat) :
  0 <= n < N -> 0 <= n' < N -> 0 <= h < H -> 0 <= h' < H ->
  (t < Z.to_nat (len n))%nat -> (t' < Z.to_nat (len n'))%nat ->
  (bos n + Z.of_nat t) * H + h = (bos n' + Z.of_nat t') * H + h' ->
  n = n' /\ h = h' /\ t = t'.
Proof.
  intros Hn Hn' Hh Hh' Ht Ht' E. apply flat_inj in E; auto.
  destruct E as [E ->].
  assert (n = n') as ->.
  { destruct (Z.lt_trichotomy n n') as [L|[L|L]]; [|exact L|].
    - pose proof (segment_disjoint n n'). lia.
    - pose proof (segment_disjoint n' n). lia. }
  repeat split. lia.
Qed.

End Segments.

(** ** Programs of a grid *)

Lemma in_grid (g0 g1 i_v i_nh : Z) :
  In (i_v, i_nh) (grid g0 g1) <-> 0 <= i_v < g0 /\ 0 <= i_nh < g1.
Proof.
  unfold grid, tl_arange, tab. rewrite in_prod_iff, !in_map_iff. split.
  - intros [(x & <- & Hx) (y & <- & Hy)]. apply in_seq in Hx, Hy. lia.
  - intros [Hv Hnh]. split.
    + exists (Z.to_nat i_v). rewrite in_seq. lia.
    + exists (Z.to_nat i_nh). rewrite in_seq. lia.
Qed.

Lemma list_prod_NoDup {A B : Type} (l : list A) (l' : list B) :
  NoDup l -> NoDup l' -> NoDup (list_prod l l').
Proof.
  intros ND ND'. induction ND as [|x l Hx ND IH]; simpl.
  - constructor.
  - apply NoDup_app.
    + apply Injective_map_NoDup; [|exact ND']. intros y z E. now inversion E.
    + exact IH.
    + intros [y z] Hin Hin'. apply in_map_iff in Hin.
      destruct Hin as (w & E & _). inversion E; subst.
      apply in_prod_iff in Hin'. tauto.
Qed.

Lemma grid_NoDup (g0 g1 : Z) : NoDup (grid g0 g1).
Proof.
  assert (A : forall n, NoDup (tl_arange n)).
  { intros n. unfold tl_arange, tab. apply Injective_map_NoDup.
    - intros x y. apply Nat2Z.inj.
    - apply seq_NoDup. }
  unfold grid. apply list_prod_NoDup; apply A.
Qed.

Lemma run_grid_inv {S : Type} (prog : Z -> Z -> S -> result S)
  (Inv : list (Z * Z) -> S -> Prop) (ids : list (Z * Z)) :
  NoDup ids ->
  (forall done id s, Inv done s -> In id ids -> ~ In id done ->
     exists s', prog (fst id) (snd id) s = Ok s' /\ Inv (id :: done) s') ->
  forall s, Inv [] s ->
  exists s' done, run_grid prog ids s = Ok s' /\ Inv done s'
                  /\ forall id, In id ids -> In id done.
Proof.
  intros ND Step.
  assert (G : forall rest done s,
    NoDup rest -> (forall id, In id rest -> In id ids /\ ~ In id done) ->
    Inv done s ->
    exists s' done', run_grid prog rest s = Ok s' /\ Inv done' s'
                     /\ forall id, In id rest \/ In id done -> In id done').
  { induction rest as [|[i_v i_nh] rest IH]; intros done s NDr Hr I.
    - exists s, done. split; [reflexivity|]. split; [exact I|].
      intros id [[]|Hd]. exact Hd.
    - inversion NDr as [|? ? Hx NDr']; subst.
      destruct (Step done (i_v, i_nh) s I) as (s1 & E1 & I1);
        try (apply Hr; simpl; auto).
      destruct (IH ((i_v, i_nh) :: done) s1 NDr') as (s' & done' & E' & I' & C'); auto.
      { intros id Hid. split; [apply Hr; simpl; auto|].
        intros [<-|Hd]; [contradiction|]. apply (Hr id); simpl; auto. }
      exists s', done'. simpl in E1. cbn [run_grid]. rewrite E1, bind_Ok.
      split; [exact E'|]. split; [exact I'|].
      intros id [[<-|Hid]|Hd]; apply C'; simpl; auto. }
  intros s I. destruct (G ids [] s ND) as (s' & done & E & I' & C); auto.
  exists s', done. split; [exact E|]. split; [exact I'|]. auto.
Qed.

(** ** A launch of the forward kernel *)

(** shapes a launch over [N] sequences of [rows] tokens in all needs *)
Definition fwd_launch_ok (q k v a b : buffer) (h0 : option buffer)
  (cu_seqlens : option (list Z)) (H T K V BK BV N rows NV : Z)
  (out0 : Fwd.outputs) : Prop :=
  0 < H /\ 0 <= K <= BK /\ 0 < BV /\ 0 <= V <= NV * BV
  /\ segments_ok cu_seqlens T N rows
  /\ numel q = rows * H * K /\ numel k = rows * H * K
  /\ numel a = rows * H * K /\ numel b = rows * H * K
  /\ numel v = rows * H * V
  /\ (forall m, h0 = Some m -> numel m = N * H * K * V)
  /\ numel (Fwd.o out0) = rows * H * V /\ numel (Fwd.ha out0) = rows * H * V
  /\ (forall m, Fwd.ht out0 = Some m -> numel m = N * H * K * V).

Lemma program_of_id (H N i_nh : Z) :
  0 < H -> 0 <= i_nh < N * H ->
  0 <= i_nh / H < N /\ 0 <= i_nh mod H < H /\ i_nh = i_nh / H * H + i_nh mod H.
Proof.
  intros HH Hi. pose proof (Z.mod_pos_bound i_nh H HH).
  pose proof (Z.div_mod i_nh H ltac:(lia)). split; [|split]; try lia.
  split; [apply Z.div_pos; lia|]. apply Z.div_lt_upper_bound; lia.
Qed.

Lemma id_of_program (H n h n' h' : Z) :
  0 <= h < H -> 0 <= h' < H -> n * H + h = n' * H + h' -> n = n' /\ h = h'.
Proof. intros. now apply flat_inj with (W := H). Qed.

Lemma block_of_lane (BV i_v j : Z) :
  0 < BV -> 0 <= j < BV -> (i_v * BV + j) / BV = i_v.
Proof.
  intros HB Hj. rewrite Z.div_add_l by lia. rewrite Z.div_small by lia. lia.
Qed.

Lemma lane_of_index (BV jg : Z) :
  0 < BV -> 0 <= jg ->
  jg = jg / BV * BV + Z.of_nat (Z.to_nat (jg mod BV))
  /\ (Z.to_nat (jg mod BV) < Z.to_nat BV)%nat.
Proof.
  intros HB Hj. pose proof (Z.mod_pos_bound jg BV HB).
  pose proof (Z.div_mod jg BV ltac:(lia)). lia.
Qed.

Section FwdLaunch.

Variables q k v a b : buffer.
Variable h0 : option buffer.
Variable cu_seqlens : option (list Z).
Variable scale : R.
Variables H T K V BK BV N rows NV : Z.
Variable out0 : Fwd.outputs.
Hypothesis OK : fwd_launch_ok q k v a b h0 cu_seqlens H T K V BK BV N rows NV out0.

Local Abbreviation bos := (seq_start cu_seqlens T).
Local Abbreviation len n := (Z.to_nat (seq_len cu_seqlens T n)).
Local Abbreviation S n h := (Recurrence.S k v a b h0 H K V (bos n) n h).
Local Abbreviation tmp n h := (Recurrence.tmp k v a b h0 H K V (bos n) n h).
Local Abbreviation out n h := (Recurrence.out q k v a b h0 scale H K V (bos n) n h).
Local Abbreviation kernel :=
  (Fwd.fused_recurrent_fwd_kernel q k v a b h0 cu_seqlens scale H T K V BK BV).

(** what the programs in [done] have left in the output buffers *)
Definition fwd_done (done : list (Z * Z)) (o : Fwd.outputs) : Prop :=
  numel (Fwd.o o) = rows * H * V /\ numel (Fwd.ha o) = rows * H * V
  /\ (forall m, Fwd.ht o = Some m -> numel m = N * H * K * V)
  /\ (Fwd.ht out0 = None <-> Fwd.ht o = None)
  /\ forall n h j, 0 <= n < N -> 0 <= h < H -> 0 <= j < V ->
       In (j / BV, n * H + h) done ->
       (forall t, (t < len n)%nat ->
          data (Fwd.o o) (((bos n + Z.of_nat t) * H + h) * V + j) = out n h t j
          /\ data (Fwd.ha o) (((bos n + Z.of_nat t) * H + h) * V + j) = tmp n h t j)
       /\ (forall m i, Fwd.ht o = Some m -> 0 <= i < K ->
             data m ((n * H + h) * K * V + i * V + j) = S n h (len n) j i).

Lemma fwd_done_step (done : list (Z * Z)) (id : Z * Z) (o : Fwd.outputs) :
  fwd_done done o -> In id (grid NV (N * H)) -> ~ In id done ->
  exists o', kernel (fst id) (snd id) o = Ok o' /\ fwd_done (id :: done) o'.
Proof.
  destruct OK as (HH & HK & HBV & HV & Seg & Nq & Nk & Na & Nb & Nv & Nh0 & _).
  intros (No & Nha & Nht & Hnone & Cov) Hid Hnew.
  destruct id as [i_v i_nh]. apply in_grid in Hid. destruct Hid as [Hv Hnh].
  destruct (program_of_id H N i_nh HH Hnh) as (Hn & Hh & Ei).
  remember (i_nh / H) as n0 eqn:En0. remember (i_nh mod H) as hh eqn:Ehh.
  clear En0 Ehh Hnh. subst i_nh.
  destruct (segment_range cu_seqlens T N rows Seg n0 Hn) as (PR & B0 & L0 & BL).
  cbn [fst snd].
  destruct (fwd_program_ok q k v a b h0 scale H K V BK BV rows i_v n0 hh (bos n0)
              (len n0)) with (cu_seqlens := cu_seqlens) (T := T)
              (T' := seq_len cu_seqlens T n0) (NH := N * H) (out0 := o)
    as (o' & E & So & Sha & Sht); auto; try lia; [nia|].
  exists o'. split; [exact E|].
  destruct So as (No' & Wo & Fo), Sha as (Nha' & Wha & Fha).
  assert (Own : forall n h j, 0 <= n < N -> 0 <= h < H -> 0 <= j < V ->
            (j / BV, n * H + h) = (i_v, n0 * H + hh) ->
            n = n0 /\ h = hh
            /\ j = i_v * BV + Z.of_nat (Z.to_nat (j mod BV))
            /\ (Z.to_nat (j mod BV) < Z.to_nat BV)%nat).
  { intros n h j Hn' Hh' Hj Eq. injection Eq as Ev Enh.
    apply id_of_program in Enh; auto.
    destruct Enh as [-> ->].
    destruct (lane_of_index BV j HBV) as [Ej Hl]; [lia|].
    rewrite <- Ev. auto. }
  assert (Other : forall n h j t j' t',
            0 <= n < N -> 0 <= h < H -> 0 <= j < V -> (t < len n)%nat ->
            (j / BV, n * H + h) <> (i_v, n0 * H + hh) ->
            (t' < len n0)%nat ->
            (j' < Z.to_nat BV)%nat /\ (i_v * BV + Z.of_nat j' <? V) = true ->
            ((bos n0 + Z.of_nat t') * H + hh) * V + i_v * BV + Z.of_nat j'
            <> ((bos n + Z.of_nat t) * H + h) * V + j).
  { intros n h j t j' t' Hn' Hh' Hj Ht Hne Ht' [Hl Hm] Eq. apply ltb_lane in Hm.
    rewrite <- Z.add_assoc in Eq. apply flat_inj in Eq; try lia.
    destruct Eq as [Er Ej].
    apply (segment_row_inj cu_seqlens T N rows Seg) in Er; auto.
    destruct Er as (-> & -> & _). apply Hne. f_equal.
    rewrite <- Ej. apply block_of_lane; lia. }
  repeat split.
  - congruence.
  - congruence.
  - intros m Hm. destruct (Fwd.ht o) as [m0|] eqn:E0.
    + destruct Sht as (m' & Em & Nm & _). rewrite Em in Hm. inversion Hm; subst.
      rewrite Nm. now apply Nht.
    + congruence.
  - intros Hn0. apply Hnone in Hn0. rewrite Hn0 in Sht. exact Sht.
  - intros Hn0. apply Hnone. destruct (Fwd.ht o); [|reflexivity].
    destruct Sht as (m' & Em & _). congruence.
  - destruct (Z.eq_dec (j / BV) i_v) as [Ev|Nv'];
      [destruct (Z.eq_dec (n * H + h) (n0 * H + hh)) as [Enh|Nnh]|].
    + destruct (Own n h j) as (-> & -> & Ej & Hl); auto; try congruence.
      assert (Hm : (i_v * BV + Z.of_nat (Z.to_nat (j mod BV)) <? V) = true)
        by (apply Z.ltb_lt; lia).
      pose proof (Wo (t, Z.to_nat (j mod BV)) (conj H4 (conj Hl Hm))) as Wt.
      cbn [fst snd] in Wt. rewrite <- Ej in Wt. rewrite <- Wt. f_equal. lia.
    + destruct H3 as [Eq|Hd]; [inversion Eq; congruence|].
      destruct (Cov n h j H0 H1 H2 Hd) as [C _]. rewrite <- (proj1 (C t H4)).
      apply Fo. intros [t' j'] [Ht' Hl]. cbn [fst snd] in *.
      apply Other; auto. congruence.
    + destruct H3 as [Eq|Hd]; [inversion Eq; congruence|].
      destruct (Cov n h j H0 H1 H2 Hd) as [C _]. rewrite <- (proj1 (C t H4)).
      apply Fo. intros [t' j'] [Ht' Hl]. cbn [fst snd] in *.
      apply Other; auto. congruence.
  - destruct (Z.eq_dec (j / BV) i_v) as [Ev|Nv'];
      [destruct (Z.eq_dec (n * H + h) (n0 * H + hh)) as [Enh|Nnh]|].
    + destruct (Own n h j) as (-> & -> & Ej & Hl); auto; try congruence.
      assert (Hm : (i_v * BV + Z.of_nat (Z.to_nat (j mod BV)) <? V) = true)
        by (apply Z.ltb_lt; lia).
      pose proof (Wha (t, Z.to_nat (j mod BV)) (conj H4 (conj Hl Hm))) as Wt.
      cbn [fst snd] in Wt. rewrite <- Ej in Wt. rewrite <- Wt. f_equal. lia.
    + destruct H3 as [Eq|Hd]; [inversion Eq; congruence|].
      destruct (Cov n h j H0 H1 H2 Hd) as [C _]. rewrite <- (proj2 (C t H4)).
      apply Fha. intros [t' j'] [Ht' Hl]. cbn [fst snd] in *.
      apply Other; auto. congruence.
    + destruct H3 as [Eq|Hd]; [inversion Eq; congruence|].
      destruct (Cov n h j H0 H1 H2 Hd) as [C _]. rewrite <- (proj2 (C t H4)).
      apply Fha. intros [t' j'] [Ht' Hl]. cbn [fst snd] in *.
      apply Other; auto. congruence.
  - intros m i Hm Hi.
    destruct (Fwd.ht o) as [m0|] eqn:E0; [|congruence].
    destruct Sht as (m' & Em & Nm & Wm & Fm).
    rewrite Em in Hm. inversion Hm; subst m'.
    destruct (Z.eq_dec (j / BV) i_v) as [Ev|Nv'];
      [destruct (Z.eq_dec (n * H + h) (n0 * H + hh)) as [Enh|Nnh]|].
    + destruct (Own n h j) as (-> & -> & Ej & Hl); auto; try congruence.
      pose proof (Wm (Z.to_nat (j mod BV), Z.to_nat i)) as Wt.
      cbn [fst snd] in Wt. rewrite <- Ej in Wt.
      rewrite Z2Nat.id in Wt by lia. apply Wt.
      split; [exact Hl|]. split; [lia|].
      apply andb_true_iff. split; apply Z.ltb_lt; lia.
    + destruct H3 as [Eq|Hd]; [inversion Eq; congruence|].
      destruct (Cov n h j H0 H1 H2 Hd) as [_ C]. rewrite <- (C m0 i eq_refl Hi).
      apply Fm. intros [j' i'] (Hl & Hl' & Hmk). cbn [fst snd] in *.
      apply andb_true_iff in Hmk. destruct Hmk as [Hk' Hv']. apply ltb_lane in Hk', Hv'.
      intros Eq. apply Nnh.
      assert (Eq' : ((n0 * H + hh) * K + Z.of_nat i') * V + (i_v * BV + Z.of_nat j')
                    = ((n * H + h) * K + i) * V + j) by lia.
      apply flat_inj in Eq'; try lia. destruct Eq' as [Eq' _].
      apply flat_inj in Eq'; lia.
    + destruct H3 as [Eq|Hd]; [inversion Eq; congruence|].
      destruct (Cov n h j H0 H1 H2 Hd) as [_ C]. rewrite <- (C m0 i eq_refl Hi).
      apply Fm. intros [j' i'] (Hl & Hl' & Hmk). cbn [fst snd] in *.
      apply andb_true_iff in Hmk. destruct Hmk as [Hk' Hv']. apply ltb_lane in Hk', Hv'.
      intros Eq. apply Nv'.
      assert (Eq' : ((n0 * H + hh) * K + Z.of_nat i') * V + (i_v * BV + Z.of_nat j')
                    = ((n * H + h) * K + i) * V + j) by lia.
      apply flat_inj in Eq'; try lia. destruct Eq' as [_ Eq'].
      rewrite <- Eq'. apply block_of_lane; lia.
Qed.

Lemma fwd_launch_done :
  exists out',
    run_grid kernel (grid NV (N * H)) out0 = Ok out'
    /\ fwd_done (grid NV (N * H)) out'.
Proof.
  destruct (run_grid_inv kernel fwd_done (grid NV (N * H)) (grid_NoDup _ _))
    with (s := out0) as (out' & done & E & I & C).
  - intros done id o. apply fwd_done_step.
  - destruct OK as (_ & _ & _ & _ & _ & _ & _ & _ & _ & _ & _ & No & Nha & Nht).
    split; [exact No|]. split; [exact Nha|]. split; [exact Nht|].
    split; [tauto|]. intros n h j _ _ _ [].
  - exists out'. split; [exact E|].
    destruct I as (No & Nha & Nht & Hnone & Cov).
    split; [exact No|]. split; [exact Nha|]. split; [exact Nht|].
    split; [exact Hnone|]. intros n h j Hn Hh Hj Hin. apply Cov; auto.
Qed.

(** after the launch every sequence, head and value channel has its values:
    each is covered by one program of the grid *)
Lemma fwd_launch_values :
  exists out',
    run_grid kernel (grid NV (N * H)) out0 = Ok out'
    /\ (Fwd.ht out0 = None <-> Fwd.ht out' = None)
    /\ forall n h j, 0 <= n < N -> 0 <= h < H -> 0 <= j < V ->
       (forall t, (t < len n)%nat ->
          data (Fwd.o out') (((bos n + Z.of_nat t) * H + h) * V + j) = out n h t j
          /\ data (Fwd.ha out') (((bos n + Z.of_nat t) * H + h) * V + j)
             = tmp n h t j)
       /\ (forall m i, Fwd.ht out' = Some m -> 0 <= i < K ->
             data m ((n * H + h) * K * V + i * V + j) = S n h (len n) j i).
Proof.
  destruct fwd_launch_done as (out' & E & (_ & _ & _ & Hnone & Cov)).
  destruct OK as (HH & HK & HBV & HV & _).
  exists out'. split; [exact E|]. split; [exact Hnone|].
  intros n h j Hn Hh Hj. apply Cov; auto.
  apply in_grid. split.
  - split; [apply Z.div_pos; lia|]. apply Z.div_lt_upper_bound; lia.
  - nia.
Qed.

End FwdLaunch.

(** *** The delta-rule form of the update *)

Lemma sigma_delta (n : nat) (f : nat -> R) (i : Z) :
  0 <= i < Z.of_nat n ->
  sigma n (fun i' => f i' * (if Z.of_nat i' =? i then 1 else 0))%R = f (Z.to_nat i).
Proof.
  induction n as [|n IH]; intros Hi.
  - lia.
  - rewrite sigma_S. destruct (Z.eqb_spec (Z.of_nat n) i) as [E|Ne].
    + rewrite sigma_zero.
      * subst i. rewrite Nat2Z.id. lra.
      * intros i' Hi'. destruct (Z.eqb_spec (Z.of_nat i') i); [lia | lra].
    + rewrite IH by lia. lra.
Qed.

Lemma S_delta_rule (k v a b : buffer) (h0 : option buffer) (H K V bos n h : Z)
  (t : nat) (j i : Z) :
  0 <= i < K ->
  Recurrence.S k v a b h0 H K V bos n h (Datatypes.S t) j i
  = Recurrence.delta_rule k v a b h0 H K V bos n h t j i.
Proof.
  intros Hi. unfold Recurrence.delta_rule. cbn [Recurrence.S].
  erewrite (sigma_ext _ (fun i' => (_ * (_ + _))%R));
    [|intros i' _; rewrite Rmult_plus_distr_l, <- Rmult_assoc; reflexivity].
  rewrite sigma_plus.
  rewrite (sigma_delta _ (fun i' => Recurrence.S k v a b h0 H K V bos n h t j (Z.of_nat i')))
    by lia.
  rewrite Z2Nat.id by lia.
  match goal with
  | |- (_ + ?x * ?c + _ = _ + sigma ?m ?g + _)%R =>
      assert (E : sigma m g = (x * c)%R)
  end.
  { rewrite Rmult_comm, <- sigma_scal. apply sigma_ext. intros i' _. lra. }
  rewrite E. reflexivity.
Qed.

(** ** One program of the backward kernel *)

Section BwdProgram.

Variables q k v a b ha do : buffer.
Variables dht h0 : option buffer.
Variable scale : R.
Variables B H T K V BK BV : Z.
Variable rows : Z.
Variables i_v n h bos : Z.
Variable len : nat.

Hypothesis Hh : 0 <= h < H.
Hypothesis HK : 0 <= K <= BK.
Hypothesis Hiv : 0 <= i_v * BV.
Hypothesis Hseg : 0 <= bos /\ bos + Z.of_nat len <= rows.
Hypothesis Nq : numel q = rows * H * K.
Hypothesis Nk : numel k = rows * H * K.
Hypothesis Na : numel a = rows * H * K.
Hypothesis Nb : numel b = rows * H * K.
Hypothesis Nv : numel v = rows * H * V.
Hypothesis Nha : numel ha = rows * H * V.
Hypothesis Ndo : numel do = rows * H * V.
Variable NV : Z.
Hypothesis Hv : 0 <= i_v < NV.
Hypothesis Hslab : i_v * B * H * K * T = i_v * (rows * H * K).

Local Abbreviation BKn := (Z.to_nat BK).
Local Abbreviation BVn := (Z.to_nat BV).
Local Abbreviation row t := ((bos + Z.of_nat t) * H + h).
Local Abbreviation jg j := (i_v * BV + Z.of_nat j).
Local Abbreviation mk := (fun i : nat => Z.of_nat i <? K).
Local Abbreviation mv := (fun j : nat => Z.of_nat j + i_v * BV <? V).
Local Abbreviation lane_k := (fun i : nat => (i < BKn)%nat /\ mk i = true).
Local Abbreviation lane_v := (fun j : nat => (j < BVn)%nat /\ mv j = true).
Local Abbreviation slab := (i_v * B * H * K * T).
Local Abbreviation kptr t := (tab BKn (fun i => row t * K + Z.of_nat i)).
Local Abbreviation vptr t := (tab BVn (fun j => row t * V + i_v * BV + Z.of_nat j)).
Local Abbreviation sptr t := (tab BKn (fun i => slab + row t * K + Z.of_nat i)).
Local Abbreviation addr_k := (fun t i : nat => slab + row t * K + Z.of_nat i).
Local Abbreviation addr_v := (fun t j : nat => row t * V + i_v * BV + Z.of_nat j).
Local Abbreviation adjoint :=
  (Recurrence.adjoint q a b do dht scale H K V bos n h len).
Local Abbreviation add_q := (Recurrence.add_q q do scale H K V bos h).
Local Abbreviation dha_of := (Recurrence.dha_of q b do scale H K V bos h).
Local Abbreviation fold_a := (Recurrence.fold_a q a b do scale H K V bos h).
Local Abbreviation rebuilt := (Recurrence.rebuilt k v b ha h0 H K V bos n h).
Local Abbreviation dha_ := (Recurrence.dha_ q a b do dht scale H K V bos n h len).

(** the part of a sum over the [V] values that falls into this program's block *)
Definition block_sum (BV V i_v : Z) (f : Z -> R) : R :=
  sigma (Z.to_nat BV)
    (fun j => if Z.of_nat j + i_v * BV <? V then f (i_v * BV + Z.of_nat j) else 0%R).

Local Abbreviation part := (block_sum BV V i_v).

(** time of the [r]-th iteration of the descending loop *)
Local Abbreviation time r := (len - 1 - r)%nat.

Local Abbreviation dblock r :=
  (tab BKn (fun i => tab BVn (fun j =>
     if mk i && mv j then adjoint r (Z.of_nat i) (jg j) else 0%R))).

Definition bwd_inv1 (dk0 dv0 dha0 db0 : buffer) (r : nat) (st : Bwd.loop1_state)
  : Prop :=
  let kp := tab BKn (fun i =>
    ((bos + (Z.of_nat len - 1 - Z.of_nat r)) * H + h) * K + Z.of_nat i) in
  let vp := tab BVn (fun j =>
    ((bos + (Z.of_nat len - 1 - Z.of_nat r)) * H + h) * V + i_v * BV + Z.of_nat j) in
  let sp := tab BKn (fun i =>
    slab + ((bos + (Z.of_nat len - 1 - Z.of_nat r)) * H + h) * K + Z.of_nat i) in
  Bwd.p_q st = kp /\ Bwd.p_k st = kp /\ Bwd.p_a st = kp /\ Bwd.p_b st = kp
  /\ Bwd.p_v st = vp /\ Bwd.p_ha st = vp /\ Bwd.p_do st = vp
  /\ Bwd.p_dv st = vp /\ Bwd.p_dha st = vp
  /\ Bwd.p_dk st = sp /\ Bwd.p_db st = sp
  /\ Bwd.b_dh st = dblock r
  /\ stored_upto dk0 (Bwd.mem_dk st) r lane_k (fun r i => addr_k (time r) i)
       (fun r i => part (fun j => add_q (adjoint r) (time r) (Z.of_nat i) j
                                  * at_ v bos H V h (time r) j)%R)
  /\ stored_upto dv0 (Bwd.mem_dv st) r lane_v (fun r j => addr_v (time r) j)
       (fun r j => sigma (Z.to_nat K) (fun i =>
                     add_q (adjoint r) (time r) (Z.of_nat i) (jg j)
                     * at_ k bos H K h (time r) (Z.of_nat i))%R)
  /\ stored_upto dha0 (Bwd.mem_dha st) r lane_v (fun r j => addr_v (time r) j)
       (fun r j => dha_of (adjoint r) (time r) (jg j))
  /\ stored_upto db0 (Bwd.mem_db st) r lane_k (fun r i => addr_k (time r) i)
       (fun r i => part (fun j => add_q (adjoint r) (time r) (Z.of_nat i) j
                                  * at_ ha bos H V h (time r) j)%R).

Lemma bwd_row_bound (t : nat) : (t < len)%nat -> 0 <= row t < rows * H.
Proof. intros Ht. nia. Qed.

Lemma bwd_row_inj (t t' : nat) : row t = row t' -> t = t'.
Proof. intros E. nia. Qed.

Lemma bwd_lane_k_pad (g : nat -> R) :
  (forall i, mk i = false -> g i = 0%R) ->
  sigma BKn g = sigma (Z.to_nat K) g.
Proof.
  intros G. apply sigma_pad; [lia|]. intros i Hi. apply G.
  apply Z.ltb_ge. lia.
Qed.

Lemma bwd_k_in_bounds (m : buffer) (t i : nat) :
  numel m = rows * H * K -> (t < len)%nat -> mk i = true ->
  in_bounds m (row t * K + Z.of_nat i) = true.
Proof.
  intros N Ht Hi. apply ltb_lane in Hi.
  apply in_bounds_flat with (R := rows * H); auto using bwd_row_bound. lia.
Qed.

Lemma bwd_v_in_bounds (m : buffer) (t j : nat) :
  numel m = rows * H * V -> (t < len)%nat -> mv j = true ->
  in_bounds m (row t * V + i_v * BV + Z.of_nat j) = true.
Proof.
  intros N Ht Hj. apply ltb_lane in Hj.
  apply in_bounds_flat3 with (R := rows * H); auto using bwd_row_bound. lia.
Qed.

Lemma bwd_s_in_bounds (m : buffer) (t i : nat) :
  numel m = NV * (rows * H * K) -> (t < len)%nat -> mk i = true ->
  in_bounds m (slab + row t * K + Z.of_nat i) = true.
Proof.
  intros N Ht Hi. apply ltb_lane in Hi. rewrite Hslab, <- Z.add_assoc.
  apply in_bounds_flat with (R := NV); auto.
  apply flat_bound; auto using bwd_row_bound. lia.
Qed.

Lemma bwd_v_disjoint (t s j j' : nat) :
  t <> s -> mv j = true -> mv j' = true ->
  row t * V + i_v * BV + Z.of_nat j <> row s * V + i_v * BV + Z.of_nat j'.
Proof.
  intros Ht Hj Hj' E. apply ltb_lane in Hj, Hj'.
  rewrite <- !Z.add_assoc in E. apply flat_inj in E; try lia.
  destruct E as [E _]. apply bwd_row_inj in E. lia.
Qed.

Lemma bwd_k_disjoint (t s i i' : nat) :
  t <> s -> mk i = true -> mk i' = true ->
  slab + row t * K + Z.of_nat i <> slab + row s * K + Z.of_nat i'.
Proof.
  intros Ht Hi Hi' E. apply ltb_lane in Hi, Hi'.
  rewrite <- !Z.add_assoc in E. apply Z.add_reg_l in E.
  apply flat_inj in E; try lia.
  destruct E as [E _]. apply bwd_row_inj in E. lia.
Qed.

(** the adjoint block after [outer(q * scale, do)] has been added *)
Lemma dblock_add_q (r t i j : nat) :
  ((if mk i && mv j then adjoint r (Z.of_nat i) (jg j) else 0)
   + (if mk i then data q (row t * K + Z.of_nat i) else 0) * scale
     * (if mv j then data do (row t * V + i_v * BV + Z.of_nat j) else 0))%R
  = if mk i && mv j then add_q (adjoint r) t (Z.of_nat i) (jg j) else 0%R.
Proof.
  destruct (mk i), (mv j); simpl; try lra.
  unfold Recurrence.add_q, at_. rewrite <- !Z.add_assoc. lra.
Qed.

(** row sums over the block's values *)
Lemma row_sum_v (x : buffer) (X : Z -> Z -> R) (t i : nat) :
  sigma BVn (fun j =>
    (if mk i && mv j then X (Z.of_nat i) (jg j) else 0)
    * (if mv j then data x (row t * V + i_v * BV + Z.of_nat j) else 0))%R
  = if mk i
    then part (fun j => X (Z.of_nat i) j * at_ x bos H V h t j)%R
    else 0%R.
Proof.
  destruct (mk i) eqn:Ei.
  - unfold block_sum. apply sigma_ext. intros j _.
    destruct (mv j); simpl; [|lra]. unfold at_. now rewrite <- !Z.add_assoc.
  - apply sigma_zero. intros j _. simpl. lra.
Qed.

(** column sums over the [K] keys *)
Lemma col_sum_k (x : buffer) (X : Z -> Z -> R) (t j : nat) :
  sigma BKn (fun i =>
    (if mk i && mv j then X (Z.of_nat i) (jg j) else 0)
    * (if mk i then data x (row t * K + Z.of_nat i) else 0))%R
  = if mv j
    then sigma (Z.to_nat K) (fun i =>
           X (Z.of_nat i) (jg j) * at_ x bos H K h t (Z.of_nat i))%R
    else 0%R.
Proof.
  rewrite bwd_lane_k_pad by (intros i ->; simpl; lra).
  destruct (mv j) eqn:Ej.
  - apply sigma_ext. intros i Hi.
    replace (mk i) with true by (symmetry; apply Z.ltb_lt; lia).
    reflexivity.
  - apply sigma_zero. intros i _. rewrite andb_false_r. lra.
Qed.

Lemma dblock_fold_a (r t i j : nat) :
  ((if mk i && mv j then add_q (adjoint r) t (Z.of_nat i) (jg j) else 0)
   + (if mv j then dha_of (adjoint r) t (jg j) else 0)
     * (if mk i then data a (row t * K + Z.of_nat i) else 0))%R
  = if mk i && mv j then fold_a (adjoint r) t (Z.of_nat i) (jg j) else 0%R.
Proof.
  destruct (mk i), (mv j); simpl; try lra.
  unfold Recurrence.fold_a, at_. lra.
Qed.

Lemma bwd_step1_ok (dk0 dv0 dha0 db0 : buffer) (r : nat) (st : Bwd.loop1_state) :
  numel dk0 = NV * (rows * H * K) -> numel db0 = NV * (rows * H * K) ->
  numel dv0 = rows * H * V -> numel dha0 = rows * H * V ->
  (r < len)%nat -> bwd_inv1 dk0 dv0 dha0 db0 r st ->
  exists st',
    Bwd.step1 q k v a b ha do scale H K V BV (tab BKn mk) (tab BVn mv) st = Ok st'
    /\ bwd_inv1 dk0 dv0 dha0 db0 (Datatypes.S r) st'.
Proof.
  intros Ndk Ndb Ndv Ndha Hr I. unfold bwd_inv1 in I. cbv zeta in I.
  replace (Z.of_nat len - 1 - Z.of_nat r) with (Z.of_nat (time r)) in I by lia.
  destruct I as (Pq & Pk & Pa & Pb & Pv & Pha & Pdo & Pdv & Pdha & Pdk & Pdb
                 & Bh & Sdk & Sdv & Sdha & Sdb).
  assert (Ht : (time r < len)%nat) by lia.
  unfold Bwd.step1.
  rewrite Pq, Pk, Pa, Pb, Pv, Pha, Pdo, Pdv, Pdha, Pdk, Pdb, Bh.
  rewrite (tl_load_tab q) by (intros; now apply bwd_k_in_bounds).
  rewrite (tl_load_tab k) by (intros; now apply bwd_k_in_bounds).
  rewrite (tl_load_tab v) by (intros; now apply bwd_v_in_bounds).
  rewrite (tl_load_tab do) by (intros; now apply bwd_v_in_bounds).
  rewrite (tl_load_tab b) by (intros; now apply bwd_k_in_bounds).
  rewrite (tl_load_tab a) by (intros; now apply bwd_k_in_bounds).
  rewrite (tl_load_tab ha) by (intros; now apply bwd_v_in_bounds).
  rewrite !bind_Ok. cbv zeta.
  rewrite map_tab, !outer2_tab, !add2_tab, !with_row_tab, !with_col_tab,
    !tl_sum_axis1_tab, !tl_sum_axis0_tab.
  rewrite !outer2_tab, !add2_tab.
  match goal with
  | |- context [tl_store ?m (tab ?c ?pf) (tab ?c ?xf) (tab ?c ?mf)] =>
      destruct (tl_store_tab m c pf xf mf) as (m1 & R1 & W1)
  end.
  { intros i i' _ _ _ _ E. lia. }
  { intros i _ Hi. destruct Sdk as (N & _). unfold in_bounds. rewrite N.
    apply (bwd_s_in_bounds dk0); auto. }
  rewrite R1, bind_Ok.
  match goal with
  | |- context [tl_store ?m (tab ?c ?pf) (tab ?c ?xf) (tab ?c ?mf)] =>
      destruct (tl_store_tab m c pf xf mf) as (m2 & R2 & W2)
  end.
  { intros i i' _ _ _ _ E. lia. }
  { intros j _ Hj. destruct Sdv as (N & _). unfold in_bounds. rewrite N.
    apply (bwd_v_in_bounds dv0); auto. }
  rewrite R2, bind_Ok.
  match goal with
  | |- context [tl_store ?m (tab ?c ?pf) (tab ?c ?xf) (tab ?c ?mf)] =>
      destruct (tl_store_tab m c pf xf mf) as (m3 & R3 & W3)
  end.
  { intros i i' _ _ _ _ E. lia. }
  { intros j _ Hj. destruct Sdha as (N & _). unfold in_bounds. rewrite N.
    apply (bwd_v_in_bounds dha0); auto. }
  rewrite R3, bind_Ok.
  match goal with
  | |- context [tl_store ?m (tab ?c ?pf) (tab ?c ?xf) (tab ?c ?mf)] =>
      destruct (tl_store_tab m c pf xf mf) as (m4 & R4 & W4)
  end.
  { intros i i' _ _ _ _ E. lia. }
  { intros i _ Hi. destruct Sdb as (N & _). unfold in_bounds. rewrite N.
    apply (bwd_s_in_bounds db0); auto. }
  rewrite R4, bind_Ok.
  eexists. split; [reflexivity|].
  unfold bwd_inv1; cbn [Bwd.p_q Bwd.p_k Bwd.p_v Bwd.p_ha Bwd.p_a Bwd.p_b Bwd.p_do
                        Bwd.p_dk Bwd.p_dv Bwd.p_dha Bwd.p_db Bwd.b_dh
                        Bwd.mem_dk Bwd.mem_dv Bwd.mem_dha Bwd.mem_db].
  cbv zeta. rewrite !advance_tab.
  replace (Z.of_nat len - 1 - Z.of_nat (Datatypes.S r))
    with (Z.of_nat (time r) - 1) by lia.
  assert (Ek : forall c, tab BKn (fun i => c + row (time r) * K + Z.of_nat i + - (H * K))
               = tab BKn (fun i => c +
                   ((bos + (Z.of_nat (time r) - 1)) * H + h) * K
                   + Z.of_nat i)).
  { intros c. apply tab_ext. intros i _. ring. }
  assert (Ek0 : tab BKn (fun i => row (time r) * K + Z.of_nat i + - (H * K))
               = tab BKn (fun i =>
                   ((bos + (Z.of_nat (time r) - 1)) * H + h) * K
                   + Z.of_nat i)).
  { apply tab_ext. intros i _. ring. }
  assert (Ev : tab BVn (fun j => row (time r) * V + i_v * BV + Z.of_nat j + - (H * V))
               = tab BVn (fun j =>
                   ((bos + (Z.of_nat (time r) - 1)) * H + h) * V
                   + i_v * BV + Z.of_nat j)).
  { apply tab_ext. intros j _. ring. }
  rewrite !Ek, Ek0, Ev. repeat (split; [reflexivity|]).
  split; [|split; [|split; [|split]]].
  - apply tab_ext. intros i _. apply tab_ext. intros j _.
    rewrite dblock_add_q.
    erewrite sigma_ext; [|intros i' _; rewrite dblock_add_q; reflexivity].
    rewrite col_sum_k. apply dblock_fold_a.
  - apply stored_next with (m := Bwd.mem_dk st); auto.
    + eapply stored_ext; [| |exact W1].
      * intros i; reflexivity.
      * intros i [_ Hi]. simpl.
        erewrite sigma_ext; [|intros j _; rewrite dblock_add_q; reflexivity].
        rewrite row_sum_v. now rewrite Hi.
    + intros t i i' Hlt [_ Hi] [_ Hi']. apply bwd_k_disjoint; auto. lia.
  - apply stored_next with (m := Bwd.mem_dv st); auto.
    + eapply stored_ext; [| |exact W2].
      * intros j; reflexivity.
      * intros j [_ Hj]. simpl.
        erewrite sigma_ext; [|intros i _; rewrite dblock_add_q; reflexivity].
        rewrite col_sum_k. now rewrite Hj.
    + intros t j j' Hlt [_ Hj] [_ Hj']. apply bwd_v_disjoint; auto. lia.
  - apply stored_next with (m := Bwd.mem_dha st); auto.
    + eapply stored_ext; [| |exact W3].
      * intros j; reflexivity.
      * intros j [_ Hj]. simpl.
        erewrite sigma_ext; [|intros i _; rewrite dblock_add_q; reflexivity].
        rewrite col_sum_k. now rewrite Hj.
    + intros t j j' Hlt [_ Hj] [_ Hj']. apply bwd_v_disjoint; auto. lia.
  - apply stored_next with (m := Bwd.mem_db st); auto.
    + eapply stored_ext; [| |exact W4].
      * intros i; reflexivity.
      * intros i [_ Hi]. simpl.
        erewrite sigma_ext; [|intros j _; rewrite dblock_add_q; reflexivity].
        rewrite row_sum_v. now rewrite Hi.
    + intros t i i' Hlt [_ Hi] [_ Hi']. apply bwd_k_disjoint; auto. lia.
Qed.

Lemma bwd_loop1_ok (dk0 dv0 dha0 db0 : buffer) :
  numel dk0 = NV * (rows * H * K) -> numel db0 = NV * (rows * H * K) ->
  numel dv0 = rows * H * V -> numel dha0 = rows * H * V ->
  forall (c r : nat) (st : Bwd.loop1_state),
  (r + c <= len)%nat -> bwd_inv1 dk0 dv0 dha0 db0 r st ->
  exists st',
    for_range c (Bwd.step1 q k v a b ha do scale H K V BV (tab BKn mk) (tab BVn mv)) st
    = Ok st'
    /\ bwd_inv1 dk0 dv0 dha0 db0 (r + c) st'.
Proof.
  intros Ndk Ndb Ndv Ndha. induction c as [|c IH]; intros r st Hle I.
  - exists st. rewrite Nat.add_0_r. split; [reflexivity | exact I].
  - destruct (bwd_step1_ok dk0 dv0 dha0 db0 r st) as (st1 & E1 & I1); auto; try lia.
    destruct (IH (Datatypes.S r) st1) as (st' & E' & I'); auto; try lia.
    exists st'. cbn [for_range]. rewrite E1, bind_Ok.
    split; [exact E'|]. now rewrite Nat.add_succ_r.
Qed.

(** *** The second loop *)

Local Abbreviation hblock s :=
  (tab BKn (fun i => tab BVn (fun j =>
     if mk i && mv j then rebuilt s (Z.of_nat i) (jg j) else 0%R))).

Definition bwd_inv2 (da0 dq0 : buffer) (s : nat) (st : Bwd.loop2_state) : Prop :=
  Bwd.r_k st = kptr s /\ Bwd.r_b st = kptr s
  /\ Bwd.r_v st = vptr s /\ Bwd.r_ha st = vptr s /\ Bwd.r_do st = vptr s
  /\ Bwd.r_dha st = vptr s
  /\ Bwd.r_da st = sptr s /\ Bwd.r_dq st = sptr s
  /\ Bwd.b_h st = hblock s
  /\ stored_upto da0 (Bwd.mem_da st) s lane_k addr_k
       (fun t i => part (fun j => dha_ t j * rebuilt t (Z.of_nat i) j)%R)
  /\ stored_upto dq0 (Bwd.mem_dq st) s lane_k addr_k
       (fun t i => part (fun j => rebuilt (Datatypes.S t) (Z.of_nat i) j
                                  * at_ do bos H V h t j) * scale)%R.

Lemma hblock_next (s i j : nat) :
  ((if mk i && mv j then rebuilt s (Z.of_nat i) (jg j) else 0)
   + ((if mk i then data k (row s * K + Z.of_nat i) else 0)
      * (if mv j then data v (row s * V + i_v * BV + Z.of_nat j) else 0)
      + (if mk i then data b (row s * K + Z.of_nat i) else 0)
        * (if mv j then data ha (row s * V + i_v * BV + Z.of_nat j) else 0)))%R
  = if mk i && mv j then rebuilt (Datatypes.S s) (Z.of_nat i) (jg j) else 0%R.
Proof.
  destruct (mk i), (mv j); simpl; try lra.
  unfold at_. rewrite <- !Z.add_assoc. lra.
Qed.

Lemma row_sum_dha (dhaM : buffer) (s i : nat) :
  (forall j, lane_v j -> data dhaM (addr_v s j) = dha_ s (jg j)) ->
  sigma BVn (fun j =>
    (if mv j then data dhaM (row s * V + i_v * BV + Z.of_nat j) else 0)
    * (if mk i && mv j then rebuilt s (Z.of_nat i) (jg j) else 0))%R
  = if mk i
    then part (fun j => dha_ s j * rebuilt s (Z.of_nat i) j)%R
    else 0%R.
Proof.
  intros D. destruct (mk i) eqn:Ei.
  - unfold block_sum. apply sigma_ext. intros j Hj.
    destruct (mv j) eqn:Ej; simpl; [|lra]. now rewrite D.
  - apply sigma_zero. intros j _. simpl. lra.
Qed.

Lemma bwd_step2_ok (dhaM da0 dq0 : buffer) (s : nat) (st : Bwd.loop2_state) :
  numel dhaM = rows * H * V ->
  (forall t j, (t < len)%nat -> lane_v j -> data dhaM (addr_v t j) = dha_ t (jg j)) ->
  numel da0 = NV * (rows * H * K) -> numel dq0 = NV * (rows * H * K) ->
  (s < len)%nat -> bwd_inv2 da0 dq0 s st ->
  exists st',
    Bwd.step2 k v b ha do scale H K V dhaM (tab BKn mk) (tab BVn mv) st = Ok st'
    /\ bwd_inv2 da0 dq0 (Datatypes.S s) st'.
Proof.
  intros NdhaM D Nda Ndq Hs
    (Pk & Pb & Pv & Pha & Pdo & Pdha & Pda & Pdq & Bh & Sda & Sdq).
  unfold Bwd.step2. rewrite Pk, Pb, Pv, Pha, Pdo, Pdha, Pda, Pdq, Bh.
  rewrite (tl_load_tab dhaM) by (intros; now apply bwd_v_in_bounds).
  rewrite bind_Ok. cbv zeta. rewrite with_row_tab, tl_sum_axis1_tab.
  match goal with
  | |- context [tl_store ?m (tab ?c ?pf) (tab ?c ?xf) (tab ?c ?mf)] =>
      destruct (tl_store_tab m c pf xf mf) as (m1 & R1 & W1)
  end.
  { intros i i' _ _ _ _ E. lia. }
  { intros i _ Hi. destruct Sda as (N & _). unfold in_bounds. rewrite N.
    apply (bwd_s_in_bounds da0); auto. }
  rewrite R1, bind_Ok.
  rewrite (tl_load_tab k) by (intros; now apply bwd_k_in_bounds).
  rewrite (tl_load_tab v) by (intros; now apply bwd_v_in_bounds).
  rewrite (tl_load_tab do) by (intros; now apply bwd_v_in_bounds).
  rewrite (tl_load_tab b) by (intros; now apply bwd_k_in_bounds).
  rewrite (tl_load_tab ha) by (intros; now apply bwd_v_in_bounds).
  rewrite !bind_Ok.
  rewrite !outer2_tab, !add2_tab, with_row_tab, tl_sum_axis1_tab, map_tab.
  match goal with
  | |- context [tl_store ?m (tab ?c ?pf) (tab ?c ?xf) (tab ?c ?mf)] =>
      destruct (tl_store_tab m c pf xf mf) as (m2 & R2 & W2)
  end.
  { intros i i' _ _ _ _ E. lia. }
  { intros i _ Hi. destruct Sdq as (N & _). unfold in_bounds. rewrite N.
    apply (bwd_s_in_bounds dq0); auto. }
  rewrite R2, bind_Ok.
  eexists. split; [reflexivity|].
  unfold bwd_inv2; cbn [Bwd.r_k Bwd.r_v Bwd.r_ha Bwd.r_do Bwd.r_dha Bwd.r_da
                        Bwd.r_dq Bwd.r_b Bwd.b_h Bwd.mem_da Bwd.mem_dq].
  rewrite !advance_tab.
  assert (Ek : tab BKn (fun i => row s * K + Z.of_nat i + H * K) = kptr (Datatypes.S s)).
  { apply tab_ext. intros i _. lia. }
  assert (Es : tab BKn (fun i => slab + row s * K + Z.of_nat i + H * K)
               = sptr (Datatypes.S s)).
  { apply tab_ext. intros i _. lia. }
  assert (Ev : tab BVn (fun j => row s * V + i_v * BV + Z.of_nat j + H * V)
               = vptr (Datatypes.S s)).
  { apply tab_ext. intros j _. lia. }
  rewrite Ek, Es, Ev. repeat (split; [reflexivity|]). split; [|split].
  - apply tab_ext. intros i _. apply tab_ext. intros j _. apply hblock_next.
  - apply stored_next with (m := Bwd.mem_da st); auto.
    + eapply stored_ext; [| |exact W1].
      * intros i; reflexivity.
      * intros i [_ Hi]. simpl. rewrite row_sum_dha by (intros; now apply D).
        now rewrite Hi.
    + intros t i i' Hlt [_ Hi] [_ Hi']. apply bwd_k_disjoint; auto. lia.
  - apply stored_next with (m := Bwd.mem_dq st); auto.
    + eapply stored_ext; [| |exact W2].
      * intros i; reflexivity.
      * intros i [_ Hi]. simpl.
        erewrite sigma_ext; [|intros j _; rewrite hblock_next; reflexivity].
        rewrite row_sum_v. now rewrite Hi.
    + intros t i i' Hlt [_ Hi] [_ Hi']. apply bwd_k_disjoint; auto. lia.
Qed.

Lemma bwd_loop2_ok (dhaM da0 dq0 : buffer) :
  numel dhaM = rows * H * V ->
  (forall t j, (t < len)%nat -> lane_v j -> data dhaM (addr_v t j) = dha_ t (jg j)) ->
  numel da0 = NV * (rows * H * K) -> numel dq0 = NV * (rows * H * K) ->
  forall (c s : nat) (st : Bwd.loop2_state),
  (s + c <= len)%nat -> bwd_inv2 da0 dq0 s st ->
  exists st',
    for_range c (Bwd.step2 k v b ha do scale H K V dhaM (tab BKn mk) (tab BVn mv)) st
    = Ok st'
    /\ bwd_inv2 da0 dq0 (s + c) st'.
Proof.
  intros NdhaM D Nda Ndq. induction c as [|c IH]; intros s st Hle I.
  - exists st. rewrite Nat.add_0_r. split; [reflexivity | exact I].
  - destruct (bwd_step2_ok dhaM da0 dq0 s st) as (st1 & E1 & I1); auto; try lia.
    destruct (IH (Datatypes.S s) st1) as (st' & E' & I'); auto; try lia.
    exists st'. cbn [for_range]. rewrite E1, bind_Ok.
    split; [exact E'|]. now rewrite Nat.add_succ_r.
Qed.

(** *** The whole program *)

Local Abbreviation i_nh := (n * H + h).
Local Abbreviation addr_h :=
  (fun ij : nat * nat => i_nh * K * V + Z.of_nat (fst ij) * V + jg (snd ij)).
Local Abbreviation lane_h :=
  (fun ij : nat * nat => (fst ij < BKn)%nat /\ (snd ij < BVn)%nat
                         /\ mk (fst ij) && mv (snd ij) = true).
Local Abbreviation dS := (Recurrence.dS q a b do dht scale H K V bos n h len).
Local Abbreviation dv_ := (Recurrence.dv_ q k a b do dht scale H K V bos n h len).

Lemma bwd_program_id : i_nh / H = n /\ i_nh mod H = h.
Proof.
  split.
  - rewrite Z.div_add_l by lia. rewrite Z.div_small by lia. lia.
  - rewrite Z.add_comm, Z.mod_add by lia. apply Z.mod_small. lia.
Qed.

Lemma bwd_state_in_bounds (m : buffer) (NH : Z) (i j : nat) :
  numel m = NH * K * V -> 0 <= i_nh < NH -> mk i && mv j = true ->
  in_bounds m (i_nh * K * V + Z.of_nat i * V + jg j) = true.
Proof.
  intros N Hnh Hm. apply andb_true_iff in Hm. destruct Hm as [Hi Hj].
  apply ltb_lane in Hi, Hj.
  replace (i_nh * K * V + Z.of_nat i * V) with ((i_nh * K + Z.of_nat i) * V) by ring.
  apply in_bounds_flat with (R := NH * K); auto; try lia.
  apply flat_bound; lia.
Qed.

Lemma bwd_state_inj (i j i' j' : nat) :
  mk i && mv j = true -> mk i' && mv j' = true ->
  i_nh * K * V + Z.of_nat i * V + jg j = i_nh * K * V + Z.of_nat i' * V + jg j' ->
  i = i' /\ j = j'.
Proof.
  intros Hm Hm' E. apply andb_true_iff in Hm, Hm'.
  destruct Hm as [_ Hj], Hm' as [_ Hj']. apply ltb_lane in Hj, Hj'.
  rewrite <- !Z.add_assoc in E. apply Z.add_reg_l in E.
  apply flat_inj in E; lia.
Qed.

Lemma bwd_initial_block (m : option buffer) (X : Z -> Z -> R) (NH : Z) :
  (forall x, m = Some x -> numel x = NH * K * V) -> 0 <= i_nh < NH ->
  (forall i j, X i j = state_at m H K V n h i j) ->
  let mask_k := map (fun i => i <? K) (tl_arange BK) in
  let mask_v := map (fun j => j + i_v * BV <? V) (tl_arange BV) in
  let mask_kv := outer2 andb mask_k mask_v in
  let p_state :=
    outer2 (fun i j => i_nh * K * V + i * V + j)
           (tl_arange BK) (map (fun j => i_v * BV + j) (tl_arange BV)) in
  match m with
  | Some x => y <- tl_load2 x p_state mask_kv ;; Ok (add2 (tl_zeros2 BK BV) y)
  | None => Ok (tl_zeros2 BK BV)
  end
  = Ok (tab BKn (fun i => tab BVn (fun j =>
          if mk i && mv j then X (Z.of_nat i) (jg j) else 0%R))).
Proof.
  intros N Hnh E. cbv zeta. unfold tl_arange.
  rewrite !map_tab, !outer2_tab, tl_zeros2_tab.
  destruct m as [x|].
  - rewrite tl_load2_tab by (intros; apply bwd_state_in_bounds with (NH := NH); auto).
    rewrite bind_Ok, add2_tab. f_equal.
    apply tab_ext. intros i _. apply tab_ext. intros j _.
    rewrite E. unfold state_at. destruct (mk i && mv j); lra.
  - f_equal. apply tab_ext. intros i _. apply tab_ext. intros j _.
    rewrite E. unfold state_at. now destruct (mk i && mv j).
Qed.

Lemma bwd_program_ok (cu_seqlens : option (list Z)) (NH : Z) (out0 : Bwd.outputs) :
  program_range cu_seqlens T n = Ok (bos, Z.of_nat len) ->
  0 <= i_nh < NH ->
  (forall m, dht = Some m -> numel m = NH * K * V) ->
  (forall m, h0 = Some m -> numel m = NH * K * V) ->
  (forall m, Bwd.dh0 out0 = Some m -> numel m = NH * K * V) ->
  numel (Bwd.dq out0) = NV * (rows * H * K) ->
  numel (Bwd.dk out0) = NV * (rows * H * K) ->
  numel (Bwd.da out0) = NV * (rows * H * K) ->
  numel (Bwd.db out0) = NV * (rows * H * K) ->
  numel (Bwd.dv out0) = rows * H * V ->
  numel (Bwd.dha out0) = rows * H * V ->
  exists out',
    Bwd.fused_recurrent_bwd_kernel q k v a b ha dht do h0 scale cu_seqlens
      B H T K V BK BV i_v i_nh out0 = Ok out'
    /\ stored_upto (Bwd.dk out0) (Bwd.dk out') len lane_k addr_k
         (fun t i => part (fun j => dS t (Z.of_nat i) j * at_ v bos H V h t j)%R)
    /\ stored_upto (Bwd.dv out0) (Bwd.dv out') len lane_v addr_v
         (fun t j => dv_ t (jg j))
    /\ stored_upto (Bwd.dha out0) (Bwd.dha out') len lane_v addr_v
         (fun t j => dha_ t (jg j))
    /\ stored_upto (Bwd.db out0) (Bwd.db out') len lane_k addr_k
         (fun t i => part (fun j => dS t (Z.of_nat i) j * at_ ha bos H V h t j)%R)
    /\ stored_upto (Bwd.da out0) (Bwd.da out') len lane_k addr_k
         (fun t i => part (fun j => dha_ t j * rebuilt t (Z.of_nat i) j)%R)
    /\ stored_upto (Bwd.dq out0) (Bwd.dq out') len lane_k addr_k
         (fun t i => part (fun j => rebuilt (Datatypes.S t) (Z.of_nat i) j
                                    * at_ do bos H V h t j) * scale)%R
    /\ match Bwd.dh0 out0 with
       | Some m =>
           exists m', Bwd.dh0 out' = Some m'
             /\ stored m m' lane_h addr_h
                  (fun ij => adjoint len (Z.of_nat (fst ij)) (jg (snd ij)))
       | None => Bwd.dh0 out' = None
       end.
Proof.
  intros PR Hnh Ndht Nh0 Ndh0 Ndq Ndk Nda Ndb Ndv Ndha.
  unfold Bwd.fused_recurrent_bwd_kernel.
  destruct bwd_program_id as [-> ->]. rewrite PR, bind_Ok. cbv beta zeta.
  rewrite (bwd_initial_block dht (adjoint 0%nat) NH) by auto. rewrite bind_Ok.
  rewrite (bwd_initial_block h0 (rebuilt 0%nat) NH) by auto.
  rewrite !ptr_arange, Nat2Z.id.
  unfold tl_arange. rewrite !map_tab, !outer2_tab.
  match goal with
  | |- context [for_range len ?body ?st0] =>
      destruct (bwd_loop1_ok (Bwd.dk out0) (Bwd.dv out0) (Bwd.dha out0) (Bwd.db out0)
                  Ndk Ndb Ndv Ndha len 0%nat st0) as (s1 & E1 & I1)
  end.
  { lia. }
  { unfold bwd_inv1; cbn [Bwd.p_q Bwd.p_k Bwd.p_v Bwd.p_ha Bwd.p_a Bwd.p_b Bwd.p_do
                          Bwd.p_dk Bwd.p_dv Bwd.p_dha Bwd.p_db Bwd.b_dh
                          Bwd.mem_dk Bwd.mem_dv Bwd.mem_dha Bwd.mem_db].
    cbv zeta.
    repeat match goal with
    | |- _ /\ _ => split
    | |- tab _ _ = tab _ _ => apply tab_ext; intros; simpl; ring
    | |- stored_upto _ _ _ _ _ _ => apply stored_upto_0
    end.
    reflexivity. }
  rewrite E1, bind_Ok.
  unfold bwd_inv1 in I1. cbv zeta in I1. cbn [Nat.add] in I1.
  destruct I1 as (_ & _ & _ & _ & _ & _ & _ & _ & _ & _ & _
                  & Bh & Sdk & Sdv & Sdha & Sdb).
  assert (Rev : forall r, (r < len)%nat -> (len - 1 - time r)%nat = r) by (intros; lia).
  assert (Tdk : stored_upto (Bwd.dk out0) (Bwd.mem_dk s1) len lane_k addr_k
            (fun t i => part (fun j => dS t (Z.of_nat i) j * at_ v bos H V h t j)%R)).
  { apply stored_upto_rev. eapply stored_upto_ext; [|exact Sdk].
    intros r i Hr _. cbv beta. unfold Recurrence.dS. now rewrite Rev. }
  assert (Tdv : stored_upto (Bwd.dv out0) (Bwd.mem_dv s1) len lane_v addr_v
            (fun t j => dv_ t (jg j))).
  { apply stored_upto_rev. eapply stored_upto_ext; [|exact Sdv].
    intros r j Hr _. cbv beta. unfold Recurrence.dv_, Recurrence.dS.
    now rewrite Rev. }
  assert (Tdha : stored_upto (Bwd.dha out0) (Bwd.mem_dha s1) len lane_v addr_v
            (fun t j => dha_ t (jg j))).
  { apply stored_upto_rev. eapply stored_upto_ext; [|exact Sdha].
    intros r j Hr _. cbv beta. unfold Recurrence.dha_, Recurrence.dS.
    now rewrite Rev. }
  assert (Tdb : stored_upto (Bwd.db out0) (Bwd.mem_db s1) len lane_k addr_k
            (fun t i => part (fun j => dS t (Z.of_nat i) j * at_ ha bos H V h t j)%R)).
  { apply stored_upto_rev. eapply stored_upto_ext; [|exact Sdb].
    intros r i Hr _. cbv beta. unfold Recurrence.dS. now rewrite Rev. }
  assert (Hdh0 : exists dh0',
    match Bwd.dh0 out0 with
    | Some m =>
        m' <- tl_store2 m
                (tab BKn (fun i => tab BVn (fun j =>
                   i_nh * K * V + Z.of_nat i * V + (i_v * BV + Z.of_nat j))))
                (Bwd.b_dh s1)
                (tab BKn (fun i => tab BVn (fun j => mk i && mv j))) ;;
        Ok (Some m')
    | None => Ok None
    end = Ok dh0'
    /\ match Bwd.dh0 out0 with
       | Some m =>
           exists m', dh0' = Some m'
             /\ stored m m' lane_h addr_h
                  (fun ij => adjoint len (Z.of_nat (fst ij)) (jg (snd ij)))
       | None => dh0' = None
       end).
  { destruct (Bwd.dh0 out0) as [m|] eqn:E0.
    - rewrite Bh.
      match goal with
      | |- context [tl_store2 ?m (tab ?r (fun j1 => tab ?c (@?pf j1)))
                              (tab ?r (fun j2 => tab ?c (@?xf j2)))
                              (tab ?r (fun j3 => tab ?c (@?mf j3)))] =>
          destruct (tl_store2_tab m r c pf xf mf) as (m' & Rm & Wm)
      end.
      { intros i j i' j' _ _ _ _. apply bwd_state_inj. }
      { intros i j _ _. apply bwd_state_in_bounds with (NH := NH); auto. }
      rewrite Rm, bind_Ok. exists (Some m'). split; [reflexivity|].
      exists m'. split; [reflexivity|].
      eapply stored_ext; [| |exact Wm].
      + intros ij; reflexivity.
      + intros [i j] (_ & _ & Hm); simpl in *. now rewrite Hm.
    - exists None. split; reflexivity. }
  destruct Hdh0 as (dh0' & Edh0 & Sdh0). rewrite Edh0, !bind_Ok.
  assert (Dha : forall t j, (t < len)%nat -> lane_v j ->
                  data (Bwd.mem_dha s1) (addr_v t j) = dha_ t (jg j)).
  { intros t j Ht Hj. destruct Tdha as (_ & W & _). apply (W (t, j)). split; auto. }
  assert (NdhaM : numel (Bwd.mem_dha s1) = rows * H * V).
  { destruct Tdha as (N & _). congruence. }
  match goal with
  | |- context [for_range len ?body ?st0] =>
      destruct (bwd_loop2_ok (Bwd.mem_dha s1) (Bwd.da out0) (Bwd.dq out0)
                  NdhaM Dha Nda Ndq len 0%nat st0) as (s2 & E2 & I2)
  end.
  { lia. }
  { unfold bwd_inv2; cbn [Bwd.r_k Bwd.r_v Bwd.r_ha Bwd.r_do Bwd.r_dha Bwd.r_da
                          Bwd.r_dq Bwd.r_b Bwd.b_h Bwd.mem_da Bwd.mem_dq].
    repeat match goal with
    | |- _ /\ _ => split
    | |- tab _ _ = tab _ _ => apply tab_ext; intros; simpl; ring
    | |- stored_upto _ _ _ _ _ _ => apply stored_upto_0
    end.
    reflexivity. }
  rewrite E2, bind_Ok. cbn [Nat.add] in I2.
  destruct I2 as (_ & _ & _ & _ & _ & _ & _ & _ & _ & Sda & Sdq).
  eexists. split; [reflexivity|].
  cbn [Bwd.dq Bwd.dk Bwd.dv Bwd.da Bwd.db Bwd.dha Bwd.dh0].
  repeat (split; [assumption|]). exact Sdh0.
Qed.

End BwdProgram.

(** ** A launch of the backward kernel *)

(** every valid coordinate [c] whose program is in [done] holds its value *)
Definition covered {C : Type} (valid : C -> Prop) (owner : C -> Z * Z)
  (addr : C -> Z) (val : C -> R) (done : list (Z * Z)) (m : buffer) : Prop :=
  forall c, valid c -> In (owner c) done -> data m (addr c) = val c.

Lemma id_eq_dec (x y : Z * Z) : {x = y} + {x <> y}.
Proof. decide equality; apply Z.eq_dec. Qed.

Lemma covered_step {C I : Type} (valid : C -> Prop) (owner : C -> Z * Z)
  (addr : C -> Z) (val : C -> R) (done : list (Z * Z)) (id : Z * Z)
  (m m' : buffer) (dom : I -> Prop) (pf : I -> Z) (xf : I -> R) :
  stored m m' dom pf xf ->
  covered valid owner addr val done m ->
  (forall c, valid c -> owner c = id ->
     exists i, dom i /\ pf i = addr c /\ xf i = val c) ->
  (forall c i, valid c -> owner c <> id -> dom i -> pf i <> addr c) ->
  covered valid owner addr val (id :: done) m'.
Proof.
  intros (N & W & F) Cov Own Other c Hc Hin.
  destruct (id_eq_dec (owner c) id) as [E|Ne].
  - destruct (Own c Hc E) as (i & Hi & <- & <-). now apply W.
  - destruct Hin as [E|Hin]; [congruence|].
    rewrite F by (intros i Hi; now apply Other). now apply Cov.
Qed.

Lemma covered_nil {C : Type} (valid : C -> Prop) (owner : C -> Z * Z)
  (addr : C -> Z) (val : C -> R) (m : buffer) :
  covered valid owner addr val [] m.
Proof. intros c _ []. Qed.

Lemma covered_incl {C : Type} (valid : C -> Prop) (owner : C -> Z * Z)
  (addr : C -> Z) (val : C -> R) (done done' : list (Z * Z)) (m : buffer) :
  (forall id, In id done' -> In id done) ->
  covered valid owner addr val done m -> covered valid owner addr val done' m.
Proof. intros Inc Cov c Hc Hin. apply Cov; auto. Qed.

(** shapes a launch of the backward kernel needs; [B * T] tokens in all *)
Definition bwd_launch_ok (q k v a b ha : buffer) (dht : option buffer) (do : buffer)
  (h0 : option buffer) (cu_seqlens : option (list Z)) (B H T K V BK BV N NV : Z)
  (out0 : Bwd.outputs) : Prop :=
  0 < H /\ 0 <= K <= BK /\ 0 < BV /\ 0 <= V <= NV * BV
  /\ segments_ok cu_seqlens T N (B * T)
  /\ numel q = B * T * H * K /\ numel k = B * T * H * K
  /\ numel a = B * T * H * K /\ numel b = B * T * H * K
  /\ numel v = B * T * H * V /\ numel ha = B * T * H * V
  /\ numel do = B * T * H * V
  /\ (forall m, dht = Some m -> numel m = N * H * K * V)
  /\ (forall m, h0 = Some m -> numel m = N * H * K * V)
  /\ numel (Bwd.dq out0) = NV * (B * T * H * K)
  /\ numel (Bwd.dk out0) = NV * (B * T * H * K)
  /\ numel (Bwd.da out0) = NV * (B * T * H * K)
  /\ numel (Bwd.db out0) = NV * (B * T * H * K)
  /\ numel (Bwd.dv out0) = B * T * H * V
  /\ numel (Bwd.dha out0) = B * T * H * V
  /\ (forall m, Bwd.dh0 out0 = Some m -> numel m = N * H * K * V).

Section BwdLaunch.

Variables q k v a b ha : buffer.
Variable dht : option buffer.
Variable do : buffer.
Variable h0 : option buffer.
Variable scale : R.
Variable cu_seqlens : option (list Z).
Variables B H T K V BK BV N NV : Z.
Variable out0 : Bwd.outputs.
Hypothesis OK :
  bwd_launch_ok q k v a b ha dht do h0 cu_seqlens B H T K V BK BV N NV out0.

Local Abbreviation rows := (B * T).
Local Abbreviation bos := (seq_start cu_seqlens T).
Local Abbreviation len n := (Z.to_nat (seq_len cu_seqlens T n)).
Local Abbreviation row n h t := ((bos n + Z.of_nat t) * H + h).
Local Abbreviation kernel :=
  (Bwd.fused_recurrent_bwd_kernel q k v a b ha dht do h0 scale cu_seqlens
     B H T K V BK BV).
Local Abbreviation dS n h :=
  (Recurrence.dS q a b do dht scale H K V (bos n) n h (len n)).
Local Abbreviation dv_ n h :=
  (Recurrence.dv_ q k a b do dht scale H K V (bos n) n h (len n)).
Local Abbreviation dha_ n h :=
  (Recurrence.dha_ q a b do dht scale H K V (bos n) n h (len n)).
Local Abbreviation adjoint n h :=
  (Recurrence.adjoint q a b do dht scale H K V (bos n) n h (len n)).
Local Abbreviation rebuilt n h :=
  (Recurrence.rebuilt k v b ha h0 H K V (bos n) n h).

(** coordinates [(i_v, n, h, t, i)] of the per-block gradients of q, k, a, b *)
Definition valid_k (c : Z * Z * Z * nat * Z) : Prop :=
  let '(i_v, n, h, t, i) := c in
  0 <= i_v < NV /\ 0 <= n < N /\ 0 <= h < H /\ (t < len n)%nat /\ 0 <= i < K.

Definition owner_k (c : Z * Z * Z * nat * Z) : Z * Z :=
  let '(i_v, n, h, t, i) := c in (i_v, n * H + h).

Definition addr_k (c : Z * Z * Z * nat * Z) : Z :=
  let '(i_v, n, h, t, i) := c in i_v * (rows * H * K) + row n h t * K + i.

(** coordinates [(n, h, t, j)] of the gradients of v and ha *)
Definition valid_v (c : Z * Z * nat * Z) : Prop :=
  let '(n, h, t, j) := c in
  0 <= n < N /\ 0 <= h < H /\ (t < len n)%nat /\ 0 <= j < V.

Definition owner_v (c : Z * Z * nat * Z) : Z * Z :=
  let '(n, h, t, j) := c in (j / BV, n * H + h).

Definition addr_v (c : Z * Z * nat * Z) : Z :=
  let '(n, h, t, j) := c in row n h t * V + j.

(** coordinates [(n, h, i, j)] of a [K x V] state *)
Definition valid_h (c : Z * Z * Z * Z) : Prop :=
  let '(n, h, i, j) := c in
  0 <= n < N /\ 0 <= h < H /\ 0 <= i < K /\ 0 <= j < V.

Definition owner_h (c : Z * Z * Z * Z) : Z * Z :=
  let '(n, h, i, j) := c in (j / BV, n * H + h).

Definition addr_h (c : Z * Z * Z * Z) : Z :=
  let '(n, h, i, j) := c in (n * H + h) * K * V + i * V + j.

Definition val_dk (c : Z * Z * Z * nat * Z) : R :=
  let '(i_v, n, h, t, i) := c in
  block_sum BV V i_v (fun j => dS n h t i j * at_ v (bos n) H V h t j)%R.

Definition val_db (c : Z * Z * Z * nat * Z) : R :=
  let '(i_v, n, h, t, i) := c in
  block_sum BV V i_v (fun j => dS n h t i j * at_ ha (bos n) H V h t j)%R.

Definition val_da (c : Z * Z * Z * nat * Z) : R :=
  let '(i_v, n, h, t, i) := c in
  block_sum BV V i_v (fun j => dha_ n h t j * rebuilt n h t i j)%R.

Definition val_dq (c : Z * Z * Z * nat * Z) : R :=
  let '(i_v, n, h, t, i) := c in
  (block_sum BV V i_v
     (fun j => rebuilt n h (Datatypes.S t) i j * at_ do (bos n) H V h t j)
   * scale)%R.

Definition val_dv (c : Z * Z * nat * Z) : R :=
  let '(n, h, t, j) := c in dv_ n h t j.

Definition val_dha (c : Z * Z * nat * Z) : R :=
  let '(n, h, t, j) := c in dha_ n h t j.

Definition val_dh0 (c : Z * Z * Z * Z) : R :=
  let '(n, h, i, j) := c in adjoint n h (len n) i j.

(** what the programs in [done] have left in the output buffers *)
Definition bwd_done (done : list (Z * Z)) (o : Bwd.outputs) : Prop :=
  numel (Bwd.dq o) = NV * (rows * H * K) /\ numel (Bwd.dk o) = NV * (rows * H * K)
  /\ numel (Bwd.da o) = NV * (rows * H * K) /\ numel (Bwd.db o) = NV * (rows * H * K)
  /\ numel (Bwd.dv o) = rows * H * V /\ numel (Bwd.dha o) = rows * H * V
  /\ (forall m, Bwd.dh0 o = Some m -> numel m = N * H * K * V)
  /\ (Bwd.dh0 out0 = None <-> Bwd.dh0 o = None)
  /\ covered valid_k owner_k addr_k val_dk done (Bwd.dk o)
  /\ covered valid_k owner_k addr_k val_db done (Bwd.db o)
  /\ covered valid_k owner_k addr_k val_da done (Bwd.da o)
  /\ covered valid_k owner_k addr_k val_dq done (Bwd.dq o)
  /\ covered valid_v owner_v addr_v val_dv done (Bwd.dv o)
  /\ covered valid_v owner_v addr_v val_dha done (Bwd.dha o)
  /\ (forall m, Bwd.dh0 o = Some m ->
        covered valid_h owner_h addr_h val_dh0 done m).

Section Program.

Variables i_v n0 hh : Z.
Hypothesis Hv : 0 <= i_v < NV.
Hypothesis Hn : 0 <= n0 < N.
Hypothesis Hh : 0 <= hh < H.

Local Abbreviation id := (i_v, n0 * H + hh).

Lemma bwd_rows (n h : Z) (t : nat) :
  0 <= n < N -> 0 <= h < H -> (t < len n)%nat -> 0 <= row n h t < rows * H.
Proof.
  intros Hn' Hh' Ht.
  destruct OK as (HH & _ & _ & _ & Seg & _).
  destruct (segment_range cu_seqlens T N rows Seg n Hn') as (_ & B0 & L0 & BL).
  nia.
Qed.

Lemma own_k_lane (c : Z * Z * Z * nat * Z) :
  valid_k c -> owner_k c = id ->
  exists t i, c = (i_v, n0, hh, t, Z.of_nat i)
              /\ (t < len n0)%nat /\ (i < Z.to_nat BK)%nat
              /\ (Z.of_nat i <? K) = true.
Proof.
  destruct OK as (HH & HK & _).
  destruct c as [[[[iv n] h] t] i]. intros (_ & Hn' & Hh' & Ht & Hi) E.
  injection E as -> E. apply id_of_program in E; auto. destruct E as [-> ->].
  exists t, (Z.to_nat i). rewrite Z2Nat.id by lia.
  repeat split; auto; try lia; try (apply Z.ltb_lt; lia).
Qed.

Lemma other_k_lane (c : Z * Z * Z * nat * Z) (t' i' : nat) :
  valid_k c -> owner_k c <> id ->
  (t' < len n0)%nat -> (Z.of_nat i' <? K) = true ->
  i_v * B * H * K * T + row n0 hh t' * K + Z.of_nat i' <> addr_k c.
Proof.
  destruct OK as (HH & HK & _ & _ & Seg & _).
  destruct c as [[[[iv n] h] t] i]. intros (Hiv & Hn' & Hh' & Ht & Hi) Ne Ht' Hi' E.
  apply ltb_lane in Hi'. unfold addr_k in E.
  pose proof (bwd_rows n h t Hn' Hh' Ht) as R1.
  pose proof (bwd_rows n0 hh t' Hn Hh Ht') as R2.
  replace (i_v * B * H * K * T) with (i_v * (rows * H * K)) in E by ring.
  rewrite <- !Z.add_assoc in E. apply flat_inj in E; try (apply flat_bound; lia).
  destruct E as [-> E]. apply flat_inj in E; try lia. destruct E as [E _].
  apply (segment_row_inj cu_seqlens T N rows Seg) in E; auto.
  destruct E as (-> & -> & _). now apply Ne.
Qed.

Lemma own_v_lane (c : Z * Z * nat * Z) :
  valid_v c -> owner_v c = id ->
  exists t j, c = (n0, hh, t, i_v * BV + Z.of_nat j)
              /\ (t < len n0)%nat /\ (j < Z.to_nat BV)%nat
              /\ (Z.of_nat j + i_v * BV <? V) = true.
Proof.
  destruct OK as (HH & HK & HBV & _).
  destruct c as [[[n h] t] j]. intros (Hn' & Hh' & Ht & Hj) E.
  injection E as Ev E. apply id_of_program in E; auto. destruct E as [-> ->].
  destruct (lane_of_index BV j HBV) as [Ej Hl]; [lia|].
  exists t, (Z.to_nat (j mod BV)). rewrite <- Ev, <- Ej.
  repeat split; auto; try lia; try (apply Z.ltb_lt; lia).
Qed.

Lemma other_v_lane (c : Z * Z * nat * Z) (t' j' : nat) :
  valid_v c -> owner_v c <> id ->
  (t' < len n0)%nat -> (j' < Z.to_nat BV)%nat ->
  (Z.of_nat j' + i_v * BV <? V) = true ->
  row n0 hh t' * V + i_v * BV + Z.of_nat j' <> addr_v c.
Proof.
  destruct OK as (HH & HK & HBV & _ & Seg & _).
  destruct c as [[[n h] t] j]. intros (Hn' & Hh' & Ht & Hj) Ne Ht' Hl Hj' E.
  apply ltb_lane in Hj'. unfold addr_v in E.
  rewrite <- Z.add_assoc in E. apply flat_inj in E; try lia.
  destruct E as [Er Ej].
  apply (segment_row_inj cu_seqlens T N rows Seg) in Er; auto.
  destruct Er as (-> & -> & _). apply Ne. unfold owner_v. f_equal.
  rewrite <- Ej. apply block_of_lane; lia.
Qed.

Lemma own_h_lane (c : Z * Z * Z * Z) :
  valid_h c -> owner_h c = id ->
  exists i j, c = (n0, hh, Z.of_nat i, i_v * BV + Z.of_nat j)
              /\ (i < Z.to_nat BK)%nat /\ (j < Z.to_nat BV)%nat
              /\ (Z.of_nat i <? K) && (Z.of_nat j + i_v * BV <? V) = true.
Proof.
  destruct OK as (HH & HK & HBV & _).
  destruct c as [[[n h] i] j]. intros (Hn' & Hh' & Hi & Hj) E.
  injection E as Ev E. apply id_of_program in E; auto. destruct E as [-> ->].
  destruct (lane_of_index BV j HBV) as [Ej Hl]; [lia|].
  exists (Z.to_nat i), (Z.to_nat (j mod BV)).
  rewrite Z2Nat.id by lia. rewrite <- Ev, <- Ej.
  repeat split; auto; try lia;
    try (apply andb_true_iff; split; apply Z.ltb_lt; lia).
Qed.

Lemma other_h_lane (c : Z * Z * Z * Z) (i' j' : nat) :
  valid_h c -> owner_h c <> id ->
  (j' < Z.to_nat BV)%nat ->
  (Z.of_nat i' <? K) && (Z.of_nat j' + i_v * BV <? V) = true ->
  (n0 * H + hh) * K * V + Z.of_nat i' * V + (i_v * BV + Z.of_nat j') <> addr_h c.
Proof.
  destruct OK as (HH & HK & HBV & _).
  destruct c as [[[n h] i] j]. intros (Hn' & Hh' & Hi & Hj) Ne Hl Hm E.
  apply andb_true_iff in Hm. destruct Hm as [Hi' Hj']. apply ltb_lane in Hi', Hj'.
  unfold addr_h in E.
  assert (E' : ((n0 * H + hh) * K + Z.of_nat i') * V + (i_v * BV + Z.of_nat j')
               = ((n * H + h) * K + i) * V + j) by lia.
  apply flat_inj in E'; try lia. destruct E' as [E1 E2].
  apply flat_inj in E1; try lia. destruct E1 as [E1 _].
  apply id_of_program in E1; auto. destruct E1 as [-> ->].
  apply Ne. unfold owner_h. f_equal. rewrite <- E2. apply block_of_lane; lia.
Qed.

End Program.

Lemma bwd_done_step (done : list (Z * Z)) (id : Z * Z) (o : Bwd.outputs) :
  bwd_done done o -> In id (grid NV (N * H)) -> ~ In id done ->
  exists o', kernel (fst id) (snd id) o = Ok o' /\ bwd_done (id :: done) o'.
Proof.
  pose proof OK as (HH & HK & HBV & HV & Seg & Nq & Nk & Na & Nb & Nv & Nha & Ndo
                    & Ndht & Nh0 & _).
  intros (Ndq & Ndk & Nda & Ndb & Ndv & Ndha & Ndh0 & Hnone
          & Cdk & Cdb & Cda & Cdq & Cdv & Cdha & Cdh0) Hid Hnew.
  destruct id as [i_v i_nh]. apply in_grid in Hid. destruct Hid as [Hv Hnh].
  destruct (program_of_id H N i_nh HH Hnh) as (Hn & Hh & Ei).
  remember (i_nh / H) as n0 eqn:En0. remember (i_nh mod H) as hh eqn:Ehh.
  clear En0 Ehh. subst i_nh.
  destruct (segment_range cu_seqlens T N rows Seg n0 Hn) as (PR & B0 & L0 & BL).
  cbn [fst snd].
  destruct (bwd_program_ok q k v a b ha do dht h0 scale B H T K V BK BV rows
              i_v n0 hh (bos n0) (len n0)) with (NV := NV)
              (cu_seqlens := cu_seqlens) (NH := N * H) (out0 := o)
    as (o' & E & Sdk & Sdv & Sdha & Sdb & Sda & Sdq & Sdh0);
    auto; try lia; try nia.
  { rewrite Z2Nat.id by lia. exact PR. }
  exists o'. split; [exact E|].
  unfold stored_upto in *.
  assert (Nn : numel (Bwd.dq o') = numel (Bwd.dq o)
               /\ numel (Bwd.dk o') = numel (Bwd.dk o)
               /\ numel (Bwd.da o') = numel (Bwd.da o)
               /\ numel (Bwd.db o') = numel (Bwd.db o)
               /\ numel (Bwd.dv o') = numel (Bwd.dv o)
               /\ numel (Bwd.dha o') = numel (Bwd.dha o)).
  { repeat split; match goal with S : stored ?m ?m' _ _ _ |- numel ?m' = numel ?m =>
                    exact (proj1 S) end. }
  destruct Nn as (N1 & N2 & N3 & N4 & N5 & N6).
  unfold bwd_done. rewrite N1, N2, N3, N4, N5, N6.
  repeat (split; [assumption|]).
  assert (Kown : forall (val : Z * Z * Z * nat * Z -> R),
    forall c, valid_k c -> owner_k c = (i_v, n0 * H + hh) ->
    exists ti : nat * nat,
      upto (len n0) (fun i => (i < Z.to_nat BK)%nat /\ (Z.of_nat i <? K) = true) ti
      /\ i_v * B * H * K * T + ((bos n0 + Z.of_nat (fst ti)) * H + hh) * K
         + Z.of_nat (snd ti) = addr_k c
      /\ val (i_v, n0, hh, fst ti, Z.of_nat (snd ti)) = val c).
  { intros val c Hc Eo.
    destruct (own_k_lane i_v n0 hh Hh c Hc Eo) as (t & i & -> & Ht & Hi & Hm).
    exists (t, i). cbn [fst snd]. split; [split; cbn [fst snd]; auto|].
    split; [unfold addr_k; ring | reflexivity]. }
  assert (Kother : forall c (ti : nat * nat),
    valid_k c -> owner_k c <> (i_v, n0 * H + hh) ->
    upto (len n0) (fun i => (i < Z.to_nat BK)%nat /\ (Z.of_nat i <? K) = true) ti ->
    i_v * B * H * K * T + ((bos n0 + Z.of_nat (fst ti)) * H + hh) * K
    + Z.of_nat (snd ti) <> addr_k c).
  { intros c [t i] Hc Ne [Ht [Hi Hm]]. cbn [fst snd] in *.
    now apply other_k_lane. }
  assert (Vown : forall (val : Z * Z * nat * Z -> R),
    forall c, valid_v c -> owner_v c = (i_v, n0 * H + hh) ->
    exists tj : nat * nat,
      upto (len n0) (fun j => (j < Z.to_nat BV)%nat
                              /\ (Z.of_nat j + i_v * BV <? V) = true) tj
      /\ ((bos n0 + Z.of_nat (fst tj)) * H + hh) * V + i_v * BV + Z.of_nat (snd tj)
         = addr_v c
      /\ val (n0, hh, fst tj, i_v * BV + Z.of_nat (snd tj)) = val c).
  { intros val c Hc Eo.
    destruct (own_v_lane i_v n0 hh Hh c Hc Eo) as (t & j & -> & Ht & Hj & Hm).
    exists (t, j). cbn [fst snd]. split; [split; cbn [fst snd]; auto|].
    split; [unfold addr_v; ring | reflexivity]. }
  assert (Vother : forall c (tj : nat * nat),
    valid_v c -> owner_v c <> (i_v, n0 * H + hh) ->
    upto (len n0) (fun j => (j < Z.to_nat BV)%nat
                            /\ (Z.of_nat j + i_v * BV <? V) = true) tj ->
    ((bos n0 + Z.of_nat (fst tj)) * H + hh) * V + i_v * BV + Z.of_nat (snd tj)
    <> addr_v c).
  { intros c [t j] Hc Ne [Ht [Hj Hm]]. cbn [fst snd] in *.
    now apply other_v_lane. }
  split; [|split; [|split]].
  - intros m Hm. destruct (Bwd.dh0 o) as [m0|] eqn:E0.
    + destruct Sdh0 as (m' & Em & Nm & _). rewrite Em in Hm. inversion Hm; subst.
      rewrite Nm. now apply Ndh0.
    + congruence.
  - split.
    + intros Hn0. apply Hnone in Hn0. rewrite Hn0 in Sdh0. exact Sdh0.
    + intros Hn0. apply Hnone. destruct (Bwd.dh0 o); [|reflexivity].
      destruct Sdh0 as (m' & Em & _). congruence.
  - eapply covered_step; [exact Sdk|exact Cdk| |exact Kother].
    intros c Hc Eo. destruct (Kown val_dk c Hc Eo) as (ti & D & P & X).
    exists ti. split; [exact D|]. split; [exact P | exact X].
  - split; [|split; [|split; [|split; [|split]]]].
    + eapply covered_step; [exact Sdb|exact Cdb| |exact Kother].
      intros c Hc Eo. destruct (Kown val_db c Hc Eo) as (ti & D & P & X).
      exists ti. split; [exact D|]. split; [exact P | exact X].
    + eapply covered_step; [exact Sda|exact Cda| |exact Kother].
      intros c Hc Eo. destruct (Kown val_da c Hc Eo) as (ti & D & P & X).
      exists ti. split; [exact D|]. split; [exact P | exact X].
    + eapply covered_step; [exact Sdq|exact Cdq| |exact Kother].
      intros c Hc Eo. destruct (Kown val_dq c Hc Eo) as (ti & D & P & X).
      exists ti. split; [exact D|]. split; [exact P | exact X].
    + eapply covered_step; [exact Sdv|exact Cdv| |exact Vother].
      intros c Hc Eo. destruct (Vown val_dv c Hc Eo) as (tj & D & P & X).
      exists tj. split; [exact D|]. split; [exact P | exact X].
    + eapply covered_step; [exact Sdha|exact Cdha| |exact Vother].
      intros c Hc Eo. destruct (Vown val_dha c Hc Eo) as (tj & D & P & X).
      exists tj. split; [exact D|]. split; [exact P | exact X].
    + intros m Hm. destruct (Bwd.dh0 o) as [m0|] eqn:E0.
      * destruct Sdh0 as (m' & Em & Sm). rewrite Em in Hm. inversion Hm; subst m'.
        eapply covered_step; [exact Sm|exact (Cdh0 m0 eq_refl)| |].
        -- intros c Hc Eo.
           destruct (own_h_lane i_v n0 hh Hh c Hc Eo) as (i & j & -> & Hi & Hj & Hmk).
           exists (i, j). cbn [fst snd]. split; [auto|].
           split; [unfold addr_h; ring | reflexivity].
        -- intros c [i j] Hc Ne (Hi & Hj & Hmk). cbn [fst snd] in *.
           now apply other_h_lane.
      * congruence.
Qed.

Lemma bwd_launch_done :
  exists out',
    run_grid kernel (grid NV (N * H)) out0 = Ok out'
    /\ bwd_done (grid NV (N * H)) out'.
Proof.
  destruct (run_grid_inv kernel bwd_done (grid NV (N * H)) (grid_NoDup _ _))
    with (s := out0) as (out' & done & E & I & C).
  - intros done id o. apply bwd_done_step.
  - destruct OK as (_ & _ & _ & _ & _ & _ & _ & _ & _ & _ & _ & _ & _ & _
                    & Ndq & Ndk & Nda & Ndb & Ndv & Ndha & Ndh0).
    unfold bwd_done.
    replace (NV * (rows * H * K)) with (NV * (B * T * H * K)) by ring.
    repeat (split; [assumption|]). split; [tauto|].
    repeat (split; [apply covered_nil|]). intros m _. apply covered_nil.
  - exists out'. split; [exact E|].
    destruct I as (Ndq & Ndk & Nda & Ndb & Ndv & Ndha & Ndh0 & Hnone
                   & Cdk & Cdb & Cda & Cdq & Cdv & Cdha & Cdh0).
    unfold bwd_done. repeat (split; [assumption|]).
    repeat (split; [eapply covered_incl; [exact C|assumption]|]).
    intros m Hm. eapply covered_incl; [exact C|]. now apply Cdh0.
Qed.

End BwdLaunch.

(** ** The forward kernel computes the recurrence *)


(** ** The backward kernel computes the gradients *)

Lemma sigma_split (n m : nat) (g : nat -> R) :
  sigma (n + m) g = (sigma n g + sigma m (fun j => g (n + j)%nat))%R.
Proof.
  induction m as [|m IH].
  - rewrite Nat.add_0_r. simpl. lra.
  - rewrite Nat.add_succ_r, !sigma_S, IH. lra.
Qed.

Lemma sigma_blocks (nv bv : nat) (g : nat -> R) :
  sigma nv (fun i_v => sigma bv (fun j => g (i_v * bv + j)%nat)) = sigma (nv * bv) g.
Proof.
  induction nv as [|nv IH].
  - reflexivity.
  - rewrite sigma_S, IH. cbn [Nat.mul]. rewrite (Nat.add_comm bv), sigma_split.
    reflexivity.
Qed.

(** the per-block parts add up to the sum over all [V] values *)
Lemma block_sum_total (BV V NV : Z) (f : Z -> R) :
  0 < BV -> 0 <= V <= NV * BV ->
  sigma (Z.to_nat NV) (fun i_v => block_sum BV V (Z.of_nat i_v) f)
  = sigma (Z.to_nat V) (fun j => f (Z.of_nat j)).
Proof.
  intros HBV HV. unfold block_sum.
  set (g := fun x : nat => if Z.of_nat x <? V then f (Z.of_nat x) else 0%R).
  rewrite (sigma_ext _ _ (fun i_v => sigma (Z.to_nat BV) (fun j => g (i_v * Z.to_nat BV + j)%nat))).
  - rewrite sigma_blocks. rewrite (sigma_pad (Z.to_nat V)).
    + apply sigma_ext. intros j Hj. unfold g.
      destruct (Z.ltb_spec (Z.of_nat j) V); [reflexivity | lia].
    + nia.
    + intros j Hj. unfold g. destruct (Z.ltb_spec (Z.of_nat j) V); [lia | reflexivity].
  - intros i_v _. apply sigma_ext. intros j _. unfold g.
    replace (Z.of_nat (i_v * Z.to_nat BV + j))
      with (Z.of_nat i_v * BV + Z.of_nat j) by lia.
    now rewrite (Z.add_comm (Z.of_nat j)).
Qed.

Section BwdGradients.

Variables q k v a b ha : buffer.
Variable dht : option buffer.
Variable do : buffer.
Variable h0 : option buffer.
Variable scale : R.
Variable cu_seqlens : option (list Z).
Variables B H T K V BK BV N NV : Z.
Variable out0 : Bwd.outputs.
Hypothesis OK :
  bwd_launch_ok q k v a b ha dht do h0 cu_seqlens B H T K V BK BV N NV out0.

Local Abbreviation bos := (seq_start cu_seqlens T).
Local Abbreviation len n := (Z.to_nat (seq_len cu_seqlens T n)).
Local Abbreviation row n h t := ((bos n + Z.of_nat t) * H + h).
Local Abbreviation kernel :=
  (Bwd.fused_recurrent_bwd_kernel q k v a b ha dht do h0 scale cu_seqlens
     B H T K V BK BV).
Local Abbreviation valid_k := (valid_k cu_seqlens H T K N NV).
Local Abbreviation owner_k := (owner_k H).
Local Abbreviation addr_k := (addr_k cu_seqlens B H T K).

(** the host's [sum(0)] over the per-block parts *)
Lemma sum0_covered (m : buffer) (val : Z * Z * Z * nat * Z -> R)
  (n h : Z) (t : nat) (i : Z) (f : Z -> R) :
  covered valid_k owner_k addr_k val (grid NV (N * H)) m ->
  0 <= n < N -> 0 <= h < H -> (t < len n)%nat -> 0 <= i < K ->
  (forall i_v, val (i_v, n, h, t, i) = block_sum BV V i_v f) ->
  data (sum0 NV (B * T * H * K) m) (row n h t * K + i)
  = sigma (Z.to_nat V) (fun j => f (Z.of_nat j)).
Proof.
  intros Cov Hn Hh Ht Hi Hval.
  destruct OK as (HH & HK & HBV & HV & _).
  unfold sum0; cbn [data].
  rewrite <- (block_sum_total BV V NV f HBV HV).
  apply sigma_ext. intros i_v Hv. rewrite <- Hval.
  rewrite <- (Cov (Z.of_nat i_v, n, h, t, i)).
  - unfold addr_k. f_equal. ring.
  - unfold valid_k. repeat split; auto; lia.
  - unfold owner_k. apply in_grid. split; [lia | nia].
Qed.

Lemma in_grid_v (n h j : Z) :
  0 <= n < N -> 0 <= h < H -> 0 <= j < V ->
  In (j / BV, n * H + h) (grid NV (N * H)).
Proof.
  destruct OK as (HH & HK & HBV & HV & _). intros Hn Hh Hj.
  apply in_grid. split.
  - split; [apply Z.div_pos; lia|]. apply Z.div_lt_upper_bound; lia.
  - nia.
Qed.



End BwdGradients.

(** ** The host side of the forward pass *)

Lemma lor_ge (x y : Z) : 0 <= x -> 0 <= y -> x <= Z.lor x y.
Proof.
  intros Hx Hy. pose proof (Z.add_lor_land x y) as E.
  assert (Z.land x y <= y).
  { rewrite <- (Z2N.id x), <- (Z2N.id y) by assumption.
    rewrite <- N2Z.inj_land. apply N2Z.inj_le, N.land_le_r. }
  lia.
Qed.

Lemma smear_ge (x s : Z) : 0 <= x -> 0 <= x <= Z.lor x (Z.shiftr x s).
Proof.
  intros Hx. split; [exact Hx|]. apply lor_ge; [exact Hx|].
  now apply Z.shiftr_nonneg.
Qed.

Lemma next_power_of_2_ge (n : Z) : 1 <= n -> n <= next_power_of_2 n.
Proof.
  intros Hn. unfold next_power_of_2. cbv zeta.
  pose proof (smear_ge (n - 1) 1 ltac:(lia)) as H1.
  set (n1 := Z.lor (n - 1) (Z.shiftr (n - 1) 1)) in *.
  pose proof (smear_ge n1 2 ltac:(lia)) as H2.
  set (n2 := Z.lor n1 (Z.shiftr n1 2)) in *.
  pose proof (smear_ge n2 4 ltac:(lia)) as H3.
  set (n3 := Z.lor n2 (Z.shiftr n2 4)) in *.
  pose proof (smear_ge n3 8 ltac:(lia)) as H4.
  set (n4 := Z.lor n3 (Z.shiftr n3 8)) in *.
  pose proof (smear_ge n4 16 ltac:(lia)) as H5.
  set (n5 := Z.lor n4 (Z.shiftr n4 16)) in *.
  pose proof (smear_ge n5 32 ltac:(lia)) as H6.
  lia.
Qed.

Lemma cdiv_covers (x y : Z) : 0 < y -> x <= cdiv x y * y.
Proof.
  intros Hy. unfold cdiv.
  pose proof (Z.div_mod (x + y - 1) y ltac:(lia)).
  pose proof (Z.mod_pos_bound (x + y - 1) y Hy). nia.
Qed.

(** shapes [forward] expects: [N] sequences cut out of [B * T] tokens *)
Definition forward_shapes (q k v a b : tensor) (initial_state : option tensor)
  (cu_seqlens : option (list Z)) (B T H K V N : Z) : Prop :=
  shape q = [B; T; H; K] /\ shape k = [B; T; H; K]
  /\ shape a = [B; T; H; K] /\ shape b = [B; T; H; K]
  /\ shape v = [B; T; H; V]
  /\ (forall s0, initial_state = Some s0 -> shape s0 = [N; H; K; V])
  /\ N = num_sequences B cu_seqlens
  /\ 0 < H /\ 0 < K /\ 0 <= V
  /\ segments_ok cu_seqlens T N (B * T).

Lemma forward_launch_ok (config_BV : Z) (junk : Z -> R) (q k v a b : tensor)
  (initial_state : option tensor) (output_final_state : bool)
  (cu_seqlens : option (list Z)) (B T H K V N : Z) :
  forward_shapes q k v a b initial_state cu_seqlens B T H K V N ->
  0 < config_BV ->
  (output_final_state = true -> N = B) ->
  fwd_launch_ok (as_buffer q) (as_buffer k) (as_buffer v) (as_buffer a) (as_buffer b)
    (option_map as_buffer initial_state) cu_seqlens H T K V
    (next_power_of_2 K) config_BV N (B * T) (cdiv V config_BV)
    {| Fwd.o := as_buffer (new_empty junk (shape v));
       Fwd.ha := as_buffer (new_empty junk (shape v));
       Fwd.ht := option_map as_buffer
                   (if output_final_state
                    then Some (new_empty junk [B; H; K; V]) else None) |}.
Proof.
  intros (Sq & Sk & Sa & Sb & Sv & Si & EN & HH & HK & HV & Seg) HBV HN.
  unfold fwd_launch_ok, as_buffer, new_empty; cbn [numel shape Fwd.o Fwd.ha Fwd.ht].
  rewrite Sq, Sk, Sa, Sb, Sv. cbn [size fold_right].
  pose proof (next_power_of_2_ge K ltac:(lia)).
  pose proof (cdiv_covers V config_BV HBV).
  repeat split; try lia; try assumption; try apply Seg.
  - intros m Hm. destruct initial_state as [s0|]; [|discriminate].
    injection Hm as <-. cbn [numel]. rewrite (Si s0 eq_refl). cbn [size fold_right]. ring.
  - intros m Hm. destruct output_final_state; [|discriminate].
    injection Hm as <-. cbn [numel shape size fold_right]. rewrite HN by reflexivity. ring.
Qed.

(** what a successful [forward] returns *)
Theorem forward_ok (config_BV : Z) (junk : Z -> R) (q k v a b : tensor) (scale : R)
  (initial_state : option tensor) (output_final_state : bool)
  (cu_seqlens : option (list Z)) (B T H K V N : Z) (c : nat) :
  forward_shapes q k v a b initial_state cu_seqlens B T H K V N ->
  0 < config_BV ->
  (output_final_state = true -> N = B) ->
  exists ctx o final_state,
    forward config_BV junk q k v a b scale initial_state output_final_state
      cu_seqlens c = (S c, Ok (ctx, (o, final_state)))
    /\ shape o = [B; T; H; V]
    /\ (forall n h t j, 0 <= n < N -> 0 <= h < H ->
          (t < Z.to_nat (seq_len cu_seqlens T n))%nat -> 0 <= j < V ->
          elems o (((seq_start cu_seqlens T n + Z.of_nat t) * H + h) * V + j)
          = Recurrence.out (as_buffer q) (as_buffer k) (as_buffer v) (as_buffer a)
              (as_buffer b) (option_map as_buffer initial_state) scale H K V
              (seq_start cu_seqlens T n) n h t j)
    /\ (if output_final_state
        then exists f, final_state = Some f /\ shape f = [B; H; K; V]
             /\ forall n h i j, 0 <= n < N -> 0 <= h < H -> 0 <= i < K -> 0 <= j < V ->
                  elems f ((n * H + h) * K * V + i * V + j)
                  = Recurrence.S (as_buffer k) (as_buffer v) (as_buffer a)
                      (as_buffer b) (option_map as_buffer initial_state) H K V
                      (seq_start cu_seqlens T n) n h
                      (Z.to_nat (seq_len cu_seqlens T n)) j i
        else final_state = None).
Proof.
  intros Sh HBV HN.
  pose proof (forward_launch_ok config_BV junk q k v a b initial_state
                output_final_state cu_seqlens B T H K V N Sh HBV HN) as OK.
  destruct (fwd_launch_values _ _ _ _ _ _ _ scale _ _ _ _ _ _ _ _ _ _ OK)
    as (out & E & Hnone & Hall).
  destruct Sh as (Sq & Sk & Sa & Sb & Sv & Si & EN & HH & HK & HV & Seg).
  unfold forward. rewrite Sk, Sv. cbn [rev app]. cbv zeta.
  rewrite <- EN. rewrite Sv in E. unfold hbind, launch. rewrite E.
  unfold ret. do 3 eexists. split; [reflexivity|].
  cbn [as_tensor shape elems]. split; [reflexivity|]. split.
  - intros n h t j Hn Hh Ht Hj.
    destruct (Hall n h j Hn Hh Hj) as (Ht' & _).
    destruct (Ht' t Ht) as (Ho & _). exact Ho.
  - destruct output_final_state.
    + destruct (Fwd.ht out) as [m|] eqn:Em.
      * exists (as_tensor [B; H; K; V] m). split; [reflexivity|].
        split; [reflexivity|]. intros n h i j Hn Hh Hi Hj.
        destruct (Hall n h j Hn Hh Hj) as (_ & Hf). now apply Hf.
      * destruct Hnone as [_ Hnone]. specialize (Hnone eq_refl). discriminate.
    + destruct (Fwd.ht out) as [m|] eqn:Em; [|reflexivity].
      destruct Hnone as [Hnone _]. specialize (Hnone eq_refl). discriminate.
Qed.

(** ** Carrying the state from one call to the next *)

Section Shift.

Variables k v a b k' v' a' b' : buffer.
Variables h0 h0' : option buffer.
Variables H K V : Z.
Variables bos n h bos' n' h' : Z.
Variable d : nat.
Variable L : nat.

Local Abbreviation S := (Recurrence.S k v a b h0 H K V bos n h).
Local Abbreviation S' := (Recurrence.S k' v' a' b' h0' H K V bos' n' h').

Hypothesis Hinit :
  forall j i, 0 <= j < V -> 0 <= i < K -> S' 0%nat j i = S d j i.
Hypothesis Hk :
  forall t i, (t < L)%nat -> 0 <= i < K ->
    at_ k' bos' H K h' t i = at_ k bos H K h (d + t)%nat i.
Hypothesis Ha :
  forall t i, (t < L)%nat -> 0 <= i < K ->
    at_ a' bos' H K h' t i = at_ a bos H K h (d + t)%nat i.
Hypothesis Hb :
  forall t i, (t < L)%nat -> 0 <= i < K ->
    at_ b' bos' H K h' t i = at_ b bos H K h (d + t)%nat i.
Hypothesis Hv :
  forall t j, (t < L)%nat -> 0 <= j < V ->
    at_ v' bos' H V h' t j = at_ v bos H V h (d + t)%nat j.

(** a run that starts from the state after [d] steps and sees the same rows
    goes through the same states *)
Lemma S_shift (s : nat) (j i : Z) :
  (s <= L)%nat -> 0 <= j < V -> 0 <= i < K -> S' s j i = S (d + s)%nat j i.
Proof.
  revert j i. induction s as [|s IH]; intros j i Hs Hj Hi.
  - rewrite Nat.add_0_r. now apply Hinit.
  - rewrite Nat.add_succ_r. cbn [Recurrence.S].
    rewrite IH, Hb, Hv, Hk by (auto; lia).
    f_equal. f_equal. f_equal. apply sigma_ext. intros i' Hi'.
    rewrite IH, Ha by (auto; lia). reflexivity.
Qed.

Lemma out_shift (q q' : buffer) (scale : R) (t : nat) (j : Z) :
  (forall t i, (t < L)%nat -> 0 <= i < K ->
     at_ q' bos' H K h' t i = at_ q bos H K h (d + t)%nat i) ->
  (t < L)%nat -> 0 <= j < V ->
  Recurrence.out q' k' v' a' b' h0' scale H K V bos' n' h' t j
  = Recurrence.out q k v a b h0 scale H K V bos n h (d + t)%nat j.
Proof.
  intros Hq Ht Hj. unfold Recurrence.out. apply sigma_ext. intros i Hi.
  rewrite Hq by (auto; lia).
  rewrite (S_shift (Datatypes.S t)) by (auto; lia).
  now rewrite Nat.add_succ_r.
Qed.

End Shift.

(** a row of a time slice is a row of the tensor *)
Lemma at_slice_time (x : tensor) (B T H W t0 t1 n h i : Z) (t : nat) :
  shape x = [B; T; H; W] ->
  0 <= t0 -> 0 <= n -> 0 <= h < H -> 0 <= i < W -> Z.of_nat t < t1 - t0 ->
  at_ (as_buffer (slice_time t0 t1 x)) (n * (t1 - t0)) H W h t i
  = at_ (as_buffer x) (n * T) H W h (Z.to_nat t0 + t)%nat i.
Proof.
  intros Sx Ht0 Hn Hh Hi Ht. unfold at_, as_buffer, slice_time. rewrite Sx.
  cbn [data elems]. cbv zeta.
  set (W' := (t1 - t0) * (H * W)).
  assert (HW : 0 <= (Z.of_nat t * H + h) * W + i < W').
  { unfold W'. rewrite Z.mul_assoc. apply flat_bound; [|lia].
    apply flat_bound; lia. }
  replace (((n * (t1 - t0) + Z.of_nat t) * H + h) * W + i)
    with (n * W' + ((Z.of_nat t * H + h) * W + i)) by (unfold W'; ring).
  rewrite Z.div_add_l by lia. rewrite Z.div_small by lia.
  rewrite Z.add_comm with (n := n * W'), Z.mod_add by lia.
  rewrite Z.mod_small by lia. f_equal. rewrite Nat2Z.inj_add, Z2Nat.id by lia. ring.
Qed.

Lemma slice_time_shape (x : tensor) (B T H W t0 t1 : Z) :
  shape x = [B; T; H; W] -> shape (slice_time t0 t1 x) = [B; t1 - t0; H; W].
Proof. intros Sx. unfold slice_time. now rewrite Sx. Qed.

Lemma forward_shapes_slice (q k v a b : tensor) (init init' : option tensor)
  (B T H K V t0 t1 : Z) :
  forward_shapes q k v a b init None B T H K V B ->
  0 <= t1 - t0 ->
  (forall s0, init' = Some s0 -> shape s0 = [B; H; K; V]) ->
  forward_shapes (slice_time t0 t1 q) (slice_time t0 t1 k) (slice_time t0 t1 v)
    (slice_time t0 t1 a) (slice_time t0 t1 b) init' None B (t1 - t0) H K V B.
Proof.
  intros (Sq & Sk & Sa & Sb & Sv & _ & _ & HH & HK & HV & HB & _) Ht Si.
  unfold forward_shapes.
  rewrite (slice_time_shape q B T H K), (slice_time_shape k B T H K),
    (slice_time_shape a B T H K), (slice_time_shape b B T H K),
    (slice_time_shape v B T H V) by assumption.
  repeat (split; [first [reflexivity | assumption]|]). lia.
Qed.

Section Chunks.

Variables q k v a b : tensor.
Variables B T1 T2 H K V : Z.
Hypothesis Sh : forward_shapes q k v a b None None B (T1 + T2) H K V B.
Hypothesis HT1 : 0 <= T1.
Hypothesis HT2 : 0 <= T2.

Local Abbreviation T := (T1 + T2).
Local Abbreviation first x := (slice_time 0 T1 x).
Local Abbreviation second x := (slice_time T1 T x).
Local Abbreviation Sfull n h :=
  (Recurrence.S (as_buffer k) (as_buffer v) (as_buffer a) (as_buffer b) None
     H K V (n * T) n h).

Lemma first_rows (x : tensor) (W n h i : Z) (t : nat) :
  shape x = [B; T; H; W] -> 0 <= n -> 0 <= h < H -> 0 <= i < W ->
  (t < Z.to_nat T1)%nat ->
  at_ (as_buffer (first x)) (n * T1) H W h t i
  = at_ (as_buffer x) (n * T) H W h (0 + t)%nat i.
Proof.
  intros Sx Hn Hh Hi Ht.
  pose proof (at_slice_time x B T H W 0 T1 n h i t Sx) as E.
  rewrite Z.sub_0_r in E. apply E; lia.
Qed.

Lemma second_rows (x : tensor) (W n h i : Z) (t : nat) :
  shape x = [B; T; H; W] -> 0 <= n -> 0 <= h < H -> 0 <= i < W ->
  (t < Z.to_nat T2)%nat ->
  at_ (as_buffer (second x)) (n * T2) H W h t i
  = at_ (as_buffer x) (n * T) H W h (Z.to_nat T1 + t)%nat i.
Proof.
  intros Sx Hn Hh Hi Ht.
  pose proof (at_slice_time x B T H W T1 T n h i t Sx) as E.
  replace (T - T1) with T2 in E by lia. apply E; lia.
Qed.

(** the states of the first call are the states of the whole run *)
Lemma first_states (n h : Z) (s : nat) (j i : Z) :
  0 <= n -> 0 <= h < H -> (s <= Z.to_nat T1)%nat -> 0 <= j < V -> 0 <= i < K ->
  Recurrence.S (as_buffer (first k)) (as_buffer (first v)) (as_buffer (first a))
    (as_buffer (first b)) None H K V (n * T1) n h s j i
  = Sfull n h s j i.
Proof.
  destruct Sh as (Sq & Sk & Sa & Sb & Sv & _).
  intros Hn Hh Hs Hj Hi.
  apply (S_shift _ _ _ _ _ _ _ _ None None H K V _ _ _ _ _ _ 0%nat (Z.to_nat T1));
    auto; intros; try reflexivity.
  - now apply first_rows with (W := K).
  - now apply first_rows with (W := K).
  - now apply first_rows with (W := K).
  - now apply first_rows with (W := V).
Qed.


End Chunks.

(** ** Variable-length batches *)

(** C4 (the final states). With two sequences of one token each packed into a
    batch of size 1 and [output_final_state = True], [forward] allocates the
    final state for [B = 1] sequence while the grid runs [N = 2] programs per
    head: the program of the second sequence stores its final state outside
    the buffer. *)
Theorem forward_varlen_final_state_out_of_bounds
  (eq ek ev ea eb junk : Z -> R) (scale : R) (c : nat) :
  forward 32 junk (mktensor [1; 2; 1; 1] eq) (mktensor [1; 2; 1; 1] ek)
    (mktensor [1; 2; 1; 1] ev) (mktensor [1; 2; 1; 1] ea)
    (mktensor [1; 2; 1; 1] eb) scale None true (Some [0; 1; 2]) c
  = (S c, Raise IllegalMemoryAccess).
Proof. vm_compute. reflexivity. Qed.

Lemma at_slice_segment (x : tensor) (T H W t0 t1 h i : Z) (t : nat) :
  shape x = [1; T; H; W] ->
  0 <= t0 -> 0 <= h < H -> 0 <= i < W -> Z.of_nat t < t1 - t0 ->
  at_ (as_buffer (slice_time t0 t1 x)) (0 * (t1 - t0)) H W h t i
  = at_ (as_buffer x) t0 H W h (0 + t)%nat i.
Proof.
  intros Sx Ht0 Hh Hi Ht.
  rewrite (at_slice_time x 1 T H W t0 t1 0 h i t Sx) by lia.
  unfold at_.
  replace (0 * T + Z.of_nat (Z.to_nat t0 + t)) with (t0 + Z.of_nat (0 + t)) by lia.
  reflexivity.
Qed.


(** * The entry point: scale and segment checks *)

Lemma pow_neg_half_sqrt (K : Z) :
  0 < K -> (Rpower (IZR K) (- / 2) = / sqrt (IZR K))%R.
Proof.
  intros HK. assert (0 < IZR K)%R by (apply IZR_lt; lia).
  rewrite Rpower_Ropp, Rpower_sqrt by assumption. reflexivity.
Qed.

Lemma check_cu_seqlens_counter (q : tensor) (initial_state : option tensor)
  (cu_seqlens : option (list Z)) (c : nat) :
  fst (check_cu_seqlens q initial_state cu_seqlens c) = c.
Proof.
  unfold check_cu_seqlens, raise, ret.
  destruct cu_seqlens as [cu|]; [|reflexivity].
  destruct (shape q) as [|B rest]; [reflexivity|].
  destruct (negb (B =? 1)); [reflexivity|].
  destruct initial_state as [s0|]; [|reflexivity].
  destruct (shape s0) as [|n_states r]; [reflexivity|].
  destruct (negb _); reflexivity.
Qed.

(** C7 (scale): with [scale=None] the entry point runs the forward pass with
    the scale [K^-0.5 = 1/sqrt K], [K] the last dimension of [q]; with a
    provided scale that is not positive the call ends in an error and the
    launch counter is where it was, so no kernel ran; a provided positive
    scale reaches the forward pass as it is. *)
Theorem scale_default_and_check
  (config_BV : Z) (junk : Z -> R) (q k v a b : tensor)
  (initial_state : option tensor) (output_final_state : bool)
  (cu_seqlens : option (list Z)) (K : Z) (dims : list Z) :
  shape q = dims ++ [K] -> 0 < K ->
  (forall c,
     fused_recurrent_iplr_delta_rule config_BV junk q k v a b None initial_state
       output_final_state cu_seqlens c
     = (_ <~ check_cu_seqlens q initial_state cu_seqlens ;;
        r <~ forward config_BV junk q k v a b (Rpower (IZR K) (- / 2))
               initial_state output_final_state cu_seqlens ;;
        ret (snd r)) c)
  /\ (Rpower (IZR K) (- / 2) = / sqrt (IZR K))%R
  /\ (forall s c, (s <= 0)%R ->
        exists e,
          fused_recurrent_iplr_delta_rule config_BV junk q k v a b (Some s)
            initial_state output_final_state cu_seqlens c = (c, Raise e))
  /\ (forall s c, (0 < s)%R ->
        fused_recurrent_iplr_delta_rule config_BV junk q k v a b (Some s)
          initial_state output_final_state cu_seqlens c
        = (_ <~ check_cu_seqlens q initial_state cu_seqlens ;;
           r <~ forward config_BV junk q k v a b s initial_state
                  output_final_state cu_seqlens ;;
           ret (snd r)) c).
Proof.
  intros Sq HK. repeat split.
  - intros c. unfold fused_recurrent_iplr_delta_rule, hbind.
    destruct (check_cu_seqlens q initial_state cu_seqlens c) as [c' [[]|e]];
      [|reflexivity].
    unfold effective_scale. rewrite Sq, rev_app_distr. simpl.
    unfold lift, pow_neg_half.
    destruct (Z.eqb_spec K 0) as [E|_]; [lia|]. reflexivity.
  - apply pow_neg_half_sqrt, HK.
  - intros s c Hs. unfold fused_recurrent_iplr_delta_rule, hbind.
    pose proof (check_cu_seqlens_counter q initial_state cu_seqlens c) as Hc.
    destruct (check_cu_seqlens q initial_state cu_seqlens c) as [c' [[]|e]];
      simpl in Hc; subst c'.
    + unfold effective_scale. destruct (Rlt_dec 0 s) as [L|_]; [lra|].
      exists AssertionError. reflexivity.
    + exists e. reflexivity.
  - intros s c Hs. unfold fused_recurrent_iplr_delta_rule, hbind.
    destruct (check_cu_seqlens q initial_state cu_seqlens c) as [c' [[]|e]];
      [|reflexivity].
    unfold effective_scale. destruct (Rlt_dec 0 s) as [_|L]; [|lra].
    reflexivity.
Qed.

Lemma scale_default_and_check_witness :
  shape (mktensor [1; 1; 1; 4] (fun _ => 1%R)) = [1; 1; 1] ++ [4] /\ 0 < 4 /\
  (Rpower (IZR 4) (- / 2) = / sqrt (IZR 4))%R.
Proof.
  split; [reflexivity|]. split; [lia|].
  apply (scale_default_and_check 1 (fun _ => 0%R)
           (mktensor [1; 1; 1; 4] (fun _ => 1%R))
           (mktensor [1; 1; 1; 4] (fun _ => 1%R))
           (mktensor [1; 1; 1; 1] (fun _ => 1%R))
           (mktensor [1; 1; 1; 4] (fun _ => 1%R))
           (mktensor [1; 1; 1; 4] (fun _ => 1%R))
           None false None 4 [1; 1; 1]); [reflexivity|lia].
Defined.

(** C8 (segment checks): when [cu_seqlens] is given and the batch dimension of
    [q] is not 1, or an initial state is given whose first dimension is not
    [len(cu_seqlens) - 1], the entry point raises [ValueError] with the launch
    counter where it was: no kernel ran and nothing was allocated or
    written. *)
Theorem cu_seqlens_rejected_before_launch
  (config_BV : Z) (junk : Z -> R) (q k v a b : tensor) (scale : option R)
  (initial_state : option tensor) (output_final_state : bool) (cu : list Z)
  (B : Z) (dims : list Z) (c : nat) :
  shape q = B :: dims ->
  (B <> 1 \/
   exists s0 n_states r,
     initial_state = Some s0 /\ shape s0 = n_states :: r /\
     n_states <> Z.of_nat (length cu) - 1) ->
  fused_recurrent_iplr_delta_rule config_BV junk q k v a b scale initial_state
    output_final_state (Some cu) c = (c, Raise ValueError).
Proof.
  intros Sq Bad.
  unfold fused_recurrent_iplr_delta_rule, hbind, check_cu_seqlens.
  rewrite Sq.
  destruct (Z.eqb_spec B 1) as [E|NE]; simpl.
  - destruct Bad as [NB|(s0 & n_states & r & -> & Ss & Hn)]; [contradiction|].
    rewrite Ss. destruct (Z.eqb_spec n_states (Z.of_nat (length cu) - 1));
      [contradiction|reflexivity].
  - reflexivity.
Qed.

Lemma cu_seqlens_rejected_before_launch_witness :
  fused_recurrent_iplr_delta_rule 1 (fun _ => 0%R)
    (mktensor [2; 2; 1; 1] (fun _ => 1%R)) (mktensor [2; 2; 1; 1] (fun _ => 1%R))
    (mktensor [2; 2; 1; 1] (fun _ => 1%R)) (mktensor [2; 2; 1; 1] (fun _ => 1%R))
    (mktensor [2; 2; 1; 1] (fun _ => 1%R)) None None false (Some [0; 2; 4]) 0%nat
  = (0%nat, Raise ValueError).
Proof.
  apply (cu_seqlens_rejected_before_launch 1 (fun _ => 0%R)
           (mktensor [2; 2; 1; 1] (fun _ => 1%R)) _ _ _ _ None None false
           [0; 2; 4] 2 [2; 1; 1] 0%nat); [reflexivity|left; lia].
Defined.

(** * The Gated Slot Attention layer *)

Lemma logsigmoid_neg (x : R) : (GSA.logsigmoid x < 0)%R.
Proof.
  unfold GSA.logsigmoid.
  pose proof (exp_pos (- x)) as He.
  assert (0 < ln (1 + exp (- x)))%R; [|lra].
  rewrite <- ln_1. apply ln_increasing; lra.
Qed.



Section GSAForward.

Context {Cache State ConvState Indices : Type}.
Context {collaborators : GSA.Collaborators Cache State ConvState Indices}.

Variable self : GSA.config.

(** C10 (attention slot): [forward] gives the same result whatever
    [output_attentions] is; whenever it returns, the second component of the
    triple is [None]; and it does return, with [None] there, on a single-step
    input without mask or cache. *)
Theorem forward_attentions_none
  (hidden_states : tensor) (attention_mask : option tensor)
  (past_key_values : option Cache) (use_cache : bool)
  (cu_seqlens : option (list Z)) :
  (forall output_attentions output_attentions',
     GSA.forward self hidden_states attention_mask past_key_values use_cache
       output_attentions cu_seqlens
     = GSA.forward self hidden_states attention_mask past_key_values use_cache
         output_attentions' cu_seqlens)
  /\ (forall output_attentions,
        match GSA.forward self hidden_states attention_mask past_key_values
                use_cache output_attentions cu_seqlens with
        | Ok (_, attentions, _) => attentions = None
        | Raise _ => True
        end)
  /\ (forall output_attentions B D dat,
        exists o,
          GSA.forward self (mktensor [B; 1; D] dat) None None use_cache
            output_attentions cu_seqlens = Ok (o, None, None)).
Proof.
  repeat split.
  - intros output_attentions.
    unfold GSA.forward, bind.
    repeat match goal with
           | |- context [match ?x with _ => _ end] =>
               lazymatch x with
               | context [match _ with _ => _ end] => fail
               | _ => destruct x
               end
           end; auto.
  - intros output_attentions B D dat.
    unfold GSA.forward, bind. cbn [shape length Z.of_nat].
    change (1 <=? 64) with true. cbv iota.
    repeat match goal with
           | |- context [match ?x with _ => _ end] =>
               lazymatch x with
               | context [match _ with _ => _ end] => fail
               | _ => destruct x
               end
           end; eexists; reflexivity.
Qed.

End GSAForward.

(** * The theorems at a concrete launch

    One sequence, one head, one key and one value channel, every element 1. *)

Definition unit_buffer : buffer := mkbuffer 1 (fun _ => 1%R).

Definition unit_tensor (T : Z) : tensor := mktensor [1; T; 1; 1] (fun _ => 1%R).

Definition unit_bwd_outputs : Bwd.outputs :=
  Bwd.mkoutputs unit_buffer unit_buffer unit_buffer unit_buffer unit_buffer
    unit_buffer None.


Lemma unit_bwd_launch_ok :
  bwd_launch_ok unit_buffer unit_buffer unit_buffer unit_buffer unit_buffer
    unit_buffer None unit_buffer None None 1 1 1 1 1 1 1 1 1 unit_bwd_outputs.
Proof.
  unfold bwd_launch_ok, segments_ok. simpl.
  repeat split; try lia; intros; discriminate.
Defined.





(** * The autograd function, forward then backward *)

(** what [forward] saves for the backward pass and returns *)
Lemma forward_saved (config_BV : Z) (junk : Z -> R) (q k v a b : tensor) (scale : R)
  (initial_state : option tensor) (output_final_state : bool)
  (cu_seqlens : option (list Z)) (B T H K V N : Z) (c : nat) :
  forward_shapes q k v a b initial_state cu_seqlens B T H K V N ->
  0 < config_BV ->
  (output_final_state = true -> N = B) ->
  exists o ha final_state,
    forward config_BV junk q k v a b scale initial_state output_final_state
      cu_seqlens c
    = (S c, Ok ({| saved_q := q; saved_k := k; saved_v := v; saved_a := a;
                   saved_b := b; saved_ha := ha;
                   saved_initial_state := initial_state;
                   ctx_scale := scale; ctx_cu_seqlens := cu_seqlens |},
                (o, final_state)))
    /\ shape o = [B; T; H; V] /\ shape ha = [B; T; H; V]
    /\ (forall n h t j, 0 <= n < N -> 0 <= h < H ->
          (t < Z.to_nat (seq_len cu_seqlens T n))%nat -> 0 <= j < V ->
          elems o (((seq_start cu_seqlens T n + Z.of_nat t) * H + h) * V + j)
          = Recurrence.out (as_buffer q) (as_buffer k) (as_buffer v) (as_buffer a)
              (as_buffer b) (option_map as_buffer initial_state) scale H K V
              (seq_start cu_seqlens T n) n h t j
          /\ elems ha (((seq_start cu_seqlens T n + Z.of_nat t) * H + h) * V + j)
             = Recurrence.tmp (as_buffer k) (as_buffer v) (as_buffer a)
                 (as_buffer b) (option_map as_buffer initial_state) H K V
                 (seq_start cu_seqlens T n) n h t j)
    /\ (if output_final_state
        then exists f, final_state = Some f /\ shape f = [B; H; K; V]
             /\ forall n h i j, 0 <= n < N -> 0 <= h < H -> 0 <= i < K -> 0 <= j < V ->
                  elems f ((n * H + h) * K * V + i * V + j)
                  = Recurrence.S (as_buffer k) (as_buffer v) (as_buffer a)
                      (as_buffer b) (option_map as_buffer initial_state) H K V
                      (seq_start cu_seqlens T n) n h
                      (Z.to_nat (seq_len cu_seqlens T n)) j i
        else final_state = None).
Proof.
  intros Sh HBV HN.
  pose proof (forward_launch_ok config_BV junk q k v a b initial_state
                output_final_state cu_seqlens B T H K V N Sh HBV HN) as OK.
  destruct (fwd_launch_values _ _ _ _ _ _ _ scale _ _ _ _ _ _ _ _ _ _ OK)
    as (out & E & Hnone & Hall).
  destruct Sh as (Sq & Sk & Sa & Sb & Sv & Si & EN & HH & HK & HV & Seg).
  unfold forward. rewrite Sk, Sv. cbn [rev app]. cbv zeta.
  rewrite <- EN. rewrite Sv in E. unfold hbind, launch. rewrite E.
  unfold ret. do 3 eexists. split; [reflexivity|].
  cbn [as_tensor shape elems]. split; [reflexivity|]. split; [reflexivity|]. split.
  - intros n h t j Hn Hh Ht Hj.
    destruct (Hall n h j Hn Hh Hj) as (Ht' & _). now apply Ht'.
  - destruct output_final_state.
    + destruct (Fwd.ht out) as [m|] eqn:Em.
      * exists (as_tensor [B; H; K; V] m). split; [reflexivity|].
        split; [reflexivity|]. intros n h i j Hn Hh Hi Hj.
        destruct (Hall n h j Hn Hh Hj) as (_ & Hf). now apply Hf.
      * destruct Hnone as [_ Hnone]. specialize (Hnone eq_refl). discriminate.
    + destruct (Fwd.ht out) as [m|] eqn:Em; [|reflexivity].
      destruct Hnone as [Hnone _]. specialize (Hnone eq_refl). discriminate.
Qed.

(** shapes [backward] expects of what was saved and of the incoming gradients *)
Definition backward_shapes (ctx : context) (do : tensor) (dht : option tensor)
  (B T H K V N : Z) : Prop :=
  forward_shapes (saved_q ctx) (saved_k ctx) (saved_v ctx) (saved_a ctx)
    (saved_b ctx) (saved_initial_state ctx) (ctx_cu_seqlens ctx) B T H K V N
  /\ shape (saved_ha ctx) = [B; T; H; V]
  /\ shape do = [B; T; H; V]
  /\ (forall d, dht = Some d -> shape d = [N; H; K; V])
  /\ 0 < V.

Lemma backward_block (V : Z) : 0 < V -> 0 < Z.min (next_power_of_2 V) 64.
Proof. intros HV. pose proof (next_power_of_2_ge V ltac:(lia)). lia. Qed.

Lemma backward_launch_ok (junk : Z -> R) (ctx : context) (requires_grad : bool)
  (do : tensor) (dht : option tensor) (B T H K V N : Z) :
  backward_shapes ctx do dht B T H K V N ->
  let BV := Z.min (next_power_of_2 V) 64 in
  bwd_launch_ok (as_buffer (saved_q ctx)) (as_buffer (saved_k ctx))
    (as_buffer (saved_v ctx)) (as_buffer (saved_a ctx)) (as_buffer (saved_b ctx))
    (as_buffer (saved_ha ctx)) (option_map as_buffer dht) (as_buffer do)
    (option_map as_buffer (saved_initial_state ctx)) (ctx_cu_seqlens ctx)
    B H T K V (next_power_of_2 K) BV N (cdiv V BV)
    {| Bwd.dq := as_buffer (new_empty junk (cdiv V BV :: [B; T; H; K]));
       Bwd.dk := as_buffer (new_empty junk (cdiv V BV :: [B; T; H; K]));
       Bwd.dv := as_buffer (new_empty junk [B; T; H; V]);
       Bwd.da := as_buffer (new_empty junk (cdiv V BV :: [B; T; H; K]));
       Bwd.db := as_buffer (new_empty junk (cdiv V BV :: [B; T; H; K]));
       Bwd.dha := as_buffer (new_empty junk [B; T; H; V]);
       Bwd.dh0 :=
         option_map as_buffer
           match saved_initial_state ctx with
           | Some s0 => if requires_grad then Some (new_empty junk (shape s0)) else None
           | None => None
           end |}.
Proof.
  intros ((Sq & Sk & Sa & Sb & Sv & Si & EN & HH & HK & HV & Seg) & Sha & Sdo & Sd & HV')
    BV.
  pose proof (backward_block V HV') as HBV. fold BV in HBV.
  pose proof (next_power_of_2_ge K ltac:(lia)).
  pose proof (cdiv_covers V BV HBV).
  unfold bwd_launch_ok, as_buffer, new_empty;
    cbn [numel shape Bwd.dq Bwd.dk Bwd.dv Bwd.da Bwd.db Bwd.dha Bwd.dh0].
  rewrite Sq, Sk, Sa, Sb, Sv, Sha, Sdo. cbn [size fold_right].
  repeat split; try lia; try assumption; try apply Seg.
  - intros m Hm. destruct dht as [d|]; [|discriminate].
    injection Hm as <-. cbn [numel]. rewrite (Sd d eq_refl). cbn [size fold_right]. ring.
  - intros m Hm. destruct (saved_initial_state ctx) as [s0|]; [|discriminate].
    injection Hm as <-. cbn [numel]. rewrite (Si s0 eq_refl). cbn [size fold_right]. ring.
  - intros m Hm. destruct (saved_initial_state ctx) as [s0|]; [|discriminate].
    destruct requires_grad; [|discriminate].
    injection Hm as <-. cbn [numel shape]. rewrite (Si s0 eq_refl).
    cbn [size fold_right]. ring.
Qed.

(** what a successful [backward] returns: one launch, gradients with the
    shapes of the inputs, holding the sums of the backward recurrences *)
Lemma backward_ok (junk : Z -> R) (ctx : context) (requires_grad : bool)
  (do : tensor) (dht : option tensor) (B T H K V N : Z) (c : nat) :
  backward_shapes ctx do dht B T H K V N ->
  let q := as_buffer (saved_q ctx) in
  let k := as_buffer (saved_k ctx) in
  let v := as_buffer (saved_v ctx) in
  let a := as_buffer (saved_a ctx) in
  let b := as_buffer (saved_b ctx) in
  let ha := as_buffer (saved_ha ctx) in
  let h0 := option_map as_buffer (saved_initial_state ctx) in
  let g := as_buffer do in
  let gt := option_map as_buffer dht in
  let scale := ctx_scale ctx in
  let cu := ctx_cu_seqlens ctx in
  exists dq dk dv da db dh0,
    backward junk ctx requires_grad do dht c = (S c, Ok (dq, dk, dv, da, db, dh0))
    /\ (shape dq = [B; T; H; K] /\ shape dk = [B; T; H; K] /\ shape dv = [B; T; H; V]
        /\ shape da = [B; T; H; K] /\ shape db = [B; T; H; K])
    /\ (forall n h t, 0 <= n < N -> 0 <= h < H ->
          (t < Z.to_nat (seq_len cu T n))%nat ->
          let bos := seq_start cu T n in
          let L := Z.to_nat (seq_len cu T n) in
          let row := (bos + Z.of_nat t) * H + h in
          (forall i, 0 <= i < K ->
             elems dq (row * K + i)
             = Recurrence.dq_ k v b ha g h0 scale H K V bos n h t i
             /\ elems dk (row * K + i)
                = Recurrence.dk_ q v a b g gt scale H K V bos n h L t i
             /\ elems da (row * K + i)
                = Recurrence.da_ q k v a b ha g gt h0 scale H K V bos n h L t i
             /\ elems db (row * K + i)
                = Recurrence.db_ q a b ha g gt scale H K V bos n h L t i)
          /\ (forall j, 0 <= j < V ->
                elems dv (row * V + j)
                = Recurrence.dv_ q k a b g gt scale H K V bos n h L t j))
    /\ match saved_initial_state ctx with
       | Some s0 =>
           if requires_grad
           then exists m, dh0 = Some m /\ shape m = [N; H; K; V]
                /\ forall n h i j, 0 <= n < N -> 0 <= h < H ->
                     0 <= i < K -> 0 <= j < V ->
                     elems m ((n * H + h) * K * V + i * V + j)
                     = Recurrence.adjoint q a b g gt scale H K V
                         (seq_start cu T n) n h (Z.to_nat (seq_len cu T n))
                         (Z.to_nat (seq_len cu T n)) i j
           else dh0 = None
       | None => dh0 = None
       end.
Proof.
  intros Sh q k v a b ha h0 g gt scale cu.
  pose proof (backward_launch_ok junk ctx requires_grad do dht B T H K V N Sh) as OK.
  cbv zeta in OK.
  destruct Sh as ((Sq & Sk & Sa & Sb & Sv & Si & EN & HH & HK & HV & Seg)
                  & Sha & Sdo & Sd & HV').
  pose proof (backward_block V HV') as HBV.
  set (BV := Z.min (next_power_of_2 V) 64) in *.
  set (NV := cdiv V BV) in *.
  destruct (bwd_launch_done _ _ _ _ _ _ _ _ _ scale _ _ _ _ _ _ _ _ _ _ _ OK)
    as (out & E & (_ & _ & _ & _ & _ & _ & _ & Hnone
                   & Cdk & Cdb & Cda & Cdq & Cdv & _ & Cdh0)).
  unfold backward. rewrite Sq, Sk, Sa, Sb, Sv, Sha. cbn [rev app]. cbv zeta.
  fold BV. unfold hbind at 1.
  destruct (Z.eqb_spec BV 0) as [E0|_]; [lia|]. unfold ret at 1.
  fold NV. rewrite <- EN. unfold hbind, launch.
  fold q k v a b ha h0 g gt scale cu in E |- *. rewrite E. unfold ret.
  do 6 eexists. split; [reflexivity|].
  cbn [as_tensor shape elems size fold_right].
  split; [repeat split; reflexivity|]. split.
  - intros n h t Hn Hh Ht.
    set (bos := seq_start cu T n). set (L := Z.to_nat (seq_len cu T n)) in *.
    replace (B * (T * (H * (K * 1)))) with (B * T * H * K) by ring.
    split.
    + intros i Hi. repeat split.
      * transitivity
          (sigma (Z.to_nat V)
             (fun j => scale * (Recurrence.rebuilt k v b ha h0 H K V bos n h
                                  (Datatypes.S t) i (Z.of_nat j)
                                * at_ g bos H V h t (Z.of_nat j)))%R).
        -- apply (sum0_covered _ _ _ _ _ _ _ _ _ _ _ _ _ _ _ _ _ _ _ _ OK
                    (Bwd.dq out) _ n h t i
                    (fun j => scale * (Recurrence.rebuilt k v b ha h0 H K V bos n h
                                         (Datatypes.S t) i j
                                       * at_ g bos H V h t j))%R Cdq); auto.
           intros i_v. unfold val_dq. rewrite Rmult_comm. unfold block_sum.
           rewrite <- sigma_scal. apply sigma_ext. intros j _.
           destruct (Z.of_nat j + i_v * BV <? V); [reflexivity | lra].
        -- rewrite sigma_scal. apply Rmult_comm.
      * apply (sum0_covered _ _ _ _ _ _ _ _ _ _ _ _ _ _ _ _ _ _ _ _ OK
                 (Bwd.dk out) _ n h t i
                 (fun j => Recurrence.dS q a b g gt scale H K V bos n h L t i j
                           * at_ v bos H V h t j)%R Cdk); auto.
      * apply (sum0_covered _ _ _ _ _ _ _ _ _ _ _ _ _ _ _ _ _ _ _ _ OK
                 (Bwd.da out) _ n h t i
                 (fun j => Recurrence.dha_ q a b g gt scale H K V bos n h L t j
                           * Recurrence.rebuilt k v b ha h0 H K V bos n h t i j)%R
                 Cda); auto.
      * apply (sum0_covered _ _ _ _ _ _ _ _ _ _ _ _ _ _ _ _ _ _ _ _ OK
                 (Bwd.db out) _ n h t i
                 (fun j => Recurrence.dS q a b g gt scale H K V bos n h L t i j
                           * at_ ha bos H V h t j)%R Cdb); auto.
    + intros j Hj.
      apply (Cdv (n, h, t, j)); [unfold valid_v; auto|].
      apply (in_grid_v _ _ _ _ _ _ _ _ _ _ _ _ _ _ _ _ _ _ _ _ OK); auto.
  - unfold h0 in *. destruct (saved_initial_state ctx) as [s0|]; [|reflexivity].
    destruct requires_grad; cbn [option_map] in *.
    + destruct (Bwd.dh0 out) as [m|] eqn:Em.
      * exists (as_tensor (shape s0) m). split; [reflexivity|].
        cbn [as_tensor shape elems]. split; [now apply Si|].
        intros n h i j Hn Hh Hi Hj.
        apply (Cdh0 m eq_refl (n, h, i, j)); [unfold valid_h; auto|].
        apply (in_grid_v _ _ _ _ _ _ _ _ _ _ _ _ _ _ _ _ _ _ _ _ OK); auto.
      * destruct Hnone as [_ Hnone]. specialize (Hnone eq_refl). discriminate.
    + destruct (Bwd.dh0 out) as [m|] eqn:Em; [|reflexivity].
      destruct Hnone as [Hnone _]. specialize (Hnone eq_refl). discriminate.
Qed.

(** * The backward recurrence is the adjoint of the forward recurrence *)

Lemma sigma_scal_r (n : nat) (c : R) (f : nat -> R) :
  sigma n (fun i => f i * c)%R = (sigma n f * c)%R.
Proof.
  rewrite Rmult_comm, <- sigma_scal. apply sigma_ext. intros i _. apply Rmult_comm.
Qed.

Lemma sigma_minus (n : nat) (f g : nat -> R) :
  sigma n (fun i => f i - g i)%R = (sigma n f - sigma n g)%R.
Proof.
  induction n as [|n IH].
  - simpl. lra.
  - rewrite !sigma_S, IH. lra.
Qed.

Lemma sigma_first (n : nat) (f : nat -> R) :
  sigma (S n) f = (f 0%nat + sigma n (fun i => f (S i)))%R.
Proof.
  induction n as [|n IH].
  - simpl. lra.
  - rewrite sigma_S, IH, sigma_S. lra.
Qed.

(** a sum whose terms vanish except at [t0] *)
Lemma sigma_single (n t0 : nat) (f : nat -> R) :
  (t0 < n)%nat -> (forall t, (t < n)%nat -> t <> t0 -> f t = 0%R) ->
  sigma n f = f t0.
Proof.
  induction n as [|n IH]; intros Ht Z0; [lia|].
  rewrite sigma_S. destruct (Nat.eq_dec t0 n) as [->|Ne].
  - rewrite sigma_zero; [lra|]. intros i Hi. apply Z0; lia.
  - rewrite IH, (Z0 n) by (auto; lia). lra.
Qed.

(** [<D, X>] of an adjoint [D], indexed (key, value), with a state [X],
    indexed (value, key) *)
Definition pairing (K V : Z) (D X : Z -> Z -> R) : R :=
  sigma (Z.to_nat K)
    (fun i => sigma (Z.to_nat V)
                (fun j => D (Z.of_nat i) (Z.of_nat j) * X (Z.of_nat j) (Z.of_nat i)))%R.

Lemma pairing_ext (K V : Z) (D D' X X' : Z -> Z -> R) :
  (forall i j, 0 <= i < K -> 0 <= j < V -> D i j = D' i j) ->
  (forall i j, 0 <= i < K -> 0 <= j < V -> X j i = X' j i) ->
  pairing K V D X = pairing K V D' X'.
Proof.
  intros ED EX. unfold pairing.
  apply sigma_ext. intros i Hi. apply sigma_ext. intros j Hj.
  rewrite ED, EX by lia. reflexivity.
Qed.

Lemma pairing_zero (K V : Z) (D X : Z -> Z -> R) :
  (forall i j, 0 <= i < K -> 0 <= j < V -> X j i = 0%R) -> pairing K V D X = 0%R.
Proof.
  intros EX. unfold pairing.
  apply sigma_zero. intros i Hi. apply sigma_zero. intros j Hj.
  rewrite EX by lia. lra.
Qed.

(** the homogeneous part of one step of the state recurrence:
    [X (I + a_t b_t^T)] *)
Definition propagate (a b : buffer) (bos H K h : Z) (t : nat) (X : Z -> Z -> R)
  (j i : Z) : R :=
  (X j i
   + sigma (Z.to_nat K) (fun i' => X j (Z.of_nat i') * at_ a bos H K h t (Z.of_nat i'))
     * at_ b bos H K h t i)%R.

(** [<D, X + (X a) b^T> = <D + a (D^T b)^T, X>] *)
Lemma fold_identity (Kn Vn : nat) (d x : nat -> nat -> R) (av bv : nat -> R) :
  sigma Kn (fun i => sigma Vn
              (fun j => d i j * (x j i + sigma Kn (fun i' => x j i' * av i') * bv i)))%R
  = sigma Kn (fun i => sigma Vn
                (fun j => (d i j + av i * sigma Kn (fun i' => d i' j * bv i')) * x j i))%R.
Proof.
  transitivity
    (sigma Kn (fun i => sigma Vn (fun j => d i j * x j i))
     + sigma Vn (fun j => sigma Kn (fun i => d i j * bv i)
                          * sigma Kn (fun i' => x j i' * av i')))%R.
  - rewrite (sigma_ext _ _
               (fun i => sigma Vn (fun j => d i j * x j i)
                         + sigma Vn (fun j => d i j * bv i
                                              * sigma Kn (fun i' => x j i' * av i')))%R).
    + rewrite sigma_plus. f_equal. rewrite sigma_swap.
      apply sigma_ext. intros j _. now rewrite sigma_scal_r.
    + intros i _. rewrite <- sigma_plus. apply sigma_ext. intros j _. ring.
  - symmetry.
    rewrite (sigma_ext Kn
               (fun i => sigma Vn
                           (fun j => (d i j
                                      + av i * sigma Kn (fun i' => d i' j * bv i'))
                                     * x j i))%R
               (fun i => sigma Vn (fun j => d i j * x j i)
                         + sigma Vn (fun j => sigma Kn (fun i' => d i' j * bv i')
                                              * (x j i * av i)))%R).
    + rewrite sigma_plus. f_equal. rewrite sigma_swap.
      apply sigma_ext. intros j _. now rewrite sigma_scal.
    + intros i _. rewrite <- sigma_plus. apply sigma_ext. intros j _. ring.
Qed.

Section Adjoint.

Variables q a b do : buffer.
Variable dht : option buffer.
Variable scale : R.
Variables H K V : Z.
Variable bos : Z.
Variables n h : Z.
Variable L : nat.

Local Abbreviation adjoint := (Recurrence.adjoint q a b do dht scale H K V bos n h L).
Local Abbreviation dS := (Recurrence.dS q a b do dht scale H K V bos n h L).
Local Abbreviation step := (propagate a b bos H K h).

(** what a change [Y] of the state after step [t] adds to
    [<do_t, o_t>] *)
Definition through_output (t : nat) (Y : Z -> Z -> R) : R :=
  sigma (Z.to_nat V)
    (fun j => at_ do bos H V h t (Z.of_nat j)
              * sigma (Z.to_nat K)
                  (fun i => Y (Z.of_nat j) (Z.of_nat i)
                            * (at_ q bos H K h t (Z.of_nat i) * scale)))%R.

Lemma pairing_dS (t : nat) (Y : Z -> Z -> R) :
  pairing K V (dS t) Y
  = (pairing K V (adjoint (L - 1 - t)) Y + through_output t Y)%R.
Proof.
  unfold pairing, through_output, Recurrence.dS, Recurrence.add_q.
  rewrite (sigma_ext _ _
             (fun i => sigma (Z.to_nat V)
                         (fun j => adjoint (L - 1 - t) (Z.of_nat i) (Z.of_nat j)
                                   * Y (Z.of_nat j) (Z.of_nat i))
                       + sigma (Z.to_nat V)
                           (fun j => at_ do bos H V h t (Z.of_nat j)
                                     * (Y (Z.of_nat j) (Z.of_nat i)
                                        * (at_ q bos H K h t (Z.of_nat i) * scale))))%R).
  - rewrite sigma_plus. f_equal. rewrite sigma_swap.
    apply sigma_ext. intros j _. now rewrite sigma_scal.
  - intros i _. rewrite <- sigma_plus. apply sigma_ext. intros j _. ring.
Qed.

Lemma pairing_fold (t : nat) (X : Z -> Z -> R) :
  (t < L)%nat ->
  pairing K V (dS t) (step t X) = pairing K V (adjoint (L - t)) X.
Proof.
  intros Ht. replace (L - t)%nat with (S (L - 1 - t)) by lia.
  cbn [Recurrence.adjoint]. replace (L - 1 - (L - 1 - t))%nat with t by lia.
  unfold pairing, propagate, Recurrence.fold_a, Recurrence.dha_of.
  fold (dS t).
  apply (fold_identity (Z.to_nat K) (Z.to_nat V)
           (fun i j => dS t (Z.of_nat i) (Z.of_nat j))
           (fun j i => X (Z.of_nat j) (Z.of_nat i))
           (fun i => at_ a bos H K h t (Z.of_nat i))
           (fun i => at_ b bos H K h t (Z.of_nat i))).
Qed.

(** A change of the state that, from step [t] on, only propagates through
    the recurrence reaches the objective [sum_t <do_t, o_t> + <dht, S_L>] as
    its pairing with the adjoint handed to step [t - 1]. *)
Lemma adjoint_telescope (X : nat -> Z -> Z -> R) (d t : nat) :
  (t + d = L)%nat ->
  (forall s j i, (t <= s < L)%nat -> 0 <= j < V -> 0 <= i < K ->
     X (S s) j i = step s (X s) j i) ->
  (sigma d (fun r => through_output (t + r) (X (S (t + r))))
   + pairing K V (adjoint 0) (X L))%R
  = pairing K V (adjoint (L - t)) (X t).
Proof.
  revert t. induction d as [|d IH]; intros t Hd Hstep.
  - replace t with L by lia. rewrite Nat.sub_diag. simpl. lra.
  - rewrite sigma_first, Nat.add_0_r.
    rewrite (sigma_ext _ _ (fun r => through_output (S t + r) (X (S (S t + r))))).
    2:{ intros r _. now rewrite Nat.add_succ_r. }
    rewrite Rplus_assoc, (IH (S t)) by (auto; try lia; intros; apply Hstep; auto; lia).
    replace (L - S t)%nat with (L - 1 - t)%nat by lia.
    rewrite Rplus_comm, <- pairing_dS.
    rewrite <- pairing_fold by lia.
    apply pairing_ext; [reflexivity|]. intros i j Hi Hj. apply Hstep; auto; lia.
Qed.

End Adjoint.

(** ** Two runs of the forward recurrence *)

(** the state the second pass rebuilds from the cached [ha] is the forward state *)
Lemma rebuilt_is_state (k v a b ha : buffer) (h0 : option buffer)
  (H K V bos n h : Z) (L : nat) :
  (forall t j, (t < L)%nat -> 0 <= j < V ->
     at_ ha bos H V h t j = Recurrence.tmp k v a b h0 H K V bos n h t j) ->
  forall t i j, (t <= L)%nat -> 0 <= i < K -> 0 <= j < V ->
    Recurrence.rebuilt k v b ha h0 H K V bos n h t i j
    = Recurrence.S k v a b h0 H K V bos n h t j i.
Proof.
  intros Hha t. induction t as [|t IH]; intros i j Ht Hi Hj.
  - reflexivity.
  - cbn [Recurrence.rebuilt Recurrence.S].
    rewrite IH, Hha by (auto; lia). unfold Recurrence.tmp. ring.
Qed.

Section Perturb.

Variables q k v a b q' k' v' a' b' do : buffer.
Variables h0 h0' dht : option buffer.
Variable scale : R.
Variables H K V : Z.
Variable bos : Z.
Variables n h : Z.
Variable L : nat.

Local Abbreviation S0 := (Recurrence.S k v a b h0 H K V bos n h).
Local Abbreviation S1 := (Recurrence.S k' v' a' b' h0' H K V bos n h).
Local Abbreviation out0 := (Recurrence.out q k v a b h0 scale H K V bos n h).
Local Abbreviation out1 := (Recurrence.out q' k' v' a' b' h0' scale H K V bos n h).
Local Abbreviation adjoint := (Recurrence.adjoint q a b do dht scale H K V bos n h L).
Local Abbreviation dS := (Recurrence.dS q a b do dht scale H K V bos n h L).

(** the change of the state between the two runs *)
Definition state_change (s : nat) (j i : Z) : R := (S1 s j i - S0 s j i)%R.

(** the change of [sum_t <do_t, o_t> + <dht, S_L>] between the two runs *)
Definition objective_change : R :=
  (sigma L (fun t => sigma (Z.to_nat V)
                       (fun j => at_ do bos H V h t (Z.of_nat j)
                                 * (out1 t (Z.of_nat j) - out0 t (Z.of_nat j))))
   + pairing K V (state_at dht H K V n h) (state_change L))%R.

(** the rows of the two runs at step [t] *)
Definition same_keys (t : nat) : Prop :=
  forall i, 0 <= i < K ->
    at_ k' bos H K h t i = at_ k bos H K h t i
    /\ at_ a' bos H K h t i = at_ a bos H K h t i
    /\ at_ b' bos H K h t i = at_ b bos H K h t i.

Definition same_values (t : nat) : Prop :=
  forall j, 0 <= j < V -> at_ v' bos H V h t j = at_ v bos H V h t j.

Definition same_queries (t : nat) : Prop :=
  forall i, 0 <= i < K -> at_ q' bos H K h t i = at_ q bos H K h t i.

Definition same_initial_state : Prop :=
  forall j i, 0 <= j < V -> 0 <= i < K -> S1 0%nat j i = S0 0%nat j i.

Lemma state_unchanged (t0 s : nat) (j i : Z) :
  same_initial_state ->
  (forall t, (t < t0)%nat -> same_keys t /\ same_values t) ->
  (s <= t0)%nat -> 0 <= j < V -> 0 <= i < K -> S1 s j i = S0 s j i.
Proof.
  intros Hi0 Hsame Hs Hj Hi.
  apply (S_shift k v a b k' v' a' b' h0 h0' H K V bos n h bos n h 0 t0); auto.
  - intros t i' Ht Hi'. now apply Hsame.
  - intros t i' Ht Hi'. now apply Hsame.
  - intros t i' Ht Hi'. now apply Hsame.
  - intros t j' Ht Hj'. now apply Hsame.
Qed.

Lemma state_change_zero (t0 s : nat) (j i : Z) :
  same_initial_state ->
  (forall t, (t < t0)%nat -> same_keys t /\ same_values t) ->
  (s <= t0)%nat -> 0 <= j < V -> 0 <= i < K -> state_change s j i = 0%R.
Proof.
  intros Hi0 Hsame Hs Hj Hi. unfold state_change.
  rewrite (state_unchanged t0) by assumption. lra.
Qed.

Lemma state_change_step (s : nat) (j i : Z) :
  same_keys s -> same_values s -> 0 <= j < V -> 0 <= i < K ->
  state_change (S s) j i = propagate a b bos H K h s (state_change s) j i.
Proof.
  intros Hk Hv Hj Hi. unfold state_change, propagate. cbn [Recurrence.S].
  destruct (Hk i Hi) as (-> & _ & ->). rewrite (Hv j Hj).
  assert (E : sigma (Z.to_nat K)
                (fun i' => (S1 s j (Z.of_nat i') - S0 s j (Z.of_nat i'))
                           * at_ a bos H K h s (Z.of_nat i'))%R
              = (sigma (Z.to_nat K)
                   (fun i' => S1 s j (Z.of_nat i') * at_ a' bos H K h s (Z.of_nat i'))
                 - sigma (Z.to_nat K)
                     (fun i' => S0 s j (Z.of_nat i')
                                * at_ a bos H K h s (Z.of_nat i')))%R).
  { rewrite <- sigma_minus. apply sigma_ext. intros i' Hi'.
    destruct (Hk (Z.of_nat i') ltac:(lia)) as (_ & -> & _). ring. }
  rewrite E. ring.
Qed.

Lemma out_change (t : nat) (j : Z) :
  same_queries t ->
  (out1 t j - out0 t j)%R
  = sigma (Z.to_nat K)
      (fun i => state_change (S t) j (Z.of_nat i)
                * (at_ q bos H K h t (Z.of_nat i) * scale))%R.
Proof.
  intros Hq. unfold Recurrence.out, state_change. rewrite <- sigma_minus.
  apply sigma_ext. intros i Hi. rewrite (Hq (Z.of_nat i)) by lia. ring.
Qed.

Lemma objective_change_through (Hq : forall t, (t < L)%nat -> same_queries t) :
  objective_change
  = (sigma L (fun t => through_output q do scale H K V bos h t (state_change (S t)))
     + pairing K V (adjoint 0) (state_change L))%R.
Proof.
  unfold objective_change, through_output. f_equal.
  apply sigma_ext. intros t Ht. apply sigma_ext. intros j Hj.
  now rewrite out_change by auto.
Qed.

(** A change of the rows [k_t, v_t, a_t, b_t] at the one step [t0] reaches
    the objective through the state after that step, paired with the adjoint
    [dS_t0] the backward pass holds there. *)
Lemma change_at_step (t0 : nat) :
  (t0 < L)%nat ->
  (forall t, (t < L)%nat -> same_queries t) ->
  same_initial_state ->
  (forall t, (t < L)%nat -> t <> t0 -> same_keys t /\ same_values t) ->
  objective_change = pairing K V (dS t0) (state_change (S t0)).
Proof.
  intros Ht0 Hq Hi0 Hsame. rewrite objective_change_through by assumption.
  replace L with (t0 + S (L - t0 - 1))%nat at 1 by lia.
  rewrite sigma_split, sigma_first, Nat.add_0_r.
  rewrite (sigma_zero t0).
  2:{ intros t Ht. unfold through_output. apply sigma_zero. intros j Hj.
      rewrite (sigma_zero (Z.to_nat K)); [lra|]. intros i Hi.
      rewrite (state_change_zero t0) by (auto; try lia; intros; apply Hsame; lia).
      lra. }
  rewrite (sigma_ext _ _
             (fun r => through_output q do scale H K V bos h (S t0 + r)
                         (state_change (S (S t0 + r))))).
  2:{ intros r _. now rewrite Nat.add_succ_r. }
  rewrite pairing_dS.
  rewrite Rplus_0_l, Rplus_assoc.
  rewrite (adjoint_telescope q a b do dht scale H K V bos n h L state_change
             (L - t0 - 1) (S t0)); [|lia|].
  - replace (L - S t0)%nat with (L - 1 - t0)%nat by lia. lra.
  - intros s j i Hs Hj Hi. apply state_change_step; auto; apply Hsame; lia.
Qed.

(** A change of the initial state reaches the objective paired with the
    adjoint after the whole backward loop, which is [dh0]. *)
Lemma change_at_start :
  (forall t, (t < L)%nat -> same_queries t /\ same_keys t /\ same_values t) ->
  objective_change = pairing K V (adjoint L) (state_change 0).
Proof.
  intros Hsame. rewrite objective_change_through by (intros; now apply Hsame).
  rewrite (sigma_ext _ _
             (fun r => through_output q do scale H K V bos h (0 + r)
                         (state_change (S (0 + r))))) by reflexivity.
  rewrite (adjoint_telescope q a b do dht scale H K V bos n h L state_change L 0);
    [|lia|].
  - now rewrite Nat.sub_0_r.
  - intros s j i Hs Hj Hi. apply state_change_step; auto; apply Hsame; lia.
Qed.

(** A change of the query at the one step [t0] leaves the states alone and
    reaches the objective through [o_t0] only. *)
Lemma change_at_query (t0 : nat) :
  (t0 < L)%nat ->
  (forall t, (t < L)%nat -> t <> t0 -> same_queries t) ->
  same_initial_state ->
  (forall t, (t < L)%nat -> same_keys t /\ same_values t) ->
  objective_change
  = sigma (Z.to_nat V)
      (fun j => at_ do bos H V h t0 (Z.of_nat j)
                * sigma (Z.to_nat K)
                    (fun i => S0 (S t0) (Z.of_nat j) (Z.of_nat i)
                              * ((at_ q' bos H K h t0 (Z.of_nat i)
                                  - at_ q bos H K h t0 (Z.of_nat i)) * scale)))%R.
Proof.
  intros Ht0 Hq Hi0 Hsame.
  assert (E : forall s j i, (s <= L)%nat -> 0 <= j < V -> 0 <= i < K ->
                S1 s j i = S0 s j i).
  { intros s j i Hs Hj Hi. now apply (state_unchanged L). }
  unfold objective_change. rewrite pairing_zero.
  2:{ intros i j Hi Hj. unfold state_change. rewrite E by (auto; lia). lra. }
  rewrite Rplus_0_r. rewrite (sigma_single L t0); [|assumption|].
  - apply sigma_ext. intros j Hj. f_equal. unfold Recurrence.out.
    rewrite <- sigma_minus. apply sigma_ext. intros i Hi.
    rewrite E by lia. ring.
  - intros t Ht Ne. apply sigma_zero. intros j Hj.
    rewrite out_change by auto. rewrite sigma_zero; [lra|]. intros i Hi.
    unfold state_change. rewrite E by lia. lra.
Qed.

End Perturb.

(** ** The gradients of one row *)

Lemma pairing_outer_value (K V : Z) (D : Z -> Z -> R) (x y : Z -> R) :
  pairing K V D (fun j i => x j * y i)%R
  = sigma (Z.to_nat V)
      (fun j => sigma (Z.to_nat K) (fun i => D (Z.of_nat i) (Z.of_nat j) * y (Z.of_nat i))
                * x (Z.of_nat j))%R.
Proof.
  unfold pairing. rewrite sigma_swap. apply sigma_ext. intros j _.
  rewrite <- sigma_scal_r. apply sigma_ext. intros i _. ring.
Qed.

Lemma pairing_outer_key (K V : Z) (D : Z -> Z -> R) (x y : Z -> R) :
  pairing K V D (fun j i => x j * y i)%R
  = sigma (Z.to_nat K)
      (fun i => sigma (Z.to_nat V) (fun j => D (Z.of_nat i) (Z.of_nat j) * x (Z.of_nat j))
                * y (Z.of_nat i))%R.
Proof.
  unfold pairing. apply sigma_ext. intros i _.
  rewrite <- sigma_scal_r. apply sigma_ext. intros j _. ring.
Qed.

Section RowGradients.

Variables q k v a b ha do : buffer.
Variables h0 dht : option buffer.
Variable scale : R.
Variables H K V : Z.
Variable bos : Z.
Variables n h : Z.
Variable L : nat.
Variable t0 : nat.
Hypothesis Ht0 : (t0 < L)%nat.

(** [ha] is what the forward pass has cached *)
Hypothesis Hha :
  forall t j, (t < L)%nat -> 0 <= j < V ->
    at_ ha bos H V h t j = Recurrence.tmp k v a b h0 H K V bos n h t j.

Local Abbreviation S0 := (Recurrence.S k v a b h0 H K V bos n h).
Local Abbreviation dS := (Recurrence.dS q a b do dht scale H K V bos n h L).

(** another tensor that has the rows of [x] except at step [t0] *)
Definition same_rows_but (W : Z) (x x' : buffer) : Prop :=
  forall t i, (t < L)%nat -> t <> t0 -> 0 <= i < W ->
    at_ x' bos H W h t i = at_ x bos H W h t i.

Lemma same_rows_refl (W : Z) (x : buffer) : same_rows_but W x x.
Proof. intros t i _ _ _. reflexivity. Qed.

(** the state after step [t0] when the rows of that step are replaced *)
Definition replaced_row (k' v' a' b' : buffer) (j i : Z) : R :=
  (sigma (Z.to_nat K)
     (fun i' => S0 t0 j (Z.of_nat i') * at_ a' bos H K h t0 (Z.of_nat i'))
   * at_ b' bos H K h t0 i
   + at_ v' bos H V h t0 j * at_ k' bos H K h t0 i)%R.

Lemma row_change (k' v' a' b' : buffer) :
  same_rows_but K k k' -> same_rows_but V v v' ->
  same_rows_but K a a' -> same_rows_but K b b' ->
  objective_change q k v a b q k' v' a' b' do h0 h0 dht scale H K V bos n h L
  = pairing K V (dS t0)
      (fun j i => replaced_row k' v' a' b' j i - replaced_row k v a b j i)%R.
Proof.
  intros Hk Hv Ha Hb.
  assert (Same : forall t, (t < L)%nat -> t <> t0 ->
                   same_keys k a b k' a' b' H K bos h t
                   /\ same_values v v' H V bos h t).
  { intros t Ht Ne. split.
    - intros i Hi. repeat split; [apply Hk | apply Ha | apply Hb]; auto.
    - intros j Hj. now apply Hv. }
  rewrite (change_at_step q k v a b q k' v' a' b' do h0 h0 dht scale H K V bos n h L t0);
    auto.
  - apply pairing_ext; [reflexivity|]. intros i j Hi Hj.
    unfold state_change, replaced_row. cbn [Recurrence.S].
    assert (E : forall i', 0 <= i' < K ->
                  Recurrence.S k' v' a' b' h0 H K V bos n h t0 j i' = S0 t0 j i').
    { intros i' Hi'.
      apply (state_unchanged k v a b k' v' a' b' h0 h0 H K V bos n h t0); auto.
      - intros ? ? ? ?; reflexivity.
      - intros t Ht. apply Same; lia. }
    rewrite E by assumption.
    rewrite (sigma_ext _
               (fun i' => Recurrence.S k' v' a' b' h0 H K V bos n h t0 j (Z.of_nat i')
                          * at_ a' bos H K h t0 (Z.of_nat i'))%R
               (fun i' => S0 t0 j (Z.of_nat i') * at_ a' bos H K h t0 (Z.of_nat i'))%R)
      by (intros i' Hi'; rewrite E by lia; reflexivity).
    ring.
  - intros t Ht i Hi. reflexivity.
  - intros j i Hj Hi. reflexivity.
Qed.

Lemma value_row_gradient (v' : buffer) :
  same_rows_but V v v' ->
  objective_change q k v a b q k v' a b do h0 h0 dht scale H K V bos n h L
  = sigma (Z.to_nat V)
      (fun j => Recurrence.dv_ q k a b do dht scale H K V bos n h L t0 (Z.of_nat j)
                * (at_ v' bos H V h t0 (Z.of_nat j) - at_ v bos H V h t0 (Z.of_nat j)))%R.
Proof.
  intros Hv. rewrite row_change by (auto using same_rows_refl).
  transitivity
    (pairing K V (dS t0)
       (fun j i => (at_ v' bos H V h t0 j - at_ v bos H V h t0 j)
                   * at_ k bos H K h t0 i)%R);
    [|now rewrite pairing_outer_value].
  apply pairing_ext; [reflexivity|]. intros i j Hi Hj. unfold replaced_row. ring.
Qed.

Lemma key_row_gradient (k' : buffer) :
  same_rows_but K k k' ->
  objective_change q k v a b q k' v a b do h0 h0 dht scale H K V bos n h L
  = sigma (Z.to_nat K)
      (fun i => Recurrence.dk_ q v a b do dht scale H K V bos n h L t0 (Z.of_nat i)
                * (at_ k' bos H K h t0 (Z.of_nat i) - at_ k bos H K h t0 (Z.of_nat i)))%R.
Proof.
  intros Hk. rewrite row_change by (auto using same_rows_refl).
  transitivity
    (pairing K V (dS t0)
       (fun j i => at_ v bos H V h t0 j
                   * (at_ k' bos H K h t0 i - at_ k bos H K h t0 i))%R);
    [|now rewrite pairing_outer_key].
  apply pairing_ext; [reflexivity|]. intros i j Hi Hj. unfold replaced_row. ring.
Qed.

Lemma b_row_gradient (b' : buffer) :
  same_rows_but K b b' ->
  objective_change q k v a b q k v a b' do h0 h0 dht scale H K V bos n h L
  = sigma (Z.to_nat K)
      (fun i => Recurrence.db_ q a b ha do dht scale H K V bos n h L t0 (Z.of_nat i)
                * (at_ b' bos H K h t0 (Z.of_nat i) - at_ b bos H K h t0 (Z.of_nat i)))%R.
Proof.
  intros Hb. rewrite row_change by (auto using same_rows_refl).
  transitivity
    (pairing K V (dS t0)
       (fun j i => at_ ha bos H V h t0 j
                   * (at_ b' bos H K h t0 i - at_ b bos H K h t0 i))%R);
    [|now rewrite pairing_outer_key].
  apply pairing_ext; [reflexivity|]. intros i j Hi Hj. unfold replaced_row.
  rewrite Hha by auto. unfold Recurrence.tmp. ring.
Qed.

Lemma a_row_gradient (a' : buffer) :
  same_rows_but K a a' ->
  objective_change q k v a b q k v a' b do h0 h0 dht scale H K V bos n h L
  = sigma (Z.to_nat K)
      (fun i => Recurrence.da_ q k v a b ha do dht h0 scale H K V bos n h L t0
                  (Z.of_nat i)
                * (at_ a' bos H K h t0 (Z.of_nat i) - at_ a bos H K h t0 (Z.of_nat i)))%R.
Proof.
  intros Ha. rewrite row_change by (auto using same_rows_refl).
  transitivity
    (pairing K V (dS t0)
       (fun j i => sigma (Z.to_nat K)
                     (fun i' => S0 t0 j (Z.of_nat i')
                                * (at_ a' bos H K h t0 (Z.of_nat i')
                                   - at_ a bos H K h t0 (Z.of_nat i')))
                   * at_ b bos H K h t0 i)%R).
  - apply pairing_ext; [reflexivity|]. intros i j Hi Hj. unfold replaced_row.
    rewrite (sigma_ext _
               (fun i' => S0 t0 j (Z.of_nat i')
                          * (at_ a' bos H K h t0 (Z.of_nat i')
                             - at_ a bos H K h t0 (Z.of_nat i')))%R
               (fun i' => S0 t0 j (Z.of_nat i') * at_ a' bos H K h t0 (Z.of_nat i')
                          - S0 t0 j (Z.of_nat i') * at_ a bos H K h t0 (Z.of_nat i'))%R)
      by (intros; ring).
    rewrite sigma_minus. ring.
  - rewrite pairing_outer_value. unfold Recurrence.da_.
    rewrite (sigma_ext (Z.to_nat K) _
               (fun i => sigma (Z.to_nat V)
                           (fun j => Recurrence.dha_ q a b do dht scale H K V bos n h L
                                       t0 (Z.of_nat j)
                                     * (S0 t0 (Z.of_nat j) (Z.of_nat i)
                                        * (at_ a' bos H K h t0 (Z.of_nat i)
                                           - at_ a bos H K h t0 (Z.of_nat i)))))%R).
    + rewrite sigma_swap. apply sigma_ext. intros j _.
      rewrite sigma_scal. reflexivity.
    + intros i Hi. rewrite <- sigma_scal_r. apply sigma_ext. intros j Hj.
      rewrite (rebuilt_is_state k v a b ha h0 H K V bos n h L Hha) by lia. ring.
Qed.

Lemma query_row_gradient (q' : buffer) :
  same_rows_but K q q' ->
  objective_change q k v a b q' k v a b do h0 h0 dht scale H K V bos n h L
  = sigma (Z.to_nat K)
      (fun i => Recurrence.dq_ k v b ha do h0 scale H K V bos n h t0 (Z.of_nat i)
                * (at_ q' bos H K h t0 (Z.of_nat i) - at_ q bos H K h t0 (Z.of_nat i)))%R.
Proof.
  intros Hq.
  rewrite (change_at_query q k v a b q' k v a b do h0 h0 dht scale H K V bos n h L t0);
    auto.
  - unfold Recurrence.dq_.
    rewrite (sigma_ext (Z.to_nat K) _
               (fun i => sigma (Z.to_nat V)
                           (fun j => at_ do bos H V h t0 (Z.of_nat j)
                                     * (S0 (S t0) (Z.of_nat j) (Z.of_nat i)
                                        * ((at_ q' bos H K h t0 (Z.of_nat i)
                                            - at_ q bos H K h t0 (Z.of_nat i))
                                           * scale))))%R).
    + rewrite sigma_swap. apply sigma_ext. intros j _.
      rewrite sigma_scal. reflexivity.
    + intros i Hi. rewrite Rmult_assoc, <- sigma_scal_r. apply sigma_ext. intros j Hj.
      rewrite (rebuilt_is_state k v a b ha h0 H K V bos n h L Hha) by lia. ring.
  - intros t Ht Ne i Hi. now apply Hq.
  - intros j i Hj Hi. reflexivity.
  - intros t Ht. split; [intros i Hi; auto|]. intros j Hj. reflexivity.
Qed.

End RowGradients.

(** the gradient of the initial state *)
Lemma initial_state_gradient (q k v a b do : buffer) (h0 h0' dht : option buffer)
  (scale : R) (H K V bos n h : Z) (L : nat) :
  objective_change q k v a b q k v a b do h0 h0' dht scale H K V bos n h L
  = sigma (Z.to_nat K)
      (fun i => sigma (Z.to_nat V)
         (fun j => Recurrence.adjoint q a b do dht scale H K V bos n h L L
                     (Z.of_nat i) (Z.of_nat j)
                   * (state_at h0' H K V n h (Z.of_nat i) (Z.of_nat j)
                      - state_at h0 H K V n h (Z.of_nat i) (Z.of_nat j))))%R.
Proof.
  rewrite (change_at_start q k v a b q k v a b do h0 h0' dht scale H K V bos n h L).
  - reflexivity.
  - intros t Ht. repeat split; auto.
Qed.

(** * The gradients [backward] returns *)

(** The scalar the incoming gradients [do] and [dht] stand for, restricted to
    sequence [n] and head [h]: [sum_t <do_t, o_t> + <dht, final_state>]. *)
Definition objective (do : tensor) (dht : option tensor) (o : tensor)
  (final_state : option tensor) (cu_seqlens : option (list Z))
  (T H K V n h : Z) : R :=
  let bos := seq_start cu_seqlens T n in
  let L := Z.to_nat (seq_len cu_seqlens T n) in
  (sigma L
     (fun t => sigma (Z.to_nat V)
        (fun j => elems do (((bos + Z.of_nat t) * H + h) * V + Z.of_nat j)
                  * elems o (((bos + Z.of_nat t) * H + h) * V + Z.of_nat j)))
   + match dht, final_state with
     | Some d, Some f =>
         sigma (Z.to_nat K)
           (fun i => sigma (Z.to_nat V)
              (fun j => elems d ((n * H + h) * K * V + Z.of_nat i * V + Z.of_nat j)
                        * elems f ((n * H + h) * K * V + Z.of_nat i * V + Z.of_nat j)))
     | _, _ => 0
     end)%R.

(** what a call of [forward] followed by [backward] needs of its arguments *)
Definition training_shapes (q k v a b : tensor) (initial_state : option tensor)
  (do : tensor) (dht : option tensor) (output_final_state : bool)
  (cu_seqlens : option (list Z)) (B T H K V N : Z) : Prop :=
  forward_shapes q k v a b initial_state cu_seqlens B T H K V N
  /\ shape do = [B; T; H; V]
  /\ (forall d, dht = Some d -> shape d = [N; H; K; V])
  /\ 0 < V
  /\ (output_final_state = true -> N = B)
  /\ (output_final_state = false -> dht = None).

Lemma pairing_none (K V : Z) (X : Z -> Z -> R) (H n h : Z) :
  pairing K V (state_at None H K V n h) X = 0%R.
Proof.
  unfold pairing. apply sigma_zero. intros i _. apply sigma_zero. intros j _.
  cbn [state_at]. lra.
Qed.

Section Objective.

Variables q k v a b q' k' v' a' b' : buffer.
Variables h0 h0' : option buffer.
Variable scale : R.
Variables do o o' : tensor.
Variable dht : option tensor.
Variables final_state final_state' : option tensor.
Variable output_final_state : bool.
Variable cu_seqlens : option (list Z).
Variables T H K V n h : Z.

Local Abbreviation bos := (seq_start cu_seqlens T n).
Local Abbreviation L := (Z.to_nat (seq_len cu_seqlens T n)).

Hypothesis Ho :
  forall t j, (t < L)%nat -> 0 <= j < V ->
    elems o (((bos + Z.of_nat t) * H + h) * V + j)
    = Recurrence.out q k v a b h0 scale H K V bos n h t j.
Hypothesis Ho' :
  forall t j, (t < L)%nat -> 0 <= j < V ->
    elems o' (((bos + Z.of_nat t) * H + h) * V + j)
    = Recurrence.out q' k' v' a' b' h0' scale H K V bos n h t j.
Hypothesis Hf :
  if output_final_state
  then exists f, final_state = Some f
       /\ forall i j, 0 <= i < K -> 0 <= j < V ->
            elems f ((n * H + h) * K * V + i * V + j)
            = Recurrence.S k v a b h0 H K V bos n h L j i
  else final_state = None.
Hypothesis Hf' :
  if output_final_state
  then exists f, final_state' = Some f
       /\ forall i j, 0 <= i < K -> 0 <= j < V ->
            elems f ((n * H + h) * K * V + i * V + j)
            = Recurrence.S k' v' a' b' h0' H K V bos n h L j i
  else final_state' = None.
Hypothesis Hdht : output_final_state = false -> dht = None.

(** the change of the objective between two calls of [forward] is the change
    between the two runs of the recurrence *)
Lemma objective_difference :
  (objective do dht o' final_state' cu_seqlens T H K V n h
   - objective do dht o final_state cu_seqlens T H K V n h)%R
  = objective_change q k v a b q' k' v' a' b' (as_buffer do) h0 h0'
      (option_map as_buffer dht) scale H K V bos n h L.
Proof.
  unfold objective, objective_change. cbv zeta.
  match goal with
  | |- (?s1 + ?f1 - (?s0 + ?f0))%R = (?s + ?p)%R =>
      assert (Es : (s1 - s0)%R = s); [|assert (Ep : (f1 - f0)%R = p); [|lra]]
  end.
  - rewrite <- sigma_minus. apply sigma_ext. intros t Ht.
    rewrite <- sigma_minus. apply sigma_ext. intros j Hj.
    rewrite Ho, Ho' by (auto; lia). unfold at_, as_buffer. cbn [data]. ring.
  - destruct dht as [d|]; cbn [option_map].
    + destruct output_final_state; [|specialize (Hdht eq_refl); discriminate].
      destruct Hf as (f & -> & Ef), Hf' as (f' & -> & Ef').
      unfold pairing, state_change. rewrite <- sigma_minus.
      apply sigma_ext. intros i Hi. rewrite <- sigma_minus.
      apply sigma_ext. intros j Hj.
      rewrite Ef, Ef' by lia. unfold state_at, as_buffer. cbn [data]. ring.
    + rewrite pairing_none. lra.
Qed.

End Objective.

(** the tensors of a call agree with those of another on every row of
    sequence [n], head [h], except at step [t0] *)
Definition same_rows_except (x x' : tensor) (cu_seqlens : option (list Z))
  (T H W n h : Z) (t0 : nat) : Prop :=
  shape x' = shape x
  /\ forall t i, (t < Z.to_nat (seq_len cu_seqlens T n))%nat -> t <> t0 -> 0 <= i < W ->
       elems x' (((seq_start cu_seqlens T n + Z.of_nat t) * H + h) * W + i)
       = elems x (((seq_start cu_seqlens T n + Z.of_nat t) * H + h) * W + i).

(** the sum over a row of a gradient times the change of its input *)
Definition row_change_sum (g x x' : tensor) (cu_seqlens : option (list Z))
  (T H W n h : Z) (t0 : nat) : R :=
  sigma (Z.to_nat W)
    (fun i =>
       let p := ((seq_start cu_seqlens T n + Z.of_nat t0) * H + h) * W + Z.of_nat i in
       (elems g p * (elems x' p - elems x p))%R).

Section Training.

Variables BV BV' : Z.
Variables junk junk' junk'' : Z -> R.
Variables q k v a b do : tensor.
Variables q' k' v' a' b' : tensor.
Variables initial_state initial_state' dht : option tensor.
Variable scale : R.
Variables output_final_state requires_grad : bool.
Variable cu_seqlens : option (list Z).
Variables B T H K V N : Z.
Variables c c' c'' : nat.

Hypothesis Sh :
  training_shapes q k v a b initial_state do dht output_final_state cu_seqlens
    B T H K V N.
Hypothesis Sh' :
  forward_shapes q' k' v' a' b' initial_state' cu_seqlens B T H K V N.
Hypothesis HBV : 0 < BV.
Hypothesis HBV' : 0 < BV'.

Local Abbreviation bos n := (seq_start cu_seqlens T n).
Local Abbreviation L n := (Z.to_nat (seq_len cu_seqlens T n)).
Local Abbreviation row n h t := ((bos n + Z.of_nat t) * H + h).

(** One call of [forward], a second call on other inputs of the same
    shapes, and [backward] on what the first call saved: all three return,
    the change of the objective is that of the recurrences, and the
    gradients hold the sums of the backward recurrences at the first call's
    inputs. *)
Lemma training_step :
  exists ha o final_state ctx' o' final_state' dq dk dv da db dh0,
    let ctx := {| saved_q := q; saved_k := k; saved_v := v; saved_a := a;
                  saved_b := b; saved_ha := ha;
                  saved_initial_state := initial_state;
                  ctx_scale := scale; ctx_cu_seqlens := cu_seqlens |} in
    let qb := as_buffer q in
    let kb := as_buffer k in
    let vb := as_buffer v in
    let ab := as_buffer a in
    let bb := as_buffer b in
    let hb := as_buffer ha in
    let g := as_buffer do in
    let gt := option_map as_buffer dht in
    let s0 := option_map as_buffer initial_state in
    forward BV junk q k v a b scale initial_state output_final_state cu_seqlens c
    = (S c, Ok (ctx, (o, final_state)))
    /\ forward BV' junk' q' k' v' a' b' scale initial_state' output_final_state
         cu_seqlens c'
       = (S c', Ok (ctx', (o', final_state')))
    /\ backward junk'' ctx requires_grad do dht c''
       = (S c'', Ok (dq, dk, dv, da, db, dh0))
    /\ forall n h, 0 <= n < N -> 0 <= h < H ->
         (objective do dht o' final_state' cu_seqlens T H K V n h
          - objective do dht o final_state cu_seqlens T H K V n h)%R
         = objective_change qb kb vb ab bb (as_buffer q') (as_buffer k')
             (as_buffer v') (as_buffer a') (as_buffer b') g s0
             (option_map as_buffer initial_state') gt scale H K V (bos n) n h (L n)
         /\ (forall t j, (t < L n)%nat -> 0 <= j < V ->
               at_ hb (bos n) H V h t j
               = Recurrence.tmp kb vb ab bb s0 H K V (bos n) n h t j)
         /\ (forall t, (t < L n)%nat ->
               (forall i, 0 <= i < K ->
                  elems dq (row n h t * K + i)
                  = Recurrence.dq_ kb vb bb hb g s0 scale H K V (bos n) n h t i
                  /\ elems dk (row n h t * K + i)
                     = Recurrence.dk_ qb vb ab bb g gt scale H K V (bos n) n h (L n) t i
                  /\ elems da (row n h t * K + i)
                     = Recurrence.da_ qb kb vb ab bb hb g gt s0 scale H K V (bos n) n h
                         (L n) t i
                  /\ elems db (row n h t * K + i)
                     = Recurrence.db_ qb ab bb hb g gt scale H K V (bos n) n h (L n) t i)
               /\ (forall j, 0 <= j < V ->
                     elems dv (row n h t * V + j)
                     = Recurrence.dv_ qb kb ab bb g gt scale H K V (bos n) n h (L n)
                         t j))
         /\ match initial_state with
            | Some _ =>
                if requires_grad
                then exists m, dh0 = Some m
                     /\ forall i j, 0 <= i < K -> 0 <= j < V ->
                          elems m ((n * H + h) * K * V + i * V + j)
                          = Recurrence.adjoint qb ab bb g gt scale H K V (bos n) n h
                              (L n) (L n) i j
                else dh0 = None
            | None => dh0 = None
            end.
Proof.
  destruct Sh as (Sf & Sdo & Sd & HV & HN & Hdht).
  destruct (forward_saved BV junk q k v a b scale initial_state output_final_state
              cu_seqlens B T H K V N c Sf HBV HN)
    as (o & ha & fs & E & So & Sha & Hval & Hfs).
  destruct (forward_saved BV' junk' q' k' v' a' b' scale initial_state'
              output_final_state cu_seqlens B T H K V N c' Sh' HBV' HN)
    as (o' & ha' & fs' & E' & _ & _ & Hval' & Hfs').
  set (ctx := {| saved_q := q; saved_k := k; saved_v := v; saved_a := a;
                 saved_b := b; saved_ha := ha;
                 saved_initial_state := initial_state;
                 ctx_scale := scale; ctx_cu_seqlens := cu_seqlens |}) in *.
  assert (Sb : backward_shapes ctx do dht B T H K V N).
  { unfold backward_shapes, ctx. cbn [saved_q saved_k saved_v saved_a saved_b saved_ha
      saved_initial_state ctx_cu_seqlens]. auto. }
  destruct (backward_ok junk'' ctx requires_grad do dht B T H K V N c'' Sb)
    as (dq & dk & dv & da & db & dh0 & Eb & _ & Hg & Hd0).
  exists ha, o, fs. eexists. exists o', fs', dq, dk, dv, da, db, dh0.
  cbv zeta. fold ctx.
  split; [exact E|]. split; [exact E'|]. split; [exact Eb|].
  intros n h Hn Hh. split; [|split; [|split]].
  - apply objective_difference with (output_final_state := output_final_state).
    + intros t j Ht Hj. now apply Hval.
    + intros t j Ht Hj. now apply Hval'.
    + destruct output_final_state; [|exact Hfs].
      destruct Hfs as (f & Ef & _ & Hf). exists f. split; [exact Ef|].
      intros i j Hi Hj. now apply Hf.
    + destruct output_final_state; [|exact Hfs'].
      destruct Hfs' as (f & Ef & _ & Hf). exists f. split; [exact Ef|].
      intros i j Hi Hj. now apply Hf.
    + exact Hdht.
  - intros t j Ht Hj. now apply Hval.
  - intros t Ht. apply (Hg n h t Hn Hh Ht).
  - unfold ctx in Hd0. cbn [saved_initial_state ctx_cu_seqlens saved_q saved_a saved_b]
      in Hd0.
    destruct initial_state as [s0|]; [|exact Hd0].
    destruct requires_grad; [|exact Hd0].
    destruct Hd0 as (m & Em & _ & Hm). exists m. split; [exact Em|].
    intros i j Hi Hj. now apply Hm.
Qed.

End Training.

Lemma same_shape_forward (q k v a b q' k' v' a' b' : tensor)
  (initial_state initial_state' : option tensor) (cu_seqlens : option (list Z))
  (B T H K V N : Z) :
  forward_shapes q k v a b initial_state cu_seqlens B T H K V N ->
  shape q' = shape q -> shape k' = shape k -> shape v' = shape v ->
  shape a' = shape a -> shape b' = shape b ->
  (forall s0, initial_state' = Some s0 -> shape s0 = [N; H; K; V]) ->
  forward_shapes q' k' v' a' b' initial_state' cu_seqlens B T H K V N.
Proof.
  intros (Sq & Sk & Sa & Sb & Sv & Si & Rest) Eq Ek Ev Ea Eb Si'.
  unfold forward_shapes. rewrite Eq, Ek, Ev, Ea, Eb. auto 10.
Qed.







(** ** Instances of the gradient theorems *)

(** a tensor of ones with the first row replaced by a two *)
Definition bumped_tensor : tensor :=
  mktensor [1; 2; 1; 1] (fun p => if p =? 0 then 2%R else 1%R).

Lemma unit_training_shapes (initial_state : option tensor) :
  (forall s0, initial_state = Some s0 -> shape s0 = [1; 1; 1; 1]) ->
  training_shapes (unit_tensor 2) (unit_tensor 2) (unit_tensor 2) (unit_tensor 2)
    (unit_tensor 2) initial_state (unit_tensor 2) None false None 1 2 1 1 1 1.
Proof.
  intros Si. unfold training_shapes, forward_shapes, segments_ok, num_sequences.
  simpl. repeat split; try lia; try (intros; discriminate); auto.
Qed.

Lemma bumped_same_rows :
  same_rows_except (unit_tensor 2) bumped_tensor None 2 1 1 0 0 0.
Proof.
  split; [reflexivity|]. intros t i Ht Ne Hi. simpl.
  destruct (Z.eqb_spec ((Z.of_nat t * 1 + 0) * 1 + i) 0); [lia | reflexivity].
Qed.







(** * Properties of the forward pass *)

Lemma flat_split (p R W : Z) :
  0 < W -> 0 <= p < R * W ->
  exists r i, p = r * W + i /\ 0 <= r < R /\ 0 <= i < W.
Proof.
  intros HW Hp. exists (p / W), (p mod W).
  pose proof (Z.div_mod p W ltac:(lia)) as E.
  pose proof (Z.mod_pos_bound p W HW) as Hm.
  split; [lia|]. split; [|assumption].
  split; [apply Z.div_pos; lia|]. apply Z.div_lt_upper_bound; lia.
Qed.


(** rows [0..t0] of sequence [n], head [h] agree in the two tensors *)
Definition same_rows_until (x x' : tensor) (cu_seqlens : option (list Z))
  (T H W n h : Z) (t0 : nat) : Prop :=
  forall t i, (t <= t0)%nat -> 0 <= i < W ->
    elems x' (((seq_start cu_seqlens T n + Z.of_nat t) * H + h) * W + i)
    = elems x (((seq_start cu_seqlens T n + Z.of_nat t) * H + h) * W + i).


(** ** Without the low-rank correction *)

(** when at every step [a_t] or [b_t] is zero, the state is the initial
    state plus the sum of the outer products [v_s k_s^T] *)
Lemma S_without_correction (k v a b : buffer) (h0 : option buffer)
  (H K V bos n h : Z) (L : nat) :
  (forall t, (t < L)%nat ->
     (forall i, 0 <= i < K -> at_ a bos H K h t i = 0%R)
     \/ (forall i, 0 <= i < K -> at_ b bos H K h t i = 0%R)) ->
  forall t j i, (t <= L)%nat -> 0 <= j < V -> 0 <= i < K ->
    Recurrence.S k v a b h0 H K V bos n h t j i
    = (state_at h0 H K V n h i j
       + sigma t (fun s => at_ v bos H V h s j * at_ k bos H K h s i))%R.
Proof.
  intros Hab t. induction t as [|t IH]; intros j i Ht Hj Hi.
  - cbn [Recurrence.S]. simpl. lra.
  - cbn [Recurrence.S]. rewrite sigma_S, IH by (auto; lia).
    destruct (Hab t ltac:(lia)) as [Ha|Hb].
    + rewrite (sigma_zero (Z.to_nat K)); [lra|].
      intros i' Hi'. rewrite Ha by lia. lra.
    + rewrite Hb by assumption. lra.
Qed.

(** what the entry point does once its checks pass *)
Lemma entry_point_forward (config_BV : Z) (junk : Z -> R) (q k v a b : tensor)
  (scale : option R) (initial_state : option tensor) (output_final_state : bool)
  (cu_seqlens : option (list Z)) (B T H K V N : Z) (c : nat) :
  forward_shapes q k v a b initial_state cu_seqlens B T H K V N ->
  (cu_seqlens <> None -> B = 1) ->
  (forall s, scale = Some s -> (0 < s)%R) ->
  fused_recurrent_iplr_delta_rule config_BV junk q k v a b scale initial_state
    output_final_state cu_seqlens c
  = (r <~ forward config_BV junk q k v a b
            match scale with Some s => s | None => (/ sqrt (IZR K))%R end
            initial_state output_final_state cu_seqlens ;;
     ret (snd r)) c.
Proof.
  intros (Sq & _ & _ & _ & _ & Si & EN & _ & HK & _) HB Hs.
  unfold fused_recurrent_iplr_delta_rule.
  assert (Ec : check_cu_seqlens q initial_state cu_seqlens c = (c, Ok tt)).
  { unfold check_cu_seqlens. destruct cu_seqlens as [cu|]; [|reflexivity].
    rewrite Sq, (HB ltac:(discriminate)). cbn [Z.eqb Pos.eqb negb].
    destruct initial_state as [s0|]; [|reflexivity].
    rewrite (Si s0 eq_refl), EN. cbn [num_sequences].
    rewrite Z.eqb_refl. reflexivity. }
  assert (Es : effective_scale q scale c
               = (c, Ok match scale with Some s => s | None => (/ sqrt (IZR K))%R end)).
  { unfold effective_scale. destruct scale as [s|].
    - destruct (Rlt_dec 0 s) as [_|F]; [reflexivity|]. now destruct F; apply Hs.
    - rewrite Sq. cbn [rev app]. unfold lift, pow_neg_half.
      destruct (Z.eqb_spec K 0) as [F|_]; [lia|].
      now rewrite pow_neg_half_sqrt. }
  unfold hbind at 1. rewrite Ec. unfold hbind at 1. rewrite Es. reflexivity.
Qed.




(** * The backward pass is linear in the incoming gradients *)

(** a tensor with every element multiplied by [r] *)
Definition scaled (r : R) (x : tensor) : tensor :=
  mktensor (shape x) (fun p => (r * elems x p)%R).

Section Homogeneous.

Variables q k v a b ha do do' : buffer.
Variables dht dht' h0 : option buffer.
Variables scale r : R.
Variables H K V : Z.
Variable bos : Z.
Variables n h : Z.
Variable L : nat.

Hypothesis Hdo :
  forall t j, (t < L)%nat -> 0 <= j < V ->
    at_ do' bos H V h t j = (r * at_ do bos H V h t j)%R.
Hypothesis Hdht :
  forall i j, 0 <= i < K -> 0 <= j < V ->
    state_at dht' H K V n h i j = (r * state_at dht H K V n h i j)%R.

Local Abbreviation adj := (Recurrence.adjoint q a b do dht scale H K V bos n h L).
Local Abbreviation adj' := (Recurrence.adjoint q a b do' dht' scale H K V bos n h L).
Local Abbreviation dS0 := (Recurrence.dS q a b do dht scale H K V bos n h L).
Local Abbreviation dS1 := (Recurrence.dS q a b do' dht' scale H K V bos n h L).

Lemma adjoint_scaled (s : nat) (i j : Z) :
  (s <= L)%nat -> 0 <= i < K -> 0 <= j < V -> adj' s i j = (r * adj s i j)%R.
Proof.
  revert i j. induction s as [|s IH]; intros i j Hs Hi Hj.
  - cbn [Recurrence.adjoint]. now apply Hdht.
  - cbn [Recurrence.adjoint].
    unfold Recurrence.fold_a, Recurrence.dha_of, Recurrence.add_q.
    rewrite IH, Hdo by (auto; lia).
    rewrite (sigma_ext (Z.to_nat K) _
               (fun i' => r * ((adj s (Z.of_nat i') j
                                + at_ q bos H K h (L - 1 - s) (Z.of_nat i') * scale
                                  * at_ do bos H V h (L - 1 - s) j)
                               * at_ b bos H K h (L - 1 - s) (Z.of_nat i')))%R).
    + rewrite sigma_scal. ring.
    + intros i' Hi'. rewrite IH by (auto; lia). ring.
Qed.

Lemma dS_scaled (t : nat) (i j : Z) :
  (t < L)%nat -> 0 <= i < K -> 0 <= j < V -> dS1 t i j = (r * dS0 t i j)%R.
Proof.
  intros Ht Hi Hj. unfold Recurrence.dS, Recurrence.add_q.
  rewrite adjoint_scaled, Hdo by (auto; lia). ring.
Qed.

Lemma dk_scaled (t : nat) (i : Z) :
  (t < L)%nat -> 0 <= i < K ->
  Recurrence.dk_ q v a b do' dht' scale H K V bos n h L t i
  = (r * Recurrence.dk_ q v a b do dht scale H K V bos n h L t i)%R.
Proof.
  intros Ht Hi. unfold Recurrence.dk_. rewrite <- sigma_scal.
  apply sigma_ext. intros j Hj. rewrite dS_scaled by (auto; lia). ring.
Qed.

Lemma dv_scaled (t : nat) (j : Z) :
  (t < L)%nat -> 0 <= j < V ->
  Recurrence.dv_ q k a b do' dht' scale H K V bos n h L t j
  = (r * Recurrence.dv_ q k a b do dht scale H K V bos n h L t j)%R.
Proof.
  intros Ht Hj. unfold Recurrence.dv_. rewrite <- sigma_scal.
  apply sigma_ext. intros i Hi. rewrite dS_scaled by (auto; lia). ring.
Qed.

Lemma db_scaled (t : nat) (i : Z) :
  (t < L)%nat -> 0 <= i < K ->
  Recurrence.db_ q a b ha do' dht' scale H K V bos n h L t i
  = (r * Recurrence.db_ q a b ha do dht scale H K V bos n h L t i)%R.
Proof.
  intros Ht Hi. unfold Recurrence.db_. rewrite <- sigma_scal.
  apply sigma_ext. intros j Hj. rewrite dS_scaled by (auto; lia). ring.
Qed.

Lemma da_scaled (t : nat) (i : Z) :
  (t < L)%nat -> 0 <= i < K ->
  Recurrence.da_ q k v a b ha do' dht' h0 scale H K V bos n h L t i
  = (r * Recurrence.da_ q k v a b ha do dht h0 scale H K V bos n h L t i)%R.
Proof.
  intros Ht Hi. unfold Recurrence.da_, Recurrence.dha_. rewrite <- sigma_scal.
  apply sigma_ext. intros j Hj.
  rewrite (sigma_ext (Z.to_nat K) _
             (fun i' => r * (dS0 t (Z.of_nat i') (Z.of_nat j)
                             * at_ b bos H K h t (Z.of_nat i')))%R).
  - rewrite sigma_scal. ring.
  - intros i' Hi'. rewrite dS_scaled by (auto; lia). ring.
Qed.

Lemma dq_scaled (t : nat) (i : Z) :
  (t < L)%nat -> 0 <= i < K ->
  Recurrence.dq_ k v b ha do' h0 scale H K V bos n h t i
  = (r * Recurrence.dq_ k v b ha do h0 scale H K V bos n h t i)%R.
Proof.
  intros Ht Hi. unfold Recurrence.dq_.
  rewrite (sigma_ext (Z.to_nat V) _
             (fun j => r * (Recurrence.rebuilt k v b ha h0 H K V bos n h (S t) i
                              (Z.of_nat j)
                            * at_ do bos H V h t (Z.of_nat j)))%R).
  - rewrite sigma_scal. ring.
  - intros j Hj. rewrite Hdo by (auto; lia). ring.
Qed.

End Homogeneous.


(** * The order of the programs of a launch *)

(** a grid run in another order keeps an invariant that each program
    extends *)
Lemma run_grid_permuted {S : Type} (prog : Z -> Z -> S -> result S)
  (Inv : list (Z * Z) -> S -> Prop) (ids ids' : list (Z * Z)) :
  NoDup ids -> Permutation ids' ids ->
  (forall done id s, Inv done s -> In id ids -> ~ In id done ->
     exists s', prog (fst id) (snd id) s = Ok s' /\ Inv (id :: done) s') ->
  forall s, Inv [] s ->
  exists s' done, run_grid prog ids' s = Ok s' /\ Inv done s'
                  /\ forall id, In id ids -> In id done.
Proof.
  intros ND P Step s I.
  destruct (run_grid_inv prog Inv ids') with (s := s) as (s' & done & E & I' & C).
  - apply (Permutation_NoDup (Permutation_sym P) ND).
  - intros done id s0 I0 Hin. apply Step; auto.
    apply (Permutation_in _ P Hin).
  - exact I.
  - exists s', done. split; [exact E|]. split; [exact I'|].
    intros id Hin. apply C. apply (Permutation_in _ (Permutation_sym P) Hin).
Qed.



(** * Control flow of [GatedSlotAttention.forward] *)

(** [self] with another [mode] *)
Definition with_mode (m : GSA.mode) (self : GSA.config) : GSA.config :=
  GSA.mkconfig m (GSA.use_short_conv self) (GSA.num_kv_groups self)
    (GSA.head_k_dim self) (GSA.head_v_dim self) (GSA.num_slots self)
    (GSA.gate_logit_normalizer self) (GSA.feature_map self) (GSA.layer_idx self)
    (GSA.scale self).

Ltac case_all :=
  repeat match goal with
         | |- context [match ?x with _ => _ end] =>
             lazymatch x with
             | context [match _ with _ => _ end] => fail
             | _ => destruct x eqn:?
             end
         end.

Section GSAControl.

Context {Cache State ConvState Indices : Type}.
Context {collaborators : GSA.Collaborators Cache State ConvState Indices}.

Variable self : GSA.config.

(** X16 (short inputs). On an input of at most 64 tokens [forward] uses the
    recurrent engine whatever [self.mode] is: the result is the same for every
    mode, and [NotImplementedError] is never raised, also for a mode that is
    neither ['fused_recurrent'] nor ['chunk']. *)
Theorem short_input_ignores_mode
  (hidden_states : tensor) (attention_mask : option tensor)
  (past_key_values : option Cache) (use_cache output_attentions : bool)
  (cu_seqlens : option (list Z)) (m : GSA.mode) (B L D : Z) :
  shape hidden_states = [B; L; D] -> L <= 64 ->
  GSA.forward (with_mode m self) hidden_states attention_mask past_key_values
    use_cache output_attentions cu_seqlens
  = GSA.forward self hidden_states attention_mask past_key_values use_cache
      output_attentions cu_seqlens
  /\ GSA.forward self hidden_states attention_mask past_key_values use_cache
       output_attentions cu_seqlens <> Raise NotImplementedError.
Proof.
  intros Sh HL. apply Z.leb_le in HL. split.
  - unfold GSA.forward, bind. rewrite Sh, HL.
    cbn [with_mode GSA.cfg_mode GSA.use_short_conv GSA.num_kv_groups
         GSA.head_k_dim GSA.head_v_dim GSA.num_slots GSA.gate_logit_normalizer
         GSA.feature_map GSA.layer_idx GSA.scale].
    reflexivity.
  - unfold GSA.forward, bind. rewrite Sh, HL. case_all; discriminate.
Qed.

(** X17 (unsupported mode). [forward] raises [NotImplementedError] only on an
    input of more than 64 tokens with a mode that is neither
    ['fused_recurrent'] nor ['chunk']. *)
Theorem not_implemented_only_long_input
  (hidden_states : tensor) (attention_mask : option tensor)
  (past_key_values : option Cache) (use_cache output_attentions : bool)
  (cu_seqlens : option (list Z)) :
  GSA.forward self hidden_states attention_mask past_key_values use_cache
    output_attentions cu_seqlens = Raise NotImplementedError ->
  exists B L D,
    shape hidden_states = [B; L; D] /\ 64 < L /\ GSA.cfg_mode self = GSA.other_mode.
Proof.
  unfold GSA.forward, bind. intros E.
  destruct (shape hidden_states) as [|B [|L [|D [|]]]] eqn:Sh;
    try (revert E; case_all; discriminate).
  exists B, L, D. split; [reflexivity|].
  destruct (Z.leb_spec L 64) as [HL|HL].
  - revert E. case_all; discriminate.
  - split; [assumption|].
    destruct (GSA.cfg_mode self); [| |reflexivity]; revert E; case_all; discriminate.
Qed.

(** X18 (a cache needs a layer index). A layer built without [layer_idx]
    cannot be used with a cache: whenever [past_key_values] is given, the
    mask (if any) has two dimensions and the input three, [forward] raises
    [TypeError] at [len(past_key_values) > self.layer_idx]. *)
Theorem cache_without_layer_idx_fails
  (hidden_states : tensor) (attention_mask : option tensor) (cache : Cache)
  (use_cache output_attentions : bool) (cu_seqlens : option (list Z))
  (B L D : Z) :
  GSA.layer_idx self = None ->
  shape hidden_states = [B; L; D] ->
  (forall m, attention_mask = Some m -> length (shape m) = 2%nat) ->
  GSA.forward self hidden_states attention_mask (Some cache) use_cache
    output_attentions cu_seqlens = Raise TypeError.
Proof.
  intros Hidx Sh Hm. unfold GSA.forward, bind. rewrite Sh, Hidx.
  destruct attention_mask as [m|]; [|reflexivity].
  rewrite (Hm m eq_refl). reflexivity.
Qed.

End GSAControl.

Lemma logsigmoid_increasing (x y : R) :
  (x <= y)%R -> (GSA.logsigmoid x <= GSA.logsigmoid y)%R.
Proof.
  intros Hxy. unfold GSA.logsigmoid.
  pose proof (exp_pos (- x)) as Hx. pose proof (exp_pos (- y)) as Hy.
  assert (exp (- y) <= exp (- x))%R as He.
  { destruct Hxy as [Hlt | ->]; [|lra]. left. apply exp_increasing. lra. }
  assert (ln (1 + exp (- y)) <= ln (1 + exp (- x)))%R; [|lra].
  destruct He as [Hlt | ->]; [|lra]. left. apply ln_increasing; lra.
Qed.


(** ** Instances of the forward and launch theorems *)

Lemma unit_forward_shapes (T : Z) (initial_state : option tensor) :
  0 <= T ->
  (forall s0, initial_state = Some s0 -> shape s0 = [1; 1; 1; 1]) ->
  forward_shapes (unit_tensor T) (unit_tensor T) (unit_tensor T) (unit_tensor T)
    (unit_tensor T) initial_state None 1 T 1 1 1 1.
Proof.
  intros HT Si. unfold forward_shapes, segments_ok, num_sequences.
  simpl. repeat split; try lia; auto.
Qed.


(** a tensor of ones with the second row replaced by a two *)
Definition late_bumped_tensor : tensor :=
  mktensor [1; 2; 1; 1] (fun p => if p =? 1 then 2%R else 1%R).

Lemma late_bumped_same_rows :
  same_rows_until (unit_tensor 2) late_bumped_tensor None 2 1 1 0 0 0.
Proof.
  intros t i Ht Hi. simpl.
  destruct (Z.eqb_spec ((Z.of_nat t * 1 + 0) * 1 + i) 1); [lia | reflexivity].
Qed.


(** a tensor of zeros of the shape of [unit_tensor 2] *)
Definition zero_tensor : tensor := mktensor [1; 2; 1; 1] (fun _ => 0%R).




(** what a forward call on [unit_tensor 2] saves, with ones for [ha] *)
Definition unit_context : context :=
  {| saved_q := unit_tensor 2; saved_k := unit_tensor 2; saved_v := unit_tensor 2;
     saved_a := unit_tensor 2; saved_b := unit_tensor 2; saved_ha := unit_tensor 2;
     saved_initial_state := None; ctx_scale := 1%R; ctx_cu_seqlens := None |}.


(** one token, two heads, one key and one value channel, every element 1 *)
Definition pair_buffer : buffer := mkbuffer 2 (fun _ => 1%R).



(** ** Instances of the layer theorems *)

(** collaborators that hand their input back *)
Definition unit_collaborators : GSA.Collaborators unit unit unit unit :=
  {| GSA.cache_len := fun _ => 0;
     GSA.cache_get := fun _ _ => GSA.mklast tt None;
     GSA.cache_update := fun c _ _ _ _ => c;
     GSA.q_proj := fun x => x;
     GSA.k_proj := fun x => x;
     GSA.v_proj := fun x => x;
     GSA.f_proj := fun x => x;
     GSA.q_conv1d := fun x s _ _ => (x, s);
     GSA.k_conv1d := fun x s _ _ => (x, s);
     GSA.v_conv1d := fun x s _ _ => (x, s);
     GSA.silu := fun x => x;
     GSA.split_heads := fun _ x => x;
     GSA.merge_heads := fun x => x;
     GSA.repeat_groups := fun _ x => x;
     GSA.last_columns := fun _ x => x;
     GSA.get_unpad_data := fun _ => (tt, [], 0);
     GSA.index_first_axis := fun x _ => x;
     GSA.flatten_batch := fun x => x;
     GSA.unsqueeze0 := fun x => x;
     GSA.squeeze0 := fun x => x;
     GSA.pad_input := fun x _ _ _ => x;
     GSA.rms_norm_linear := fun x => x;
     GSA.fused_recurrent_gsa := fun q _ _ _ _ _ _ _ _ => (q, tt);
     GSA.chunk_gsa := fun q _ _ _ _ _ _ _ _ => (q, tt) |}.

(** a layer whose mode is neither ['fused_recurrent'] nor ['chunk'] *)
Definition odd_layer : GSA.config :=
  GSA.mkconfig GSA.other_mode false 1 1 1 1 16 None None 1%R.

Lemma short_input_ignores_mode_witness :
  GSA.forward (collaborators := unit_collaborators)
    (with_mode GSA.chunk odd_layer) (mktensor [1; 64; 1] (fun _ => 1%R))
    None None false false None
  = GSA.forward (collaborators := unit_collaborators)
      odd_layer (mktensor [1; 64; 1] (fun _ => 1%R)) None None false false None
  /\ GSA.forward (collaborators := unit_collaborators)
       odd_layer (mktensor [1; 64; 1] (fun _ => 1%R)) None None false false None
     <> Raise NotImplementedError.
Proof.
  apply (short_input_ignores_mode (collaborators := unit_collaborators) odd_layer
           (mktensor [1; 64; 1] (fun _ => 1%R)) None None false false None
           GSA.chunk 1 64 1).
  - reflexivity.
  - lia.
Defined.

Lemma not_implemented_only_long_input_witness :
  exists B L D,
    shape (mktensor [1; 65; 1] (fun _ => 1%R)) = [B; L; D] /\ 64 < L
    /\ GSA.cfg_mode odd_layer = GSA.other_mode.
Proof.
  apply (not_implemented_only_long_input (collaborators := unit_collaborators)
           odd_layer (mktensor [1; 65; 1] (fun _ => 1%R)) None None false false
           None).
  reflexivity.
Defined.

Lemma cache_without_layer_idx_fails_witness :
  GSA.forward (collaborators := unit_collaborators) odd_layer
    (mktensor [1; 1; 1] (fun _ => 1%R)) None (Some tt) true false None
  = Raise TypeError.
Proof.
  apply (cache_without_layer_idx_fails (collaborators := unit_collaborators)
           odd_layer (mktensor [1; 1; 1] (fun _ => 1%R)) None tt true false None
           1 1 1).
  - reflexivity.
  - reflexivity.
  - intros; discriminate.
Defined.

